(** * popup.js: the scrape orchestrator of the LinkedIn multi-page scraper

    A shallow embedding of [src/popup.js]: the CSV emitter ([quoteCSV],
    [generateCSV], [downloadOneRowCSV]), the work queue kept in
    [chrome.storage.local] under the key [chunk_urls], the heartbeat timer
    ([startHeartbeatTimer], [resetHeartbeatTimer], [clearHeartbeatTimer]) and
    the main loop of [handleScrapeClick].

    JavaScript strings are sequences of UTF-16 code units; they are modelled
    as [list N].  The browser (tabs, content script, timers, downloads) is an
    input of the model: what it does during one iteration of the loop is an
    [attempt], and everything the extension makes observable (status line,
    console, downloaded files) is appended to a log of [event]s. *)

From stdpp Require Import base decidable option numbers list strings.

Local Open Scope N_scope.

(** ** JavaScript strings *)

Abbreviation jsstring := (list N).

(** A string literal of the source, as code units. *)
Definition lit (s : string) : jsstring :=
  map Ascii.N_of_ascii (String.list_ascii_of_string s).

Definition dquote : N := 34.   (* the double quote character *)
Definition comma : N := 44.
Definition newline : N := 10.  (* line feed *)
Definition slash : N := 47.

(** [Array.prototype.join] on an array of strings. *)
Fixpoint join (sep : jsstring) (parts : list jsstring) : jsstring :=
  match parts with
  | [] => []
  | [p] => p
  | p :: rest => p ++ sep ++ join sep rest
  end.

(** [String.prototype.split] with a one-character separator; splitting the
    empty string gives one empty part. *)
Fixpoint split (sep : N) (s : jsstring) : list jsstring :=
  match s with
  | [] => [[]]
  | c :: t =>
      if decide (c = sep) then [] :: split sep t
      else match split sep t with
           | h :: r => (c :: h) :: r
           | [] => [[c]]
           end
  end.

(** ** CSV generation (popup.js, lines 274-300) *)

Module CSV.

(** The [replace] call of [quoteCSV]: every double quote is doubled. *)
Fixpoint escape_quotes (s : jsstring) : jsstring :=
  match s with
  | [] => []
  | c :: t =>
      if decide (c = dquote) then dquote :: dquote :: escape_quotes t
      else c :: escape_quotes t
  end.

(** [quoteCSV(str)].  The argument may be [undefined] or [null] ([None]);
    the [||] fallback maps those, and the empty string, to the empty
    string. *)
Definition quoteCSV (str : option jsstring) : jsstring :=
  let safe := match str with Some (c :: t) => c :: t | _ => [] end in
  dquote :: escape_quotes safe ++ [dquote].

(** One scraped record, as built by the content script.  A property that is
    missing on the JavaScript object reads as [undefined] ([None]). *)
Record post := Post {
  pageUrl : option jsstring;
  pageName : option jsstring;
  content : option jsstring;
  postDate : option jsstring;
  likes : option jsstring;
  comments : option jsstring;
}.

Definition headers : list jsstring :=
  [lit "PageURL"; lit "PageName"; lit "Content";
   lit "PostDate"; lit "Likes"; lit "Comments"].

(** The [row] array built for one item inside [generateCSV]. *)
Definition post_row (item : post) : list jsstring :=
  [quoteCSV (pageUrl item); quoteCSV (pageName item); quoteCSV (content item);
   quoteCSV (postDate item); quoteCSV (likes item); quoteCSV (comments item)].

(** [generateCSV(dataArray)] *)
Definition generateCSV (dataArray : list post) : jsstring :=
  let rows := [join [comma] headers]
              ++ map (fun item => join [comma] (post_row item)) dataArray in
  join [newline] rows.

(** The [row] array of [downloadOneRowCSV(url, pageName, content)]: three
    quoted fields, then three empty strings that are not passed through
    [quoteCSV]. *)
Definition one_row (url pageName content : jsstring) : list jsstring :=
  [quoteCSV (Some url); quoteCSV (Some pageName); quoteCSV (Some content);
   []; []; []].

(** The text handed to [downloadCSV] by [downloadOneRowCSV]. *)
Definition oneRowCSV (url pageName content : jsstring) : jsstring :=
  let csvRows := [join [comma] headers;
                  join [comma] (one_row url pageName content)] in
  join [newline] csvRows.

(** *** Reading a quoted cell back

    Not part of popup.js: the reader that the round-trip property of the
    specification refers to, written from its words (strip the outer quotes,
    collapse doubled quotes).  [read_quoted s] consumes the inside of a quoted
    cell, after the opening quote, up to its closing quote; it returns the
    cell's text and what follows the closing quote. *)
Fixpoint read_quoted (s : jsstring) : option (jsstring * jsstring) :=
  match s with
  | [] => None
  | c :: t =>
      if decide (c = dquote) then
        match t with
        | c' :: t' =>
            if decide (c' = dquote)
            then prod_map (cons dquote) id <$> read_quoted t'
            else Some ([], t)
        | [] => Some ([], [])
        end
      else prod_map (cons c) id <$> read_quoted t
  end.

(** A cell of a CSV file: a quoted cell is read back by [read_quoted]; a cell
    must extend to the end of the input. *)
Definition parse_cell (cell : jsstring) : option jsstring :=
  match cell with
  | c :: t =>
      if decide (c = dquote) then
        match read_quoted t with
        | Some (text, []) => Some text
        | _ => None
        end
      else None
  | [] => None
  end.

End CSV.

(** ** The seed file chunk.txt (popup.js, lines 208-214) *)

(** A JSON value, as [resp.json()] returns it.  Only whether a number is zero
    matters below, so numbers are kept as integers. *)
#[local] Unset Elimination Schemes.
Inductive json :=
| JNull
| JBool (b : bool)
| JNumber (n : Z)
| JString (s : jsstring)
| JArray (items : list json)
| JObject (fields : list (jsstring * json)).
#[local] Set Elimination Schemes.

(** White space and line terminators of ECMAScript, the code units that
    [String.prototype.trim] strips. *)
Definition whitespace (c : N) : bool :=
  bool_decide (c ∈ [9; 10; 11; 12; 13; 32; 160; 5760; 8232; 8233; 8239; 8287;
                    12288; 65279])
  || ((8192 <=? c) && (c <=? 8202)).

Fixpoint trim_start (s : jsstring) : jsstring :=
  match s with
  | c :: t => if whitespace c then trim_start t else s
  | [] => []
  end.

(** [String.prototype.trim] *)
Definition trim (s : jsstring) : jsstring :=
  reverse (trim_start (reverse (trim_start s))).

(** What reading chunk.txt can throw. *)
Inductive error :=
| FetchRejected                 (* [fetch] itself rejects *)
| FailedToFetchChunk            (* [new Error] of line 211 *)
| SyntaxError                   (* [resp.json()]: the body is not JSON *)
| TypeError.                    (* a call on something that is no function *)

(** The callback of the filter, [u && u.trim()], read as a condition.  A falsy
    [u] short-circuits; a string is kept when its trimmed text is not empty;
    every other truthy value has no callable [trim], and the call throws. *)
Definition keep_entry (u : json) : error + bool :=
  match u with
  | JNull => inr false
  | JBool false => inr false
  | JBool true => inl TypeError
  | JNumber n => if decide (n = 0%Z) then inr false else inl TypeError
  | JString [] => inr false
  | JString s => inr (bool_decide (trim s ≠ []))
  | JArray _ | JObject _ => inl TypeError
  end.

(** [arr.filter((u) => u && u.trim())]: the first throwing entry aborts the
    whole filter.  Every entry that is kept is a string. *)
Fixpoint filter_entries (arr : list json) : error + list jsstring :=
  match arr with
  | [] => inr []
  | u :: rest =>
      match keep_entry u with
      | inl e => inl e
      | inr keep =>
          match filter_entries rest with
          | inl e => inl e
          | inr kept =>
              match u with
              | JString s => inr (if keep then s :: kept else kept)
              | _ => inr kept
              end
          end
      end
  end.

(** The response of [fetch] for chunk.txt: [None] when the promise rejects;
    otherwise the [ok] flag and the parsed body ([None] when the body is not
    JSON). *)
Record response := Response { ok : bool; body : option json }.

(** [fetchChunkFile()] *)
Definition fetchChunkFile (chunk_txt : option response) : error + list jsstring :=
  match chunk_txt with
  | None => inl FetchRejected
  | Some resp =>
      if negb (ok resp) then inl FailedToFetchChunk
      else match body resp with
           | None => inl SyntaxError
           | Some (JArray arr) => filter_entries arr
           | Some _ => inl TypeError
           end
  end.

(** ** State of the popup and what it makes observable *)

(** The texts written to [statusDiv.textContent]. *)
Inductive status :=
| FetchingChunk
| LoadedUrls (n : nat)
| ResumingWith (n : nat)
| AllPagesProcessed
| NavigatingTo (url : jsstring)
| Scraping (url : jsstring)
| NoPostsFound (url : jsstring)
| UnclaimedPage (url : jsstring)
| CheckingDownload (url : jsstring)
| DoneScraping (url : jsstring)
| ErrorSkipping (url : jsstring)
| FatalError (e : error).

(** What the per-item [catch] of line 112 can receive. *)
Inductive failure :=
| NoActiveTab                   (* line 49 *)
| Rejected (reason : jsstring). (* [scrapeTab] rejected *)

(** The lines written to the console. *)
Inductive console :=
| NoHeartbeat (url : jsstring)        (* line 58 *)
| HeartbeatExpired                    (* line 151 *)
| SkippingUrl (url : jsstring)        (* line 131 *)
| DownloadTimeout (url : jsstring)    (* line 103 *)
| ErrorScraping (url : jsstring) (err : failure)   (* line 114 *)
| FatalLogged (e : error).            (* line 121 *)

Inductive event :=
| Status (s : status)
| Console (c : console)
| Download (filename text : jsstring)           (* [downloadCSV] *)
| ChunkUpdated (remaining : list jsstring).     (* chunk-updated.txt *)

#[global] Instance error_eq_dec : EqDecision error.
Proof. solve_decision. Defined.
#[global] Instance status_eq_dec : EqDecision status.
Proof. solve_decision. Defined.
#[global] Instance failure_eq_dec : EqDecision failure.
Proof. solve_decision. Defined.
#[global] Instance console_eq_dec : EqDecision console.
Proof. solve_decision. Defined.
#[global] Instance event_eq_dec : EqDecision event.
Proof. solve_decision. Defined.

(** The two arrow functions that the file passes to [setTimeout] for the
    heartbeat timer: the one of [startHeartbeatTimer], which calls the
    [onTimeout] built at lines 56-60 for [url], and the one of
    [resetHeartbeatTimer], which only warns. *)
Inductive closure :=
| OnTimeout (url : jsstring)
| WarnExpired.

(** A pending timeout of the browser. *)
Record timeout := Timeout { tid : nat; due : N; fn : closure }.

Record state := State {
  chunk_urls : option (list jsstring);   (* chrome.storage.local; [None]: no array stored *)
  heartbeatTimer : option nat;           (* [null] or a timer id *)
  heartbeatTimeoutMs : N;
  timeouts : list timeout;               (* pending heartbeat timeouts, oldest first *)
  next_tid : nat;
  clock : N;                             (* milliseconds *)
  log : list event;                      (* oldest first *)
}.

Definition initial : state :=
  {| chunk_urls := None; heartbeatTimer := None; heartbeatTimeoutMs := 30000;
     timeouts := []; next_tid := 1; clock := 0; log := [] |}.

Definition set_chunk_urls (v : option (list jsstring)) (st : state) : state :=
  {| chunk_urls := v; heartbeatTimer := heartbeatTimer st;
     heartbeatTimeoutMs := heartbeatTimeoutMs st; timeouts := timeouts st;
     next_tid := next_tid st; clock := clock st; log := log st |}.

Definition set_heartbeatTimer (v : option nat) (st : state) : state :=
  {| chunk_urls := chunk_urls st; heartbeatTimer := v;
     heartbeatTimeoutMs := heartbeatTimeoutMs st; timeouts := timeouts st;
     next_tid := next_tid st; clock := clock st; log := log st |}.

Definition set_timeouts (v : list timeout) (st : state) : state :=
  {| chunk_urls := chunk_urls st; heartbeatTimer := heartbeatTimer st;
     heartbeatTimeoutMs := heartbeatTimeoutMs st; timeouts := v;
     next_tid := next_tid st; clock := clock st; log := log st |}.

Definition set_next_tid (v : nat) (st : state) : state :=
  {| chunk_urls := chunk_urls st; heartbeatTimer := heartbeatTimer st;
     heartbeatTimeoutMs := heartbeatTimeoutMs st; timeouts := timeouts st;
     next_tid := v; clock := clock st; log := log st |}.

Definition set_clock (v : N) (st : state) : state :=
  {| chunk_urls := chunk_urls st; heartbeatTimer := heartbeatTimer st;
     heartbeatTimeoutMs := heartbeatTimeoutMs st; timeouts := timeouts st;
     next_tid := next_tid st; clock := v; log := log st |}.

Definition emit (e : event) (st : state) : state :=
  {| chunk_urls := chunk_urls st; heartbeatTimer := heartbeatTimer st;
     heartbeatTimeoutMs := heartbeatTimeoutMs st; timeouts := timeouts st;
     next_tid := next_tid st; clock := clock st; log := log st ++ [e] |}.

(** Statements of the source run left to right: [st |> f |> g]. *)
Notation "st |> f" := (f st) (at level 45, left associativity, only parsing).

(** ** Chrome storage (popup.js, lines 180-206) *)

(** [loadChunkFromStorage()]: the stored array, or the empty array. *)
Definition loadChunkFromStorage (st : state) : list jsstring :=
  match chunk_urls st with
  | Some urls => urls
  | None => []
  end.

(** [saveChunkToStorage(urls)] *)
Definition saveChunkToStorage (urls : list jsstring) (st : state) : state :=
  set_chunk_urls (Some urls) st.

(** [removeUrlFromStorage(url)] *)
Definition removeUrlFromStorage (url : jsstring) (st : state) : state :=
  let existing := loadChunkFromStorage st in
  let filtered := filter (λ item, item ≠ url) existing in
  saveChunkToStorage filtered st.

(** [downloadUpdatedChunkFile()]: the stored list goes out as
    chunk-updated.txt. *)
Definition downloadUpdatedChunkFile (st : state) : state :=
  let updatedList := loadChunkFromStorage st in
  emit (ChunkUpdated updatedList) st.

(** ** Artifacts (popup.js, lines 164-178, 302-317, 355-359) *)

(** [getFilenameForUrl(url)]: the last non-empty path segment, or
    linkedin_page, followed by the extension. *)
Definition getFilenameForUrl (url : jsstring) : jsstring :=
  let parts := filter (λ part, part ≠ []) (split slash url) in
  let last := match last parts with
              | Some (c :: t) => c :: t
              | _ => lit "linkedin_page"
              end in
  last ++ lit ".csv".

(** [downloadCSV(csvString, filename)] *)
Definition downloadCSV (csvString filename : jsstring) (st : state) : state :=
  emit (Download filename csvString) st.

(** [downloadOneRowCSV(url, pageName, content)] *)
Definition downloadOneRowCSV (url pageName content : jsstring) (st : state)
  : state :=
  downloadCSV (CSV.oneRowCSV url pageName content) (getFilenameForUrl url) st.

(** [skipUrl(url)] *)
Definition skipUrl (url : jsstring) (st : state) : state :=
  st |> emit (Console (SkippingUrl url))
     |> downloadOneRowCSV url (lit "skipped") (lit "no post or error")
     |> removeUrlFromStorage url
     |> downloadUpdatedChunkFile.

(** ** The heartbeat timer (popup.js, lines 7-17 and 137-162) *)

(** [setTimeout(fn, ms)]: registers the closure and returns its id. *)
Definition setTimeout (f : closure) (ms : N) (st : state) : nat * state :=
  let id := next_tid st in
  (id, st |> set_timeouts
               (timeouts st ++ [{| tid := id; due := clock st + ms; fn := f |}])
          |> set_next_tid (S id)).

(** [clearTimeout(id)]: an id that is no longer pending is ignored. *)
Definition clearTimeout (id : nat) (st : state) : state :=
  set_timeouts (filter (λ t, tid t ≠ id) (timeouts st)) st.

(** [clearHeartbeatTimer()] *)
Definition clearHeartbeatTimer (st : state) : state :=
  match heartbeatTimer st with
  | Some id => st |> clearTimeout id |> set_heartbeatTimer None
  | None => st
  end.

(** [startHeartbeatTimer(onTimeout)], with the caller's [onTimeout] given as
    the closure that ends up in the timer table. *)
Definition startHeartbeatTimer (onTimeout : closure) (st : state) : state :=
  let st := clearHeartbeatTimer st in
  let (id, st) := setTimeout onTimeout (heartbeatTimeoutMs st) st in
  set_heartbeatTimer (Some id) st.

(** [resetHeartbeatTimer()], called for every heartbeat message.  The new
    timeout carries the closure of lines 150-153, not the one that
    [startHeartbeatTimer] was given. *)
Definition resetHeartbeatTimer (st : state) : state :=
  match heartbeatTimer st with
  | Some id =>
      let st := clearTimeout id st in
      let (id', st) := setTimeout WarnExpired (heartbeatTimeoutMs st) st in
      set_heartbeatTimer (Some id') st
  | None => st
  end.

(** Running a closure when its timeout fires.  [skipUrl] is asynchronous; its
    storage callbacks are taken to complete before the next event that the
    model distinguishes. *)
Definition run_closure (f : closure) (st : state) : state :=
  match f with
  | OnTimeout url => st |> emit (Console (NoHeartbeat url)) |> skipUrl url
  | WarnExpired => st |> emit (Console HeartbeatExpired)
  end.

(** [ms] milliseconds pass: the timeouts that are due by then fire, oldest
    first, and leave the table.  A fired timeout does not clear
    [heartbeatTimer]: the variable keeps the stale id. *)
Definition elapse (ms : N) (st : state) : state :=
  let now := clock st + ms in
  let fired := filter (λ t, due t ≤ now) (timeouts st) in
  let pending := filter (λ t, ¬ due t ≤ now) (timeouts st) in
  foldl (λ s t, run_closure (fn t) s)
        (st |> set_timeouts pending |> set_clock now) fired.

(** Time passes without bound: every pending timeout fires. *)
Definition elapse_forever (st : state) : state :=
  foldl (λ s t, run_closure (fn t) s) (set_timeouts [] st) (timeouts st).

(** A heartbeat message arrives [gap] milliseconds after the previous event
    (lines 12-17). *)
Definition heartbeat (gap : N) (st : state) : state :=
  st |> elapse gap |> resetHeartbeatTimer.

(** ** One page (popup.js, lines 43-118) *)

(** How the callback of [chrome.tabs.sendMessage] is invoked (lines 259-269). *)
Inductive reply :=
| LastError (message : jsstring)        (* [chrome.runtime.lastError] is set *)
| NoResponse                            (* the response is missing *)
| Answered (data : option (list CSV.post)).   (* [response.data], maybe absent *)

(** What the browser does while one page is processed. *)
Record attempt := Attempt {
  active_tab : bool;            (* [chrome.tabs.query] finds a tab with an id *)
  navigation_completes : bool;  (* the tab reports the complete status *)
  heartbeats : list N;          (* heartbeat messages while [scrapeTab] is
                                   pending: for each, the milliseconds since
                                   the previous one, or since the timer was
                                   started *)
  answer : option (N * reply);  (* when, counted from the last heartbeat, and
                                   how the content script answers; [None]:
                                   the callback is never invoked *)
  download_polls : list bool;   (* successive results of [isFileDownloaded] *)
}.

(** [waitForFileDownload(filename)], with [maxAttempts] polls left. *)
Fixpoint waitForFileDownload (maxAttempts : nat) (polls : list bool) : bool :=
  match maxAttempts with
  | O => false
  | S attempts_left =>
      match polls with
      | found :: later =>
          if found then true else waitForFileDownload attempts_left later
      | [] => false
      end
  end.

(** The test of lines 80-84. *)
Definition is_no_post_record (scrapedData : list CSV.post) : bool :=
  match scrapedData with
  | [item] =>
      bool_decide (CSV.pageName item = Some (lit "not found"))
      && bool_decide (CSV.content item = Some (lit "no post"))
  | _ => false
  end.

(** Lines 66-110: [scrapeTab] resolved with [scrapedData]. *)
Definition on_scraped (url : jsstring) (polls : list bool)
    (scrapedData : list CSV.post) (st : state) : state :=
  let st := clearHeartbeatTimer st in
  match scrapedData with
  | [] =>
      st |> emit (Status (NoPostsFound url))
         |> downloadOneRowCSV url (lit "not found") (lit "no post")
         |> removeUrlFromStorage url
         |> downloadUpdatedChunkFile
  | _ =>
      if is_no_post_record scrapedData then
        st |> emit (Status (UnclaimedPage url))
           |> downloadCSV (CSV.generateCSV scrapedData) (getFilenameForUrl url)
           |> removeUrlFromStorage url
           |> downloadUpdatedChunkFile
      else
        let st := st |> downloadCSV (CSV.generateCSV scrapedData)
                                    (getFilenameForUrl url)
                     |> emit (Status (CheckingDownload url)) in
        let downloaded := waitForFileDownload 10 polls in
        let st := if downloaded then st
                  else emit (Console (DownloadTimeout url)) st in
        st |> removeUrlFromStorage url
           |> downloadUpdatedChunkFile
           |> emit (Status (DoneScraping url))
  end.

(** Lines 112-118: the [catch] of the page. *)
Definition on_error (url : jsstring) (err : failure) (st : state) : state :=
  st |> emit (Console (ErrorScraping url err))
     |> emit (Status (ErrorSkipping url))
     |> clearHeartbeatTimer
     |> skipUrl url.

(** What the loop does after the page. *)
Inductive step :=
| Continue (st : state)     (* next iteration *)
| Waiting (st : state).     (* an [await] that never resumes *)

(** The callback of [scrapeTab] runs with reply [r]: the promise rejects into
    the [catch], or resolves with [response.data || []]. *)
Definition on_answer (url : jsstring) (polls : list bool) (r : reply)
    (st : state) : state :=
  match r with
  | LastError message => on_error url (Rejected message) st
  | NoResponse =>
      on_error url (Rejected (lit "No response from content script")) st
  | Answered data => on_scraped url polls (default [] data) st
  end.

(** The popup while [scrapeTab] is pending: the heartbeats of the attempt
    arrive, then [gap] more milliseconds pass. *)
Definition pending (a : attempt) (gap : N) (st : state) : state :=
  foldl (λ s g, heartbeat g s) st (heartbeats a) |> elapse gap.

(** [await scrapeTab(tab.id, url)] and what follows it in the iteration. *)
Definition await_scrapeTab (url : jsstring) (a : attempt) (st : state) : step :=
  match answer a with
  | None =>
      Waiting (foldl (λ s g, heartbeat g s) st (heartbeats a) |> elapse_forever)
  | Some (gap, r) =>
      Continue (st |> pending a gap |> on_answer url (download_polls a) r)
  end.

(** The body of the [while] loop for the first stored url. *)
Definition iteration (url : jsstring) (a : attempt) (st : state) : step :=
  let st := emit (Status (NavigatingTo url)) st in
  if negb (active_tab a) then Continue (on_error url NoActiveTab st)
  else if negb (navigation_completes a) then Waiting st
  else
    st |> startHeartbeatTimer (OnTimeout url)
       |> emit (Status (Scraping url))
       |> await_scrapeTab url a.

(** ** The run (popup.js, lines 21-124) *)

(** The browser's behaviour, iteration by iteration. *)
Definition browser := nat → attempt.

Inductive run :=
| Finished (st : state)     (* the loop ended at line 40 *)
| Fatal (st : state)        (* the outer [catch] of line 120 *)
| Blocked (st : state)      (* the loop waits forever *)
| OutOfFuel.

(** The [while (true)] loop, from its [i]-th iteration on. *)
Fixpoint processUrls (fuel : nat) (b : browser) (i : nat) (st : state) : run :=
  match fuel with
  | O => OutOfFuel
  | S fuel' =>
      match loadChunkFromStorage st with
      | [] => Finished (emit (Status AllPagesProcessed) st)
      | url :: _ =>
          match iteration url (b i) st with
          | Continue st' => processUrls fuel' b (S i) st'
          | Waiting st' => Blocked st'
          end
      end
  end.

(** [handleScrapeClick()] *)
Definition handleScrapeClick (fuel : nat) (chunk_txt : option response)
    (b : browser) (st : state) : run :=
  match loadChunkFromStorage st with
  | [] =>
      let st := emit (Status FetchingChunk) st in
      match fetchChunkFile chunk_txt with
      | inl e => Fatal (st |> emit (Console (FatalLogged e))
                           |> emit (Status (FatalError e)))
      | inr listFromFile =>
          st |> saveChunkToStorage listFromFile
             |> emit (Status (LoadedUrls (length listFromFile)))
             |> processUrls fuel b 0
      end
  | storedList =>
      st |> emit (Status (ResumingWith (length storedList)))
         |> processUrls fuel b 0
  end.

(** ** Download checking (popup.js, lines 338-353) *)

(** [hay] begins with [needle]. *)
Fixpoint starts_with (needle hay : jsstring) : bool :=
  match needle, hay with
  | [], _ => true
  | c :: needle', d :: hay' => bool_decide (c = d) && starts_with needle' hay'
  | _ :: _, [] => false
  end.

(** [String.prototype.includes]: [needle] occurs somewhere in [hay]. *)
Fixpoint includes (needle hay : jsstring) : bool :=
  match hay with
  | [] => starts_with needle []
  | _ :: hay' => starts_with needle hay || includes needle hay'
  end.

(** An entry of the result of [chrome.downloads.search]; its [filename] may be
    missing. *)
Record download_item := DownloadItem { item_filename : option jsstring }.

(** How the callback of [chrome.downloads.search] is invoked. *)
Inductive search :=
| SearchError                              (* [chrome.runtime.lastError] is set *)
| NotAnArray                               (* [results] is no array *)
| SearchResults (results : list download_item).

(** [isFileDownloaded(filename)]: the value the promise resolves with. *)
Definition isFileDownloaded (filename : jsstring) (s : search) : bool :=
  match s with
  | SearchError | NotAnArray => false
  | SearchResults results =>
      existsb (λ r, match item_filename r with
                    | Some (c :: f) => includes filename (c :: f)
                    | _ => false
                    end) results
  end.

(** ** The content script (contentScript.js)

    The content script that answers the popup: the listener of lines
    367-381 of the source file and the functions it calls.  What the script
    reads from the page is an input: the page is a [document]. *)

Module ContentScript.

(** [removeNonAscii(str)]: every code unit outside 0x00-0x7F is dropped. *)
Definition removeNonAscii (str : jsstring) : jsstring :=
  filter (λ c, c ≤ 127) str.

(** [str.replace(pattern, "")] with a string pattern: the first occurrence
    of [pattern] is cut out, if there is one. *)
Fixpoint remove_first (pattern str : jsstring) : jsstring :=
  match str with
  | [] => []
  | c :: rest =>
      if starts_with pattern str then drop (length pattern) str
      else c :: remove_first pattern rest
  end.

(** The [while] loop of [infiniteScrollWithHeartbeat], for a page whose
    [document.body.scrollHeight] reads, after the scrolls, as the successive
    elements of [heights].  Every turn of the loop sends one heartbeat; the
    result is the number of heartbeats sent when the loop ends, [None] when
    the loop is still running after the last height. *)
Fixpoint scroll_loop (heights : list N) (attemptsSinceLastHeightChange : nat)
    (lastHeight : N) : option nat :=
  if decide (attemptsSinceLastHeightChange < 3)%nat then
    match heights with
    | [] => None
    | newHeight :: later =>
        S <$> (if decide (newHeight = lastHeight)
               then scroll_loop later (S attemptsSinceLastHeightChange)
                                lastHeight
               else scroll_loop later 0 newHeight)
    end
  else Some 0%nat.

(** [infiniteScrollWithHeartbeat()] *)
Definition infiniteScrollWithHeartbeat (heights : list N) : option nat :=
  scroll_loop heights 0 0.

(** What a selector finds inside a post: no element, or an element and its
    [innerText].  The [innerText] of an element that is no HTML element (an
    SVG element, for one) is undefined, and calling [trim] or [replace] on
    it throws. *)
Inductive found :=
| NoElement
| Element (innerText : option jsstring).

(** The elements of one post that [scrapePosts] looks up. *)
Record post_element := PostElement {
  text_el : found;       (* .update-components-text *)
  time_el : found;       (* the sub-description span *)
  likes_el : found;      (* the reactions count *)
  comments_el : found;   (* the comments count *)
}.

(** What the script reads from the page. *)
Record document := Document {
  posts_link : bool;               (* a link to /posts/ exists *)
  on_posts_url : bool;             (* the location already includes /posts/ *)
  heights : list N;                (* successive values of [scrollHeight] *)
  title_el : option jsstring;      (* the company title element *)
  doc_title : jsstring;            (* [document.title] *)
  post_elements : list post_element;
}.

(** [getCompanyName()] *)
Definition getCompanyName (doc : document) : jsstring :=
  match title_el doc with
  | Some innerText => removeNonAscii (trim innerText)
  | None =>
      let docTitle := removeNonAscii (doc_title doc) in
      trim (remove_first (lit "| LinkedIn") docTitle)
  end.

(** The text of the comments count as [scrapePosts] cleans it. *)
Definition comments_text (innerText : jsstring) : jsstring :=
  removeNonAscii
    (trim (remove_first (lit " comment")
             (remove_first (lit " comments") innerText))).







(** The fields that [formatDate] reads from the date object. *)
Record date_fields := DateFields {
  fullYear : N;       (* [getFullYear()] *)
  month : N;          (* [getMonth()], from 0 *)
  day : N;            (* [getDate()] *)
  hours : N;
  minutes : N;
  seconds : N;
}.

Fixpoint uint_digits (u : Decimal.uint) : jsstring :=
  match u with
  | Decimal.Nil => []
  | Decimal.D0 u => 48 :: uint_digits u
  | Decimal.D1 u => 49 :: uint_digits u
  | Decimal.D2 u => 50 :: uint_digits u
  | Decimal.D3 u => 51 :: uint_digits u
  | Decimal.D4 u => 52 :: uint_digits u
  | Decimal.D5 u => 53 :: uint_digits u
  | Decimal.D6 u => 54 :: uint_digits u
  | Decimal.D7 u => 55 :: uint_digits u
  | Decimal.D8 u => 56 :: uint_digits u
  | Decimal.D9 u => 57 :: uint_digits u
  end.

(** [String(n)] for a natural number. *)
Definition String_of (n : N) : jsstring := uint_digits (N.to_uint n).

(** [str.padStart(targetLength, pad)] with a one-character pad. *)
Definition padStart (targetLength : nat) (pad : N) (str : jsstring) : jsstring :=
  replicate (targetLength - length str) pad ++ str.

(** [formatDate(dateObj)] *)
Definition formatDate (dateObj : date_fields) : jsstring :=
  let yyyy := String_of (fullYear dateObj) in
  let mm := padStart 2 48 (String_of (month dateObj + 1)) in
  let dd := padStart 2 48 (String_of (day dateObj)) in
  let hh := padStart 2 48 (String_of (hours dateObj)) in
  let min := padStart 2 48 (String_of (minutes dateObj)) in
  let ss := padStart 2 48 (String_of (seconds dateObj)) in
  yyyy ++ lit "-" ++ mm ++ lit "-" ++ dd ++ lit " " ++ hh ++ lit ":" ++ min
       ++ lit ":" ++ ss.

End ContentScript.

(** ** Reading the log *)

(** The files handed to [downloadCSV], in order: name and text. *)
Definition artifacts (st : state) : list (jsstring * jsstring) :=
  omap (λ e, match e with
             | Download filename text => Some (filename, text)
             | _ => None
             end) (log st).

(** The urls whose [onTimeout] closure has run (the warning of line 58), in
    order. *)
Definition stalled (st : state) : list jsstring :=
  omap (λ e, match e with
             | Console (NoHeartbeat url) => Some url
             | _ => None
             end) (log st).

(** ** Vocabulary of the properties *)

(** How often [v] occurs in a queue. *)
Definition occurrences (v : jsstring) (q : list jsstring) : nat :=
  length (filter (λ item, item = v) q).

(** The distinct entries of a queue, in the order of their first
    occurrence. *)
Fixpoint firsts (q : list jsstring) : list jsstring :=
  match q with
  | [] => []
  | url :: rest => url :: filter (λ item, item ≠ url) (firsts rest)
  end.

(** An entry of chunk.txt that names a page: a string with at least one
    character that is not white space. *)
Definition names_a_page (u : json) : bool :=
  match u with
  | JString s => existsb (λ c, negb (whitespace c)) s
  | _ => false
  end.

(** An entry of the kind the seed file is meant to hold: a string or null. *)
Definition string_or_null (u : json) : bool :=
  match u with
  | JString _ | JNull => true
  | _ => false
  end.

(** A data row in which each of the six fields went through [quoteCSV]. *)
Definition quoted_row (row : jsstring) : Prop :=
  ∃ fields : list (option jsstring),
    length fields = 6%nat ∧ row = join [comma] (CSV.quoteCSV <$> fields).

(** An artifact as the specification describes it: the header line, then data
    rows whose fields are all quoted. *)
Definition fully_quoted (text : jsstring) : Prop :=
  ∃ rows : list jsstring,
    Forall quoted_row rows
    ∧ text = join [newline] (join [comma] CSV.headers :: rows).

(** *** Artifacts in the words of the specification

    The texts below are written from the description of the files (a fixed
    header of six columns, every field quoted with its quotes doubled), not
    from [generateCSV] and [quoteCSV]: the properties compare what the popup
    writes with them. *)

(** The header line. *)
Definition header_line : jsstring :=
  lit "PageURL,PageName,Content,PostDate,Likes,Comments".

(** A field quoted by standard CSV escaping: wrapped in double quotes, every
    double quote inside it doubled. *)
Definition quoted (field : jsstring) : jsstring :=
  dquote :: (field ≫= λ c, if decide (c = dquote) then [dquote; dquote]
                            else [c])
         ++ [dquote].

(** Texts one after the other, with [sep] between each two of them. *)
Fixpoint separated (sep : N) (parts : list jsstring) : jsstring :=
  match parts with
  | [] => []
  | part :: rest =>
      match rest with
      | [] => part
      | _ :: _ => part ++ sep :: separated sep rest
      end
  end.

(** The file with one row for each record, every field of every row
    quoted. *)
Definition quoted_artifact (records : list (list jsstring)) : jsstring :=
  separated newline
    (header_line :: ((λ fields, separated comma (quoted <$> fields)) <$> records)).

(** The file with the single placeholder row: url, page name and content
    quoted, then three empty fields that are not quoted. *)
Definition placeholder_artifact (url pageName content : jsstring) : jsstring :=
  separated newline
    [header_line;
     separated comma [quoted url; quoted pageName; quoted content; []; []; []]].

(** The page name and content of the placeholder rows: a page without
    posts, and a page that was skipped. *)
Definition placeholder_labels : list (jsstring * jsstring) :=
  [(lit "not found", lit "no post"); (lit "skipped", lit "no post or error")].

(** An artifact as the popup writes it: the header line, then either one or
    more rows of six quoted fields, or the placeholder row of a page without
    posts or of a skipped page. *)
Definition artifact_shape (text : jsstring) : Prop :=
  (∃ records : list (list jsstring),
      records ≠ [] ∧ Forall (λ fields, length fields = 6%nat) records
      ∧ text = quoted_artifact records)
  ∨ (∃ url pageName content : jsstring,
        (pageName, content) ∈ placeholder_labels
        ∧ text = placeholder_artifact url pageName content).

(** An event whose file, if it is one, has the shape of an artifact. *)
Definition sound_event (e : event) : Prop :=
  match e with
  | Download _ text => artifact_shape text
  | _ => True
  end.

(** The log of [st'] is the log of [st] with events satisfying [P] added. *)
Definition grows (P : event → Prop) (st st' : state) : Prop :=
  ∃ evs, log st' = log st ++ evs ∧ Forall P evs.

(** The liveness monitor on its own: armed for [url], then heartbeats that
    arrive [gaps] apart, then [wait] milliseconds without any. *)
Definition monitor (url : jsstring) (gaps : list N) (wait : N) (st : state)
  : state :=
  foldl (λ s g, heartbeat g s) (startHeartbeatTimer (OnTimeout url) st) gaps
  |> elapse wait.

(** No pending timeout carries a stall handler. *)
Definition disarmed (st : state) : Prop :=
  ∀ t, t ∈ timeouts st → fn t = WarnExpired.

(** The file that [skipUrl] writes for [url]. *)
Definition skip_artifact (url : jsstring) : jsstring * jsstring :=
  (getFilenameForUrl url,
   CSV.oneRowCSV url (lit "skipped") (lit "no post or error")).

(** The popup between [startHeartbeatTimer] and the answer of [scrapeTab] for
    [url], compared with the state [s0] in which the iteration began:
    [fired] tells whether the stall handler has run. *)
Record waiting_for (url : jsstring) (s0 : state) (fired : bool) (st : state)
  : Prop := WaitingFor {
  wf_table : (length (timeouts st) ≤ 1)%nat;
  wf_timer : ∀ t, t ∈ timeouts st →
      heartbeatTimer st = Some (tid t)
      ∧ (fn t = WarnExpired ∨ (fn t = OnTimeout url ∧ fired = false));
  wf_queue : loadChunkFromStorage st
      = if fired
        then filter (λ item, item ≠ url) (loadChunkFromStorage s0)
        else loadChunkFromStorage s0;
  wf_artifacts : artifacts st
      = artifacts s0 ++ (if fired then [skip_artifact url] else []);
  wf_stalled : stalled st = stalled s0 ++ (if fired then [url] else []);
}.

(** The browser lets the iteration run to its end: there is no tab (the
    iteration throws at once), or the navigation completes and the content
    script answers. *)
Definition responsive (a : attempt) : bool :=
  negb (active_tab a)
  || (navigation_completes a && bool_decide (is_Some (answer a))).

(** The reason with which [scrapeTab] rejects, when it does (lines 260-267). *)
Definition rejection (r : reply) : option failure :=
  match r with
  | LastError message => Some (Rejected message)
  | NoResponse => Some (Rejected (lit "No response from content script"))
  | Answered _ => None
  end.

(** The popup once the timer is started for [url] (lines 45-63). *)
Definition scraping (url : jsstring) (st : state) : state :=
  st |> emit (Status (NavigatingTo url))
     |> startHeartbeatTimer (OnTimeout url)
     |> emit (Status (Scraping url)).

(** An entry of chunk.txt on which the filter callback throws: it is truthy
    and no string, so it has no [trim] to call. *)
Definition breaks_filter (u : json) : bool :=
  match u with
  | JBool b => b
  | JNumber n => negb (bool_decide (n = 0%Z))
  | JArray _ | JObject _ => true
  | JNull | JString _ => false
  end.

(** The url in an entry of chunk.txt that names a page. *)
Definition page_of (u : json) : option jsstring :=
  match u with
  | JString s => if names_a_page u then Some s else None
  | _ => None
  end.

(** At most one heartbeat timeout is pending, and [heartbeatTimer] holds its
    id. *)
Definition single_deadline (st : state) : Prop :=
  (length (timeouts st) ≤ 1)%nat
  ∧ ∀ t, t ∈ timeouts st → heartbeatTimer st = Some (tid t).

(** What can happen to the heartbeat timer: it is started with a handler, a
    heartbeat message arrives after some time, it is cleared, time passes. *)
Inductive timer_op :=
| Arm (onTimeout : closure)
| Beat (gap : N)
| Cancel
| Wait (ms : N).

Definition timer_step (op : timer_op) (st : state) : state :=
  match op with
  | Arm onTimeout => startHeartbeatTimer onTimeout st
  | Beat gap => heartbeat gap st
  | Cancel => clearHeartbeatTimer st
  | Wait ms => elapse ms st
  end.

(** Heartbeats and the passing of time, but no new start. *)
Definition passive (op : timer_op) : bool :=
  match op with
  | Beat _ | Wait _ | Cancel => true
  | Arm _ => false
  end.

(** The queue that a successful read of chunk.txt yields; none otherwise. *)
Definition seed_of (chunk_txt : option response) : list jsstring :=
  match fetchChunkFile chunk_txt with
  | inr listFromFile => listFromFile
  | inl _ => []
  end.

(** The stored queue, and every queue snapshot written so far, is taken from
    [q0] by leaving entries out. *)
Definition within (q0 : list jsstring) (st : state) : Prop :=
  loadChunkFromStorage st `sublist_of` q0
  ∧ Forall (λ e, match e with
                 | ChunkUpdated remaining => remaining `sublist_of` q0
                 | _ => True
                 end) (log st).

(** The list in the chunk-updated.txt written last. *)
Definition last_snapshot (st : state) : option (list jsstring) :=
  last (omap (λ e, match e with
                   | ChunkUpdated remaining => Some remaining
                   | _ => None
                   end) (log st)).




(** A date as the browser's clock gives it today: a year of four digits and
    the other fields in their ranges. *)
Definition valid_date (d : ContentScript.date_fields) : Prop :=
  1000 ≤ ContentScript.fullYear d ≤ 9999
  ∧ ContentScript.month d ≤ 11
  ∧ ContentScript.day d ≤ 31
  ∧ ContentScript.hours d ≤ 23
  ∧ ContentScript.minutes d ≤ 59
  ∧ ContentScript.seconds d ≤ 59.

(** A decimal digit. *)
Definition is_digit (c : N) : Prop := 48 ≤ c ≤ 57.

(** The number that a string of decimal digits denotes. *)
Definition read_number (digits : jsstring) : N :=
  foldl (λ acc c, acc * 10 + (c - 48)) 0 digits.

(** Reading a text of the form YYYY-MM-DD HH:MM:SS back into the fields of a
    date, by position. *)
Definition parseDate (text : jsstring) : ContentScript.date_fields :=
  {| ContentScript.fullYear := read_number (take 4 text);
     ContentScript.month := read_number (take 2 (drop 5 text)) - 1;
     ContentScript.day := read_number (take 2 (drop 8 text));
     ContentScript.hours := read_number (take 2 (drop 11 text));
     ContentScript.minutes := read_number (take 2 (drop 14 text));
     ContentScript.seconds := read_number (take 2 (drop 17 text)) |}.

(** *** Reading a CSV file

    Not part of the extension: a reader of CSV text in the manner of RFC
    4180, against which the files that the popup writes are checked.  Cells
    are separated by commas and rows by line feeds; a double quote opens a
    quoted part, in which commas and line feeds are text and a doubled quote
    stands for one quote.  [read_csv quoted s] reads [s] to its end, inside
    a quoted part when [quoted] is set; the first cell of the first row of
    its result is the cell being read. *)
Definition push (c : N) (rows : list (list jsstring)) : list (list jsstring) :=
  match rows with
  | (cell :: cells) :: rest => ((c :: cell) :: cells) :: rest
  | [] :: rest => [[c]] :: rest
  | [] => [[[c]]]
  end.

Definition next_cell (rows : list (list jsstring)) : list (list jsstring) :=
  match rows with
  | row :: rest => ([] :: row) :: rest
  | [] => [[[]; []]]
  end.

Definition next_row (rows : list (list jsstring)) : list (list jsstring) :=
  [[]] :: rows.

Fixpoint read_csv (quoted : bool) (s : jsstring)
  : option (list (list jsstring)) :=
  match s with
  | [] => if quoted then None else Some [[[]]]
  | c :: t =>
      if quoted then
        if decide (c = dquote) then
          match t with
          | c' :: t' =>
              if decide (c' = dquote) then push dquote <$> read_csv true t'
              else read_csv false t
          | [] => Some [[[]]]
          end
        else push c <$> read_csv true t
      else if decide (c = dquote) then read_csv true t
      else if decide (c = comma) then next_cell <$> read_csv false t
      else if decide (c = newline) then next_row <$> read_csv false t
      else push c <$> read_csv false t
  end.

(** The written form [written] of a cell is read as [text], whatever
    follows it in the file (a comma, a line feed, or the end). *)
Definition renders (written text : jsstring) : Prop :=
  ∀ rest rows,
    head rest ≠ Some dquote → read_csv false rest = Some rows →
    read_csv false (written ++ rest) = Some (foldr push rows text).

(** The six values of a record as [quoteCSV] takes them: a missing value
    counts as the empty string. *)
Definition post_fields (item : CSV.post) : list jsstring :=
  [default [] (CSV.pageUrl item); default [] (CSV.pageName item);
   default [] (CSV.content item); default [] (CSV.postDate item);
   default [] (CSV.likes item); default [] (CSV.comments item)].

(** The text of the file that a page gets for the reply of its content
    script: the quoted rows of the records when there are any, the
    placeholder of a page without posts for an empty or missing list, the
    placeholder of a skipped page for a failed call. *)
Definition expected_text (url : jsstring) (r : reply) : jsstring :=
  match r with
  | Answered (Some (record :: records)) =>
      quoted_artifact (post_fields <$> record :: records)
  | Answered _ => placeholder_artifact url (lit "not found") (lit "no post")
  | LastError _ | NoResponse =>
      placeholder_artifact url (lit "skipped") (lit "no post or error")
  end.

(** The file of a page, by what the browser does while the page is
    processed; a page for which no tab is found is a skipped page. *)
Definition expected_artifact (url : jsstring) (a : attempt)
  : jsstring * jsstring :=
  (getFilenameForUrl url,
   match active_tab a, answer a with
   | true, Some (_, r) => expected_text url r
   | _, _ => placeholder_artifact url (lit "skipped") (lit "no post or error")
   end).

(** The first sign of life of the page comes before the timeout [T]: its
    first heartbeat or, when it sends none, its answer. A page for which no
    tab is found starts no timer. *)
Definition timely (T : N) (a : attempt) : bool :=
  negb (active_tab a)
  || match heartbeats a, answer a with
     | gap :: _, _ => bool_decide (gap < T)
     | [], Some (gap, _) => bool_decide (gap < T)
     | [], None => false
     end.

(** The lists written to chunk-updated.txt, in order. *)
Definition snapshots (st : state) : list (list jsstring) :=
  omap (λ e, match e with
             | ChunkUpdated remaining => Some remaining
             | _ => None
             end) (log st).

(** ** Sample pages and browsers *)

Definition page_a : jsstring := lit "https://x/a".
Definition page_b : jsstring := lit "https://x/b".

(** A chunk.txt that holds the given urls. *)
Definition chunk_of (urls : list jsstring) : option response :=
  Some {| ok := true; body := Some (JArray (JString <$> urls)) |}.

(** A post as the content script builds it. *)
Definition sample_post (url : jsstring) : CSV.post :=
  {| CSV.pageUrl := Some url; CSV.pageName := Some (lit "X Corp");
     CSV.content := Some (lit "hello, world");
     CSV.postDate := Some (lit "2024-01-01 10:00:00");
     CSV.likes := Some (lit "3"); CSV.comments := Some (lit "1") |}.

(** The record that the content script returns for a page without a posts
    link. *)
Definition no_post_record (url : jsstring) : CSV.post :=
  {| CSV.pageUrl := Some url; CSV.pageName := Some (lit "not found");
     CSV.content := Some (lit "no post"); CSV.postDate := Some [];
     CSV.likes := Some []; CSV.comments := Some [] |}.

(** No active tab. *)
Definition no_tab : attempt :=
  {| active_tab := false; navigation_completes := false; heartbeats := [];
     answer := None; download_polls := [] |}.

(** A heartbeat every three seconds, then the posts. *)
Definition prompt (data : list CSV.post) : attempt :=
  {| active_tab := true; navigation_completes := true;
     heartbeats := [3000; 3000];
     answer := Some (3000, Answered (Some data)); download_polls := [true] |}.

(** No heartbeat at all; the posts arrive after 45 seconds. *)
Definition late (data : list CSV.post) : attempt :=
  {| active_tab := true; navigation_completes := true; heartbeats := [];
     answer := Some (45000, Answered (Some data)); download_polls := [true] |}.

(** One heartbeat after ten seconds, then the posts a minute later. *)
Definition beat_then_late (data : list CSV.post) : attempt :=
  {| active_tab := true; navigation_completes := true; heartbeats := [10000];
     answer := Some (60000, Answered (Some data)); download_polls := [true] |}.

(** One heartbeat after ten seconds, then nothing, ever. *)
Definition beat_then_silence : attempt :=
  {| active_tab := true; navigation_completes := true; heartbeats := [10000];
     answer := None; download_polls := [] |}.

(** Nothing, ever. *)
Definition silence : attempt :=
  {| active_tab := true; navigation_completes := true; heartbeats := [];
     answer := None; download_polls := [] |}.


(** A page that names its company in the document title only. *)
Definition titled_page : ContentScript.document :=
  {| ContentScript.posts_link := true; ContentScript.on_posts_url := true;
     ContentScript.heights := []; ContentScript.title_el := None;
     ContentScript.doc_title := lit "Red Ventures" ++ lit " | LinkedIn";
     ContentScript.post_elements := [] |}.

(** The queue with which the sample runs start. *)
Definition two_pages : state := saveChunkToStorage [page_a; page_b] initial.

(** * Properties *)

(** Unfolds the state operations, and nothing of the texts they carry. *)
Ltac state_simpl :=
  cbn [log chunk_urls heartbeatTimer heartbeatTimeoutMs timeouts next_tid clock
       emit set_chunk_urls set_heartbeatTimer set_timeouts set_next_tid
       set_clock saveChunkToStorage removeUrlFromStorage loadChunkFromStorage
       downloadUpdatedChunkFile downloadCSV downloadOneRowCSV skipUrl
       setTimeout clearTimeout run_closure tid due fn fst snd].

(** ** CSV quoting *)

Section csv_facts.
Import CSV.

Lemma quoteCSV_Some (s : jsstring) :
  quoteCSV (Some s) = dquote :: escape_quotes s ++ [dquote].
Proof. by destruct s. Qed.

(** Reading the escaped text of [s] stops at the closing quote, whatever
    follows it, unless that is another quote. *)
Lemma read_quoted_escape (s rest : jsstring) :
  head rest ≠ Some dquote →
  read_quoted (escape_quotes s ++ dquote :: rest) = Some (s, rest).
Proof.
  intros Hrest. induction s as [|c s IH].
  - cbn [escape_quotes app read_quoted]. rewrite decide_True by done.
    destruct rest as [|c' rest']; [done|].
    rewrite decide_False; [done|]. intros ->. by apply Hrest.
  - cbn [escape_quotes]. destruct (decide (c = dquote)) as [->|Hc].
    + cbn [app read_quoted]. rewrite !decide_True by done.
      by rewrite IH.
    + cbn [app read_quoted]. rewrite decide_False by done.
      by rewrite IH.
Qed.

(** C8. Quoting any string with [quoteCSV] (also one with double quotes,
    commas or line feeds inside) and reading the cell back, with the outer
    quotes stripped and doubled quotes collapsed, gives the string again. *)
Theorem quoteCSV_round_trip (s : jsstring) :
  parse_cell (quoteCSV (Some s)) = Some s.
Proof.
  rewrite quoteCSV_Some. unfold parse_cell.
  rewrite decide_True by done.
  by rewrite (read_quoted_escape s []).
Qed.

(** The same inside a row: a quoted field is read back whole, and reading
    stops in front of the comma or line feed that follows it. *)
Lemma quoted_field_read_in_row (s rest : jsstring) (sep : N) :
  sep ≠ dquote →
  ∃ inside, quoteCSV (Some s) ++ sep :: rest = dquote :: inside
            ∧ read_quoted inside = Some (s, sep :: rest).
Proof.
  intros Hsep. rewrite quoteCSV_Some. eexists. split.
  - cbn [app]. rewrite <- app_assoc. reflexivity.
  - apply read_quoted_escape. cbn. congruence.
Qed.

End csv_facts.

(** ** The stored queue *)

Section storage_facts.
Implicit Types (url u v : jsstring) (st : state) (q : list jsstring).

Lemma loadChunk_save q st : loadChunkFromStorage (saveChunkToStorage q st) = q.
Proof. done. Qed.

Lemma loadChunk_remove url st :
  loadChunkFromStorage (removeUrlFromStorage url st)
  = filter (λ item, item ≠ url) (loadChunkFromStorage st).
Proof. done. Qed.

Lemma filter_ne_idemp url q :
  filter (λ item, item ≠ url) (filter (λ item, item ≠ url) q)
  = filter (λ item, item ≠ url) q.
Proof. by apply list_filter_filter_l. Qed.

Lemma filter_ne_absent url q :
  url ∉ q → filter (λ item, item ≠ url) q = q.
Proof.
  induction q as [|x q IH]; [done|].
  rewrite not_elem_of_cons. intros [Hx Hq].
  rewrite filter_cons_True by done. by rewrite IH.
Qed.

Lemma filter_ne_comm u v q :
  filter (λ item, item ≠ u) (filter (λ item, item ≠ v) q)
  = filter (λ item, item ≠ v) (filter (λ item, item ≠ u) q).
Proof. rewrite !list_filter_filter. apply list_filter_iff. tauto. Qed.


(** Removing a url that is not stored changes nothing in the queue. *)
Lemma removeUrlFromStorage_absent url st :
  url ∉ loadChunkFromStorage st →
  loadChunkFromStorage (removeUrlFromStorage url st) = loadChunkFromStorage st.
Proof. intros. rewrite loadChunk_remove. by apply filter_ne_absent. Qed.

Lemma occurrences_filter_ne u v q :
  v ≠ u → occurrences v (filter (λ item, item ≠ u) q) = occurrences v q.
Proof.
  intros Hvu. unfold occurrences. rewrite list_filter_filter.
  f_equal. apply list_filter_iff. intros x. split; [tauto|]. intros ->. done.
Qed.

(** C7. [removeUrlFromStorage url] removes every entry equal to [url] and
    nothing else: what is left is a subsequence of the old queue (so the
    entries keep their order), every other entry occurs as often as
    before, and no other part of the state changes. *)
Theorem removeUrlFromStorage_frame url st :
  let q := loadChunkFromStorage st in
  let st' := removeUrlFromStorage url st in
  let q' := loadChunkFromStorage st' in
  (url ∉ q')
  ∧ q' `sublist_of` q
  ∧ (∀ v, v ≠ url → occurrences v q' = occurrences v q)
  ∧ log st' = log st ∧ timeouts st' = timeouts st
  ∧ heartbeatTimer st' = heartbeatTimer st.
Proof.
  cbn zeta. rewrite loadChunk_remove. repeat split.
  - rewrite list_elem_of_filter. by intros [Hne _].
  - apply sublist_filter.
  - intros v Hv. by apply occurrences_filter_ne.
Qed.

End storage_facts.

(** ** Seeding the queue from chunk.txt *)

Section seed_facts.

Lemma trim_start_nil_iff (s : jsstring) :
  trim_start s = [] ↔ forallb whitespace s = true.
Proof.
  induction s as [|c s IH]; [done|]. cbn.
  destruct (whitespace c); [done|]. cbn. split; discriminate.
Qed.

Lemma forallb_whitespace_trim_start (s : jsstring) :
  forallb whitespace (trim_start s) = forallb whitespace s.
Proof.
  induction s as [|c s IH]; [done|]. cbn [trim_start].
  destruct (whitespace c) eqn:Hc; [by cbn; rewrite Hc|done].
Qed.

Lemma forallb_reverse {A} (f : A → bool) (l : list A) :
  forallb f (reverse l) = forallb f l.
Proof.
  induction l as [|x l IH]; [done|].
  rewrite reverse_cons, forallb_app, IH. cbn. by rewrite andb_true_r, andb_comm.
Qed.

(** The trimmed text is empty exactly for strings made of white space. *)
Lemma trim_nil_iff (s : jsstring) :
  trim s = [] ↔ forallb whitespace s = true.
Proof.
  unfold trim. split.
  - intros H. apply (f_equal reverse) in H.
    rewrite reverse_involutive in H. cbn in H.
    apply trim_start_nil_iff in H.
    by rewrite forallb_reverse, forallb_whitespace_trim_start in H.
  - intros H.
    assert (trim_start (reverse (trim_start s)) = []) as ->; [|done].
    apply trim_start_nil_iff.
    by rewrite forallb_reverse, forallb_whitespace_trim_start.
Qed.

Lemma existsb_negb_forallb {A} (f : A → bool) (l : list A) :
  existsb (λ x, negb (f x)) l = negb (forallb f l).
Proof.
  induction l as [|x l IH]; [done|]. cbn. rewrite IH.
  by destruct (f x).
Qed.

Lemma keep_entry_string_or_null (u : json) :
  string_or_null u = true → keep_entry u = inr (names_a_page u).
Proof.
  destruct u as [| | |s| |]; try done. intros _. cbn [names_a_page].
  rewrite existsb_negb_forallb. destruct s as [|c s]; [done|].
  cbn [keep_entry]. f_equal.
  destruct (forallb whitespace (c :: s)) eqn:Hws.
  - apply trim_nil_iff in Hws. rewrite Hws. by rewrite bool_decide_false by auto.
  - rewrite bool_decide_true; [done|]. intros Ht%trim_nil_iff. congruence.
Qed.

Lemma filter_entries_strings (arr : list json) :
  Forall (λ u, string_or_null u = true) arr →
  ∃ q, filter_entries arr = inr q
       ∧ JString <$> q = filter (λ u, names_a_page u = true) arr.
Proof.
  induction 1 as [|u arr Hu _ (q & Hq & IH)]; [by exists []|].
  cbn [filter_entries]. rewrite (keep_entry_string_or_null u Hu), Hq.
  rewrite filter_cons.
  destruct u as [| | |s| |]; try done.
  - exists q. split; [done|]. by rewrite decide_False.
  - destruct (names_a_page (JString s)) eqn:Hs.
    + exists (s :: q). split; [done|]. rewrite decide_True by done.
      cbn. by rewrite IH.
    + exists q. split; [done|]. by rewrite decide_False by done.
Qed.

(** C10. When chunk.txt is an array of strings and nulls, [fetchChunkFile]
    returns the strings that have a character other than white space,
    unchanged and in their order; null, empty and all-blank entries are
    dropped. *)
Theorem fetchChunkFile_keeps_non_blank (arr : list json) :
  Forall (λ u, string_or_null u = true) arr →
  ∃ q, fetchChunkFile (Some {| ok := true; body := Some (JArray arr) |}) = inr q
       ∧ JString <$> q = filter (λ u, names_a_page u = true) arr.
Proof.
  intros Harr. unfold fetchChunkFile. cbn [ok body negb].
  by apply filter_entries_strings.
Qed.

Lemma fetchChunkFile_keeps_non_blank_witness :
  Forall (λ u, string_or_null u = true)
    [JString (lit "https://x/a"); JNull; JString (lit "  "); JString (lit " b ")]
  ∧ ∃ q, fetchChunkFile
           (Some {| ok := true;
                    body := Some (JArray [JString (lit "https://x/a"); JNull;
                                          JString (lit "  ");
                                          JString (lit " b ")]) |}) = inr q
         ∧ JString <$> q
           = filter (λ u, names_a_page u = true)
               [JString (lit "https://x/a"); JNull; JString (lit "  ");
                JString (lit " b ")].
Proof.
  assert (Forall (λ u, string_or_null u = true)
    [JString (lit "https://x/a"); JNull; JString (lit "  "); JString (lit " b ")])
    as H by (repeat constructor).
  split; [exact H|]. exact (fetchChunkFile_keeps_non_blank _ H).
Defined.

End seed_facts.

(** ** Shape of the artifacts *)

Section artifact_facts.
Import CSV.
Implicit Types (url : jsstring) (st : state) (P : event → Prop).

Lemma last_join (sep : jsstring) (c : N) (parts : list jsstring) :
  parts ≠ [] → Forall (λ p, last p = Some c) parts →
  last (join sep parts) = Some c.
Proof.
  induction parts as [|p parts IH]; [done|]. intros _ Hall.
  apply Forall_cons in Hall as [Hp Hall].
  destruct parts as [|p' parts]; [done|].
  change (join sep (p :: p' :: parts))
    with (p ++ sep ++ join sep (p' :: parts)).
  rewrite !last_app, IH; done.
Qed.

Lemma last_quoteCSV (f : option jsstring) : last (quoteCSV f) = Some dquote.
Proof. unfold quoteCSV. rewrite last_cons, last_snoc. done. Qed.

Lemma quoted_row_last (row : jsstring) : quoted_row row → last row = Some dquote.
Proof.
  intros (fields & Hlen & ->). apply last_join.
  - by destruct fields.
  - apply Forall_fmap, Forall_forall. intros f _. apply last_quoteCSV.
Qed.

(** A fully quoted artifact is the bare header line or ends with a quote. *)
Lemma fully_quoted_last (text : jsstring) :
  fully_quoted text →
  text = join [comma] headers ∨ last text = Some dquote.
Proof.
  intros (rows & Hrows & ->). destruct rows as [|row rows]; [by left|]. right.
  change (join [newline] (join [comma] headers :: row :: rows))
    with (join [comma] headers ++ [newline] ++ join [newline] (row :: rows)).
  assert (last (join [newline] (row :: rows)) = Some dquote) as Hlast.
  { apply last_join; [done|].
    eapply Forall_impl; [exact Hrows|]. apply quoted_row_last. }
  by rewrite !last_app, Hlast.
Qed.

Lemma join_separated (sep : N) (parts : list jsstring) :
  join [sep] parts = separated sep parts.
Proof.
  induction parts as [|part rest IH]; [done|].
  destruct rest as [|next rest]; [done|].
  change (join [sep] (part :: next :: rest))
    with (part ++ [sep] ++ join [sep] (next :: rest)).
  by rewrite IH.
Qed.

Lemma escape_quotes_bind (s : jsstring) :
  escape_quotes s
  = s ≫= λ c, if decide (c = dquote) then [dquote; dquote] else [c].
Proof.
  induction s as [|c s IH]; [done|]. cbn [escape_quotes].
  rewrite bind_cons, <- IH. by destruct (decide (c = dquote)).
Qed.

(** [quoteCSV] quotes as the specification says; a missing value is quoted
    as the empty string. *)
Lemma quoteCSV_quoted (str : option jsstring) :
  quoteCSV str = quoted (default [] str).
Proof.
  unfold quoteCSV, quoted. cbn zeta. rewrite escape_quotes_bind.
  by destruct str as [[|c t]|].
Qed.

Lemma post_row_quoted (item : post) :
  join [comma] (post_row item) = separated comma (quoted <$> post_fields item).
Proof.
  rewrite join_separated. unfold post_row, post_fields.
  by rewrite !quoteCSV_quoted.
Qed.

Lemma headers_line : join [comma] headers = header_line.
Proof. reflexivity. Qed.

(** The text of [generateCSV]: the header line, then one row of six quoted
    fields for each record. *)
Lemma generateCSV_text (dataArray : list post) :
  generateCSV dataArray = quoted_artifact (post_fields <$> dataArray).
Proof.
  unfold generateCSV, quoted_artifact. cbn zeta.
  rewrite join_separated, headers_line. cbn [app]. f_equal. f_equal.
  rewrite <- list_fmap_compose. apply list_fmap_ext.
  intros i item _. apply post_row_quoted.
Qed.

(** The text of [downloadOneRowCSV]: the header line, then three quoted
    fields and three bare empty ones. *)
Lemma oneRowCSV_text (url pageName content : jsstring) :
  oneRowCSV url pageName content = placeholder_artifact url pageName content.
Proof.
  unfold oneRowCSV, placeholder_artifact. cbn zeta.
  rewrite join_separated, headers_line. do 3 f_equal.
  rewrite join_separated. unfold one_row. by rewrite !quoteCSV_quoted.
Qed.

Lemma generateCSV_shape (dataArray : list post) :
  dataArray ≠ [] → artifact_shape (generateCSV dataArray).
Proof.
  intros Hne. left. exists (post_fields <$> dataArray).
  split; [by destruct dataArray|]. split; [|apply generateCSV_text].
  apply Forall_fmap, Forall_forall. by intros item _.
Qed.

Lemma oneRowCSV_shape (url pageName content : jsstring) :
  (pageName, content) ∈ placeholder_labels →
  artifact_shape (oneRowCSV url pageName content).
Proof.
  intros Hlabel. right. exists url, pageName, content.
  split; [done|apply oneRowCSV_text].
Qed.

Lemma not_found_label : (lit "not found", lit "no post") ∈ placeholder_labels.
Proof. by left. Qed.

Lemma skipped_label :
  (lit "skipped", lit "no post or error") ∈ placeholder_labels.
Proof. right. by left. Qed.

Lemma grows_refl P st : grows P st st.
Proof. exists []. by rewrite app_nil_r. Qed.

Lemma grows_trans P st1 st2 st3 :
  grows P st1 st2 → grows P st2 st3 → grows P st1 st3.
Proof.
  intros (evs1 & H1 & Hall1) (evs2 & H2 & Hall2). exists (evs1 ++ evs2).
  split; [by rewrite H2, H1, app_assoc|]. by apply Forall_app.
Qed.

Lemma grows_emit P e st : P e → grows P st (emit e st).
Proof. intros He. exists [e]. split; [done|]. by constructor. Qed.

Lemma grows_same_log P st st' : log st' = log st → grows P st st'.
Proof. intros Hlog. exists []. by rewrite app_nil_r. Qed.

Lemma clearHeartbeatTimer_log st : log (clearHeartbeatTimer st) = log st.
Proof. unfold clearHeartbeatTimer. by destruct (heartbeatTimer st). Qed.

Lemma resetHeartbeatTimer_log st : log (resetHeartbeatTimer st) = log st.
Proof. unfold resetHeartbeatTimer. by destruct (heartbeatTimer st). Qed.

Lemma startHeartbeatTimer_log f st : log (startHeartbeatTimer f st) = log st.
Proof. unfold startHeartbeatTimer. apply clearHeartbeatTimer_log. Qed.

Lemma skipUrl_log url st :
  log (skipUrl url st)
  = log st ++ [Console (SkippingUrl url);
               Download (getFilenameForUrl url)
                        (oneRowCSV url (lit "skipped") (lit "no post or error"));
               ChunkUpdated (filter (λ item, item ≠ url)
                                    (loadChunkFromStorage st))].
Proof. state_simpl. by rewrite <- !app_assoc. Qed.

(** Splits a list of events into the files among them. *)
Ltac sound_events :=
  repeat (apply Forall_cons; split; [try exact I|]);
  try (apply Forall_nil; exact I).

Lemma skipUrl_sound url st : grows sound_event st (skipUrl url st).
Proof.
  eexists. split; [apply skipUrl_log|].
  sound_events. apply oneRowCSV_shape, skipped_label.
Qed.

Lemma run_closure_sound f st : grows sound_event st (run_closure f st).
Proof.
  destruct f as [url|]; cbn [run_closure].
  - eapply grows_trans; [|apply skipUrl_sound]. by apply grows_emit.
  - by apply grows_emit.
Qed.

Lemma fire_sound (ts : list timeout) st :
  grows sound_event st (foldl (λ s t, run_closure (fn t) s) st ts).
Proof.
  revert st. induction ts as [|t ts IH]; intros st; [apply grows_refl|].
  cbn [foldl]. eapply grows_trans; [apply run_closure_sound|apply IH].
Qed.

Lemma elapse_sound ms st : grows sound_event st (elapse ms st).
Proof.
  unfold elapse. eapply grows_trans; [|apply fire_sound].
  by apply grows_same_log.
Qed.

Lemma elapse_forever_sound st : grows sound_event st (elapse_forever st).
Proof.
  unfold elapse_forever. eapply grows_trans; [|apply fire_sound].
  by apply grows_same_log.
Qed.

Lemma heartbeat_sound gap st : grows sound_event st (heartbeat gap st).
Proof.
  unfold heartbeat. eapply grows_trans; [apply elapse_sound|].
  apply grows_same_log, resetHeartbeatTimer_log.
Qed.

Lemma heartbeats_sound (gaps : list N) st :
  grows sound_event st (foldl (λ s g, heartbeat g s) st gaps).
Proof.
  revert st. induction gaps as [|g gaps IH]; intros st; [apply grows_refl|].
  cbn [foldl]. eapply grows_trans; [apply heartbeat_sound|apply IH].
Qed.

Lemma on_error_sound url err st : grows sound_event st (on_error url err st).
Proof.
  unfold on_error.
  eapply grows_trans; [|apply skipUrl_sound].
  eapply grows_trans; [|apply grows_same_log, clearHeartbeatTimer_log].
  eapply grows_trans; by apply grows_emit.
Qed.

Lemma clearHeartbeatTimer_emit e st :
  clearHeartbeatTimer (emit e st) = emit e (clearHeartbeatTimer st).
Proof.
  unfold clearHeartbeatTimer. state_simpl. by destruct (heartbeatTimer st).
Qed.

Lemma clearHeartbeatTimer_chunk_urls st :
  chunk_urls (clearHeartbeatTimer st) = chunk_urls st.
Proof. unfold clearHeartbeatTimer. by destruct (heartbeatTimer st). Qed.

Lemma clearHeartbeatTimer_chunk st :
  loadChunkFromStorage (clearHeartbeatTimer st) = loadChunkFromStorage st.
Proof.
  unfold loadChunkFromStorage. by rewrite clearHeartbeatTimer_chunk_urls.
Qed.

(** What [on_scraped] adds to the log, branch by branch. *)
Lemma on_scraped_log url polls scrapedData st :
  let f := getFilenameForUrl url in
  let left := filter (λ item, item ≠ url) (loadChunkFromStorage st) in
  log (on_scraped url polls scrapedData st)
  = log st ++
    match scrapedData with
    | [] => [Status (NoPostsFound url);
             Download f (oneRowCSV url (lit "not found") (lit "no post"));
             ChunkUpdated left]
    | _ =>
        if is_no_post_record scrapedData then
          [Status (UnclaimedPage url);
           Download f (generateCSV scrapedData);
           ChunkUpdated left]
        else
          [Download f (generateCSV scrapedData);
           Status (CheckingDownload url)]
          ++ (if waitForFileDownload 10 polls then []
              else [Console (DownloadTimeout url)])
          ++ [ChunkUpdated left; Status (DoneScraping url)]
    end.
Proof.
  cbn zeta. unfold on_scraped.
  rewrite <- (clearHeartbeatTimer_log st), <- (clearHeartbeatTimer_chunk st).
  generalize (clearHeartbeatTimer st) as st1. intros st1.
  destruct scrapedData as [|item rest].
  - state_simpl. by rewrite <- !app_assoc.
  - destruct (is_no_post_record (item :: rest)).
    + state_simpl. by rewrite <- !app_assoc.
    + destruct (waitForFileDownload 10 polls);
        state_simpl; by rewrite <- !app_assoc.
Qed.

Lemma on_scraped_state url polls scrapedData st :
  loadChunkFromStorage (on_scraped url polls scrapedData st)
  = filter (λ item, item ≠ url) (loadChunkFromStorage st)
  ∧ timeouts (on_scraped url polls scrapedData st)
    = timeouts (clearHeartbeatTimer st).
Proof.
  unfold on_scraped. rewrite <- (clearHeartbeatTimer_chunk st).
  generalize (clearHeartbeatTimer st) as st1. intros st1.
  destruct scrapedData as [|item rest]; [done|].
  destruct (is_no_post_record (item :: rest)); [done|].
  by destruct (waitForFileDownload 10 polls).
Qed.

Lemma on_error_log url err st :
  log (on_error url err st)
  = log st ++ [Console (ErrorScraping url err); Status (ErrorSkipping url);
               Console (SkippingUrl url);
               Download (getFilenameForUrl url) (skip_artifact url).2;
               ChunkUpdated (filter (λ item, item ≠ url)
                                    (loadChunkFromStorage st))].
Proof.
  unfold on_error. rewrite skipUrl_log, clearHeartbeatTimer_chunk.
  rewrite clearHeartbeatTimer_log. state_simpl. by rewrite <- !app_assoc.
Qed.

Lemma on_error_state url err st :
  loadChunkFromStorage (on_error url err st)
  = filter (λ item, item ≠ url) (loadChunkFromStorage st)
  ∧ timeouts (on_error url err st) = timeouts (clearHeartbeatTimer st).
Proof.
  unfold on_error. rewrite !clearHeartbeatTimer_emit.
  rewrite <- (clearHeartbeatTimer_chunk st).
  by generalize (clearHeartbeatTimer st).
Qed.

Lemma on_scraped_sound url polls scrapedData st :
  grows sound_event st (on_scraped url polls scrapedData st).
Proof.
  eexists. split; [apply on_scraped_log|].
  destruct scrapedData as [|item rest].
  - sound_events. apply oneRowCSV_shape, not_found_label.
  - destruct (is_no_post_record (item :: rest)).
    + sound_events. by apply generateCSV_shape.
    + destruct (waitForFileDownload 10 polls);
        sound_events; by apply generateCSV_shape.
Qed.

Lemma on_answer_sound url polls r st :
  grows sound_event st (on_answer url polls r st).
Proof.
  destruct r; cbn [on_answer];
    auto using on_error_sound, on_scraped_sound.
Qed.

Lemma pending_sound a gap st : grows sound_event st (pending a gap st).
Proof.
  unfold pending. eapply grows_trans; [apply heartbeats_sound|].
  apply elapse_sound.
Qed.

(** The state that a step or a run ends in. *)
Lemma iteration_sound url a st :
  ∀ st', (iteration url a st = Continue st' ∨ iteration url a st = Waiting st') →
         grows sound_event st st'.
Proof.
  intros st' Hstep.
  assert (grows sound_event st (emit (Status (NavigatingTo url)) st)) as H0
    by by apply grows_emit.
  unfold iteration in Hstep. destruct (active_tab a); cbn [negb] in Hstep.
  2:{ destruct Hstep as [[= <-]|?]; [|done].
      eapply grows_trans; [exact H0|apply on_error_sound]. }
  destruct (navigation_completes a); cbn [negb] in Hstep.
  2:{ by destruct Hstep as [?|[= <-]]. }
  eapply grows_trans; [exact H0|].
  eapply grows_trans; [apply grows_same_log, startHeartbeatTimer_log|].
  eapply grows_trans; [by apply (grows_emit _ (Status (Scraping url)))|].
  unfold await_scrapeTab in Hstep. destruct (answer a) as [[gap r]|].
  - destruct Hstep as [[= <-]|?]; [|done].
    eapply grows_trans; [apply pending_sound|apply on_answer_sound].
  - destruct Hstep as [?|[= <-]]; [done|].
    eapply grows_trans; [apply heartbeats_sound|apply elapse_forever_sound].
Qed.

Lemma processUrls_sound fuel b i st :
  match processUrls fuel b i st with
  | Finished st' | Fatal st' | Blocked st' => grows sound_event st st'
  | OutOfFuel => True
  end.
Proof.
  revert i st. induction fuel as [|fuel IH]; intros i st; [done|].
  cbn [processUrls]. destruct (loadChunkFromStorage st) as [|url rest].
  - by apply grows_emit.
  - destruct (iteration url (b i) st) as [st1|st1] eqn:Hit.
    + specialize (IH (S i) st1).
      destruct (processUrls fuel b (S i) st1); try done;
        (eapply grows_trans; [eapply iteration_sound; eauto|done]).
    + eapply iteration_sound; eauto.
Qed.

Lemma handleScrapeClick_sound fuel chunk_txt b st :
  match handleScrapeClick fuel chunk_txt b st with
  | Finished st' | Fatal st' | Blocked st' => grows sound_event st st'
  | OutOfFuel => True
  end.
Proof.
  unfold handleScrapeClick.
  destruct (loadChunkFromStorage st) as [|url rest] eqn:Hq.
  - destruct (fetchChunkFile chunk_txt) as [e|listFromFile].
    + eapply grows_trans; [|by apply grows_emit].
      eapply grows_trans; by apply grows_emit.
    + match goal with
      | |- context [processUrls fuel b 0 ?s] =>
          pose proof (processUrls_sound fuel b 0 s) as Hrun;
          assert (grows sound_event st s) as Hs
      end.
      { eapply grows_trans; [|by apply grows_emit].
        eapply grows_trans; [by apply (grows_emit _ (Status FetchingChunk))|].
        by apply grows_same_log. }
      destruct (processUrls fuel b 0 _); try done;
        (eapply grows_trans; [exact Hs|done]).
  - match goal with
    | |- context [processUrls fuel b 0 ?s] =>
        pose proof (processUrls_sound fuel b 0 s) as Hrun;
        assert (grows sound_event st s) as Hs by by apply grows_emit
    end.
    destruct (processUrls fuel b 0 _); try done;
      (eapply grows_trans; [exact Hs|done]).
Qed.

Lemma artifacts_app st st' evs :
  log st' = log st ++ evs →
  artifacts st' = artifacts st
                  ++ omap (λ e, match e with
                                | Download filename text => Some (filename, text)
                                | _ => None
                                end) evs.
Proof. unfold artifacts. intros ->. apply omap_app. Qed.

Lemma grows_artifacts st st' :
  grows sound_event st st' →
  Forall (λ a, artifact_shape a.2) (artifacts st) →
  Forall (λ a, artifact_shape a.2) (artifacts st').
Proof.
  intros (evs & Hlog & Hevs) Hst.
  rewrite (artifacts_app _ _ _ Hlog). apply Forall_app. split; [done|].
  clear Hlog. induction Hevs as [|e evs He _ IH]; [constructor|].
  destruct e; cbn; try done. by constructor.
Qed.

Lemma snapshots_app st st' evs :
  log st' = log st ++ evs →
  snapshots st' = snapshots st
                  ++ omap (λ e, match e with
                                | ChunkUpdated remaining => Some remaining
                                | _ => None
                                end) evs.
Proof. unfold snapshots. intros ->. apply omap_app. Qed.

(** The file and the queue snapshot that handling the reply adds: the file
    is the one that the specification expects for the reply, and the
    snapshot is the stored queue without the page. *)
Lemma on_answer_writes url (polls : list bool) (r : reply) st :
  let st' := on_answer url polls r st in
  artifacts st'
  = artifacts st ++ [(getFilenameForUrl url, expected_text url r)]
  ∧ snapshots st'
    = snapshots st
      ++ [filter (λ item, item ≠ url) (loadChunkFromStorage st)].
Proof.
  cbn zeta.
  assert (∀ err,
    artifacts (on_error url err st)
    = artifacts st
      ++ [(getFilenameForUrl url,
           placeholder_artifact url (lit "skipped") (lit "no post or error"))]
    ∧ snapshots (on_error url err st)
      = snapshots st
        ++ [filter (λ item, item ≠ url) (loadChunkFromStorage st)]) as Herr.
  { intros err. rewrite <- oneRowCSV_text. split.
    - erewrite artifacts_app by apply on_error_log. done.
    - erewrite snapshots_app by apply on_error_log. done. }
  destruct r as [message| |data]; cbn [on_answer expected_text];
    [apply Herr..|].
  pose proof (on_scraped_log url polls (default [] data) st) as Hlog.
  cbn zeta in Hlog.
  destruct data as [[|item rest]|]; cbn [default from_option id] in *.
  - rewrite <- oneRowCSV_text. split.
    + erewrite artifacts_app by exact Hlog. done.
    + erewrite snapshots_app by exact Hlog. done.
  - rewrite <- generateCSV_text.
    destruct (is_no_post_record (item :: rest)).
    + split.
      * erewrite artifacts_app by exact Hlog. done.
      * erewrite snapshots_app by exact Hlog. done.
    + destruct (waitForFileDownload 10 polls); split;
        first [erewrite artifacts_app by exact Hlog
              |erewrite snapshots_app by exact Hlog]; done.
  - rewrite <- oneRowCSV_text. split.
    + erewrite artifacts_app by exact Hlog. done.
    + erewrite snapshots_app by exact Hlog. done.
Qed.

Lemma skipUrl_writes url st :
  artifacts (skipUrl url st)
  = artifacts st
    ++ [(getFilenameForUrl url,
         placeholder_artifact url (lit "skipped") (lit "no post or error"))].
Proof.
  rewrite <- oneRowCSV_text. erewrite artifacts_app by apply skipUrl_log.
  done.
Qed.

(** Every artifact starts with the header line, and a data row follows. *)
Lemma artifact_shape_header (text : jsstring) :
  artifact_shape text → ∃ rows, text = header_line ++ newline :: rows.
Proof.
  intros [(records & Hne & _ & ->)|(url & pageName & content & _ & ->)].
  - destruct records as [|fields records]; [done|]. by eexists.
  - by eexists.
Qed.

(** C9, as the popup does it. [generateCSV] writes the header line
    PageURL,PageName,Content,PostDate,Likes,Comments and one row for each
    record, every one of its six fields quoted with the quotes inside it
    doubled; [downloadOneRowCSV] writes the header line and one row whose
    first three fields are quoted that way and whose last three are bare and
    empty. The file written when [scrapeTab] has settled is of the first
    kind for a result with records (the posts of the page, or the one
    record of an unclaimed page), and of the second kind for an empty
    result (labelled not found, no post) and for a failure (labelled
    skipped, no post or error), as is the file that [skipUrl] writes. Every
    file that a run of [handleScrapeClick] adds is of one of the two kinds,
    with at least one record in the first and one of these labels in the
    second; it begins with the header line, and at least one data row
    follows. *)
Theorem artifacts_have_header_and_rows :
  (∀ dataArray : list post,
      generateCSV dataArray = quoted_artifact (post_fields <$> dataArray))
  ∧ (∀ url pageName content : jsstring,
        oneRowCSV url pageName content
        = placeholder_artifact url pageName content)
  ∧ (∀ url (polls : list bool) (r : reply) st,
        artifacts (on_answer url polls r st)
        = artifacts st ++ [(getFilenameForUrl url, expected_text url r)])
  ∧ (∀ url st,
        artifacts (skipUrl url st)
        = artifacts st
          ++ [(getFilenameForUrl url,
               placeholder_artifact url (lit "skipped")
                                    (lit "no post or error"))])
  ∧ ∀ fuel chunk_txt b st,
      match handleScrapeClick fuel chunk_txt b st with
      | Finished st' | Fatal st' | Blocked st' =>
          ∃ new, artifacts st' = artifacts st ++ new
                 ∧ Forall (λ a, artifact_shape a.2
                                ∧ ∃ rows, a.2 = header_line ++ newline :: rows)
                          new
      | OutOfFuel => True
      end.
Proof.
  split; [apply generateCSV_text|]. split; [apply oneRowCSV_text|].
  split; [intros url polls r st; apply on_answer_writes|].
  split; [apply skipUrl_writes|].
  intros fuel chunk_txt b st.
  pose proof (handleScrapeClick_sound fuel chunk_txt b st) as Hrun.
  assert (∀ st', grows sound_event st st' →
            ∃ new, artifacts st' = artifacts st ++ new
                   ∧ Forall (λ a, artifact_shape a.2
                                  ∧ ∃ rows, a.2 = header_line ++ newline :: rows)
                            new) as Hnew.
  { intros st' (evs & Hlog & Hevs). eexists.
    split; [by apply artifacts_app|]. clear Hlog.
    induction Hevs as [|e evs He _ IH]; [constructor|].
    destruct e; cbn; try done. constructor; [|done].
    split; [done|]. by apply artifact_shape_header. }
  destruct (handleScrapeClick fuel chunk_txt b st); auto.
Qed.

(** C9, as stated, fails: the file written for a skipped page is not fully
    quoted, its row ends in three bare empty fields. *)
Lemma skipped_artifact_not_fully_quoted :
  ∃ st, handleScrapeClick 2 (chunk_of [page_a]) (λ _, no_tab) initial
        = Finished st
        ∧ ¬ Forall (λ a, fully_quoted a.2) (artifacts st).
Proof.
  eexists. split; [vm_compute; reflexivity|]. intros Hall.
  match type of Hall with
  | Forall _ ?arts =>
      assert (arts = [(getFilenameForUrl page_a,
                       oneRowCSV page_a (lit "skipped")
                                 (lit "no post or error"))]) as Harts
        by (vm_compute; reflexivity)
  end.
  rewrite Harts in Hall. apply Forall_cons in Hall as [Hq _]. cbn [snd] in Hq.
  apply fully_quoted_last in Hq as [Hq|Hq]; vm_compute in Hq; discriminate.
Qed.

Lemma last_oneRowCSV (url pageName content : jsstring) :
  last (oneRowCSV url pageName content) = Some comma.
Proof.
  unfold oneRowCSV, one_row. cbn [join].
  rewrite !app_assoc. rewrite app_nil_r. apply last_snoc.
Qed.

Lemma last_quoted (field : jsstring) : last (quoted field) = Some dquote.
Proof. unfold quoted. by rewrite last_cons, last_snoc. Qed.

Lemma last_placeholder_artifact (url pageName content : jsstring) :
  last (placeholder_artifact url pageName content) = Some comma.
Proof. rewrite <- oneRowCSV_text. apply last_oneRowCSV. Qed.

(** A file with one row of six quoted fields ends in a quote. *)
Lemma last_quoted_artifact (f1 f2 f3 f4 f5 f6 : jsstring) :
  last (quoted_artifact [[f1; f2; f3; f4; f5; f6]]) = Some dquote.
Proof.
  assert (last (separated comma [quoted f1; quoted f2; quoted f3; quoted f4;
                                  quoted f5; quoted f6]) = Some dquote)
    as Hrow.
  { rewrite <- join_separated. apply last_join; [done|].
    repeat (constructor; [apply last_quoted|]). constructor. }
  unfold quoted_artifact. cbn [fmap list_fmap].
  generalize dependent (separated comma [quoted f1; quoted f2; quoted f3;
                                         quoted f4; quoted f5; quoted f6]).
  intros row Hrow. cbn [separated]. by rewrite last_app, last_cons, Hrow.
Qed.

(** C4. A result that is exactly one record with page name not found and
    content no post is handled by the branch of lines 80-93: the status line
    reports an unclaimed page (not a scraped one), and the file written is
    the header line and one row that carries the six values of that record,
    each of them quoted: its url, not found, no post, and its date, likes
    and comments. That file is not the placeholder of a page without posts,
    whose last three fields are bare. The page leaves the queue and the
    queue snapshot follows. *)
Theorem no_post_record_is_logged url polls item st :
  pageName item = Some (lit "not found") →
  content item = Some (lit "no post") →
  let text :=
    quoted_artifact
      [[default [] (pageUrl item); lit "not found"; lit "no post";
        default [] (postDate item); default [] (likes item);
        default [] (comments item)]] in
  log (on_answer url polls (Answered (Some [item])) st)
  = log st ++ [Status (UnclaimedPage url);
               Download (getFilenameForUrl url) text;
               ChunkUpdated (filter (λ x, x ≠ url) (loadChunkFromStorage st))]
  ∧ text ≠ placeholder_artifact url (lit "not found") (lit "no post")
  ∧ loadChunkFromStorage (on_answer url polls (Answered (Some [item])) st)
    = filter (λ x, x ≠ url) (loadChunkFromStorage st).
Proof.
  intros Hname Hcontent text.
  assert (is_no_post_record [item] = true) as Hrec.
  { unfold is_no_post_record. by rewrite !bool_decide_true. }
  assert (generateCSV [item] = text) as Htext.
  { rewrite generateCSV_text. unfold text, post_fields. cbn [fmap list_fmap].
    by rewrite Hname, Hcontent. }
  change (on_answer url polls (Answered (Some [item])) st)
    with (on_scraped url polls [item] st).
  split; [|split].
  - rewrite on_scraped_log. by rewrite Hrec, Htext.
  - intros Heq. apply (f_equal last) in Heq.
    rewrite last_placeholder_artifact in Heq. unfold text in Heq.
    rewrite last_quoted_artifact in Heq. discriminate.
  - apply on_scraped_state.
Qed.

Lemma no_post_record_is_logged_witness :
  let item := no_post_record page_a in
  let text :=
    quoted_artifact
      [[page_a; lit "not found"; lit "no post"; []; []; []]] in
  pageName item = Some (lit "not found")
  ∧ content item = Some (lit "no post")
  ∧ log (on_answer page_a [] (Answered (Some [item])) initial)
    = log initial ++ [Status (UnclaimedPage page_a);
                      Download (getFilenameForUrl page_a) text;
                      ChunkUpdated (filter (λ x, x ≠ page_a)
                                           (loadChunkFromStorage initial))]
  ∧ text ≠ placeholder_artifact page_a (lit "not found") (lit "no post")
  ∧ loadChunkFromStorage
      (on_answer page_a [] (Answered (Some [item])) initial)
    = filter (λ x, x ≠ page_a) (loadChunkFromStorage initial).
Proof.
  split; [reflexivity|]. split; [reflexivity|].
  exact (no_post_record_is_logged page_a [] (no_post_record page_a) initial
           eq_refl eq_refl).
Defined.

End artifact_facts.

(** ** The heartbeat timer *)

Section timer_facts.
Implicit Types (url : jsstring) (st : state) (t : timeout) (f : closure).

Lemma stalled_app st st' evs :
  log st' = log st ++ evs →
  stalled st' = stalled st
                ++ omap (λ e, match e with
                              | Console (NoHeartbeat url) => Some url
                              | _ => None
                              end) evs.
Proof. unfold stalled. intros ->. apply omap_app. Qed.

Lemma elapse_nil ms st :
  timeouts st = [] →
  elapse ms st = st |> set_timeouts [] |> set_clock (clock st + ms).
Proof. unfold elapse. by intros ->. Qed.

Lemma elapse_due ms t st :
  timeouts st = [t] → due t ≤ clock st + ms →
  elapse ms st
  = st |> set_timeouts [] |> set_clock (clock st + ms) |> run_closure (fn t).
Proof.
  unfold elapse. intros -> Hdue. cbn zeta.
  rewrite (filter_cons_True (λ t0, due t0 ≤ clock st + ms)) by done.
  rewrite (filter_cons_False (λ t0, ¬ due t0 ≤ clock st + ms))
    by (intros Hnot; by apply Hnot).
  done.
Qed.

Lemma elapse_not_due ms t st :
  timeouts st = [t] → ¬ due t ≤ clock st + ms →
  elapse ms st = st |> set_timeouts [t] |> set_clock (clock st + ms).
Proof.
  unfold elapse. intros -> Hdue. cbn zeta.
  rewrite (filter_cons_False (λ t0, due t0 ≤ clock st + ms)) by done.
  rewrite (filter_cons_True (λ t0, ¬ due t0 ≤ clock st + ms)) by done.
  done.
Qed.

(** *** Once disarmed, always disarmed *)

Lemma run_closure_warn st :
  stalled (run_closure WarnExpired st) = stalled st
  ∧ artifacts (run_closure WarnExpired st) = artifacts st.
Proof.
  split.
  - erewrite stalled_app by reflexivity. apply app_nil_r.
  - erewrite artifacts_app by reflexivity. apply app_nil_r.
Qed.

Lemma fire_disarmed (ts : list timeout) st :
  (∀ t, t ∈ ts → fn t = WarnExpired) →
  let st' := foldl (λ s t, run_closure (fn t) s) st ts in
  stalled st' = stalled st ∧ artifacts st' = artifacts st
  ∧ chunk_urls st' = chunk_urls st ∧ timeouts st' = timeouts st
  ∧ heartbeatTimer st' = heartbeatTimer st
  ∧ heartbeatTimeoutMs st' = heartbeatTimeoutMs st.
Proof.
  revert st. induction ts as [|t ts IH]; intros st Hts; [done|].
  cbn [foldl]. rewrite (Hts t) by left.
  destruct (IH (run_closure WarnExpired st)) as (-> & -> & -> & -> & -> & ->).
  { intros t' Ht'. apply Hts. by right. }
  destruct (run_closure_warn st) as [-> ->]. done.
Qed.

Lemma elapse_disarmed ms st :
  disarmed st →
  disarmed (elapse ms st)
  ∧ stalled (elapse ms st) = stalled st
  ∧ artifacts (elapse ms st) = artifacts st
  ∧ chunk_urls (elapse ms st) = chunk_urls st
  ∧ heartbeatTimeoutMs (elapse ms st) = heartbeatTimeoutMs st.
Proof.
  intros Hd. unfold elapse.
  match goal with
  | |- context [foldl ?step ?s ?ts] =>
      destruct (fire_disarmed ts s) as (-> & -> & -> & Hts & _ & ->)
  end.
  { intros t [_ Ht]%list_elem_of_filter. by apply Hd. }
  repeat split; try done.
  unfold disarmed. rewrite Hts. cbn.
  intros t [_ Ht]%list_elem_of_filter. by apply Hd.
Qed.

Lemma resetHeartbeatTimer_disarmed st :
  disarmed st →
  disarmed (resetHeartbeatTimer st)
  ∧ chunk_urls (resetHeartbeatTimer st) = chunk_urls st
  ∧ heartbeatTimeoutMs (resetHeartbeatTimer st) = heartbeatTimeoutMs st.
Proof.
  intros Hd. unfold resetHeartbeatTimer.
  destruct (heartbeatTimer st) as [id|]; [|done].
  split; [|done]. intros t. cbn.
  rewrite elem_of_app, list_elem_of_filter, list_elem_of_singleton.
  intros [[_ Ht]| ->]; [by apply Hd|done].
Qed.

Lemma heartbeat_disarmed gap st :
  disarmed st →
  disarmed (heartbeat gap st)
  ∧ stalled (heartbeat gap st) = stalled st
  ∧ artifacts (heartbeat gap st) = artifacts st
  ∧ chunk_urls (heartbeat gap st) = chunk_urls st
  ∧ heartbeatTimeoutMs (heartbeat gap st) = heartbeatTimeoutMs st.
Proof.
  intros Hd. unfold heartbeat.
  destruct (elapse_disarmed gap st Hd) as (Hd1 & Hs & Ha & Hc & Hms).
  destruct (resetHeartbeatTimer_disarmed _ Hd1) as (Hd2 & Hc2 & Hms2).
  split; [exact Hd2|]. split; [|split; [|split; congruence]].
  - rewrite <- Hs. unfold stalled. by rewrite resetHeartbeatTimer_log.
  - rewrite <- Ha. unfold artifacts. by rewrite resetHeartbeatTimer_log.
Qed.

Lemma heartbeats_disarmed (gaps : list N) st :
  disarmed st →
  let st' := foldl (λ s g, heartbeat g s) st gaps in
  disarmed st' ∧ stalled st' = stalled st ∧ artifacts st' = artifacts st
  ∧ chunk_urls st' = chunk_urls st.
Proof.
  revert st. induction gaps as [|g gaps IH]; intros st Hd; [done|].
  cbn [foldl].
  destruct (heartbeat_disarmed g st Hd) as (Hd1 & <- & <- & <- & _).
  by apply IH.
Qed.

(** *** The stall handler *)

Lemma run_closure_onTimeout_log url st :
  log (run_closure (OnTimeout url) st)
  = log st ++ [Console (NoHeartbeat url); Console (SkippingUrl url);
               Download (getFilenameForUrl url) (skip_artifact url).2;
               ChunkUpdated (filter (λ item, item ≠ url)
                                    (loadChunkFromStorage st))].
Proof.
  cbn [run_closure]. rewrite skipUrl_log. state_simpl.
  by rewrite <- !app_assoc.
Qed.

(** When the handler runs it skips the page: one file, the page leaves the
    queue, the timer variables stay as they are. *)
Lemma run_closure_onTimeout url st :
  let st' := run_closure (OnTimeout url) st in
  stalled st' = stalled st ++ [url]
  ∧ artifacts st' = artifacts st ++ [skip_artifact url]
  ∧ loadChunkFromStorage st'
    = filter (λ item, item ≠ url) (loadChunkFromStorage st)
  ∧ timeouts st' = timeouts st
  ∧ heartbeatTimer st' = heartbeatTimer st.
Proof.
  cbn zeta. split; [|split; [|done]].
  - erewrite stalled_app by apply run_closure_onTimeout_log. done.
  - erewrite artifacts_app by apply run_closure_onTimeout_log. done.
Qed.

(** *** Arming *)

Lemma startHeartbeatTimer_armed f st :
  timeouts st = [] →
  let st' := startHeartbeatTimer f st in
  timeouts st' = [{| tid := next_tid st;
                     due := clock st + heartbeatTimeoutMs st; fn := f |}]
  ∧ heartbeatTimer st' = Some (next_tid st)
  ∧ clock st' = clock st ∧ log st' = log st
  ∧ chunk_urls st' = chunk_urls st
  ∧ heartbeatTimeoutMs st' = heartbeatTimeoutMs st.
Proof.
  intros Hts. unfold startHeartbeatTimer, clearHeartbeatTimer.
  destruct (heartbeatTimer st) as [id|]; cbn; rewrite Hts; done.
Qed.

(** A heartbeat that arrives before the deadline of the one pending timeout
    leaves the popup disarmed: the timeout it installs only warns. *)
Lemma heartbeat_before_deadline gap t st :
  timeouts st = [t] → heartbeatTimer st = Some (tid t) →
  clock st + gap < due t →
  disarmed (heartbeat gap st) ∧ log (heartbeat gap st) = log st
  ∧ chunk_urls (heartbeat gap st) = chunk_urls st.
Proof.
  intros Hts Hid Hgap. unfold heartbeat.
  rewrite (elapse_not_due gap _ _ Hts) by lia.
  unfold resetHeartbeatTimer. state_simpl. rewrite Hid. state_simpl.
  rewrite filter_cons_False by auto.
  split; [|done].
  by intros t' ->%list_elem_of_singleton.
Qed.

Lemma heartbeat_in_time_disarms url gap st :
  timeouts st = [] → gap < heartbeatTimeoutMs st →
  let st' := heartbeat gap (startHeartbeatTimer (OnTimeout url) st) in
  disarmed st' ∧ log st' = log st ∧ chunk_urls st' = chunk_urls st.
Proof.
  intros Hts Hgap.
  destruct (startHeartbeatTimer_armed (OnTimeout url) st Hts)
    as (Harmed & Hid & Hclock & Hlog & Hchunk & Hms).
  cbn zeta in *. rewrite <- Hlog, <- Hchunk.
  eapply heartbeat_before_deadline; [exact Harmed|exact Hid|].
  cbn [due]. lia.
Qed.

(** C2, as the popup does it. Once a heartbeat has arrived in time, the
    stall handler that [startHeartbeatTimer] was given never runs: whatever
    the later heartbeats, and however long the silence after the last one,
    the timeouts installed by [resetHeartbeatTimer] only write a warning. *)
Theorem heartbeat_replaces_stall_handler url gap gaps wait st :
  timeouts st = [] → gap < heartbeatTimeoutMs st →
  stalled (monitor url (gap :: gaps) wait st) = stalled st
  ∧ artifacts (monitor url (gap :: gaps) wait st) = artifacts st
  ∧ loadChunkFromStorage (monitor url (gap :: gaps) wait st)
    = loadChunkFromStorage st.
Proof.
  intros Hts Hgap. unfold monitor. cbn [foldl].
  destruct (heartbeat_in_time_disarms url gap st Hts Hgap)
    as (Hd & Hlog & Hchunk).
  destruct (heartbeats_disarmed gaps _ Hd) as (Hd' & Hs & Ha & Hc).
  destruct (elapse_disarmed wait _ Hd') as (_ & Hs' & Ha' & Hc' & _).
  unfold loadChunkFromStorage. rewrite Hs', Ha', Hc', Hs, Ha, Hc, Hchunk.
  unfold stalled, artifacts. by rewrite Hlog.
Qed.

(** The same on a concrete run: armed with 30 seconds, one heartbeat after
    10 seconds, then 40 seconds of silence; the handler has not run, only the
    warning of [resetHeartbeatTimer] was written. *)
Lemma heartbeat_replaces_stall_handler_witness :
  timeouts initial = [] ∧ 10000 < heartbeatTimeoutMs initial
  ∧ 30000 < 40000
  ∧ log (monitor page_a [10000] 40000 initial) = [Console HeartbeatExpired]
  ∧ stalled (monitor page_a [10000] 40000 initial) = stalled initial
  ∧ artifacts (monitor page_a [10000] 40000 initial) = artifacts initial
  ∧ loadChunkFromStorage (monitor page_a [10000] 40000 initial)
    = loadChunkFromStorage initial.
Proof.
  split; [reflexivity|]. split; [reflexivity|]. split; [reflexivity|].
  split; [vm_compute; reflexivity|].
  exact (heartbeat_replaces_stall_handler page_a 10000 [] 40000 initial
           eq_refl eq_refl).
Defined.

(** Heartbeats that each arrive in time never let the handler run. *)
Lemma heartbeats_in_time_never_stall url (gaps : list N) st :
  timeouts st = [] → Forall (λ g, g < heartbeatTimeoutMs st) gaps →
  stalled (foldl (λ s g, heartbeat g s)
                 (startHeartbeatTimer (OnTimeout url) st) gaps)
  = stalled st.
Proof.
  intros Hts Hgaps. destruct Hgaps as [|gap gaps Hgap _].
  - cbn [foldl]. unfold stalled. by rewrite startHeartbeatTimer_log.
  - cbn [foldl].
    destruct (heartbeat_in_time_disarms url gap st Hts Hgap) as (Hd & Hlog & _).
    destruct (heartbeats_disarmed gaps _ Hd) as (_ & -> & _).
    unfold stalled. by rewrite Hlog.
Qed.

(** Without any heartbeat the handler runs once the timeout has passed, and
    it runs once: it skips the page. *)
Lemma silence_stalls_once url wait st :
  timeouts st = [] → heartbeatTimeoutMs st ≤ wait →
  stalled (monitor url [] wait st) = stalled st ++ [url]
  ∧ artifacts (monitor url [] wait st) = artifacts st ++ [skip_artifact url]
  ∧ timeouts (monitor url [] wait st) = [].
Proof.
  intros Hts Hwait. unfold monitor. cbn [foldl].
  destruct (startHeartbeatTimer_armed (OnTimeout url) st Hts)
    as (Harmed & Hid & Hclock & Hlog & Hchunk & Hms).
  cbn zeta in *.
  generalize dependent (startHeartbeatTimer (OnTimeout url) st).
  intros st1 Harmed Hid Hclock Hlog Hchunk Hms.
  rewrite (elapse_due wait _ _ Harmed) by (cbn [due]; lia). cbn [fn].
  match goal with
  | |- context [run_closure _ ?s] =>
      destruct (run_closure_onTimeout url s) as (-> & -> & _ & -> & _)
  end.
  unfold stalled, artifacts. state_simpl. by rewrite Hlog.
Qed.

End timer_facts.

(** ** Waiting for the content script *)

Section waiting_facts.
Implicit Types (url : jsstring) (st : state) (t : timeout) (fired : bool).

Lemma waiting_start url s0 :
  timeouts s0 = [] → waiting_for url s0 false (scraping url s0).
Proof.
  intros Hts. unfold scraping.
  destruct (startHeartbeatTimer_armed (OnTimeout url)
              (emit (Status (NavigatingTo url)) s0) Hts)
    as (Harmed & Hid & Hclock & Hlog & Hchunk & Hms).
  cbn zeta in *.
  generalize dependent (startHeartbeatTimer (OnTimeout url)
                          (emit (Status (NavigatingTo url)) s0)).
  intros st1 Harmed Hid Hclock Hlog Hchunk Hms.
  assert (log (emit (Status (Scraping url)) st1)
          = log s0 ++ [Status (NavigatingTo url); Status (Scraping url)])
    as Hlog'.
  { state_simpl. rewrite Hlog. state_simpl. by rewrite <- app_assoc. }
  constructor.
  - state_simpl. by rewrite Harmed.
  - state_simpl. rewrite Harmed, Hid.
    intros t ->%list_elem_of_singleton. auto.
  - unfold loadChunkFromStorage. state_simpl. by rewrite Hchunk.
  - by erewrite artifacts_app by exact Hlog'.
  - by erewrite stalled_app by exact Hlog'.
Qed.

Lemma waiting_elapse url s0 fired ms st :
  waiting_for url s0 fired st →
  ∃ fired', (fired = true → fired' = true)
            ∧ waiting_for url s0 fired' (elapse ms st).
Proof.
  intros [Htab Htim Hq Ha Hs].
  destruct (timeouts st) as [|t [|t' ts]] eqn:Hts; [| |cbn in Htab; lia].
  - exists fired. split; [done|]. rewrite (elapse_nil _ _ Hts).
    by constructor.
  - destruct (Htim t) as [Hid Hfn]; [by left|].
    destruct (decide (due t ≤ clock st + ms)) as [Hdue|Hdue].
    + rewrite (elapse_due _ _ _ Hts Hdue).
      destruct Hfn as [Hfn|[Hfn ->]]; rewrite Hfn.
      * exists fired. split; [done|].
        match goal with
        | |- context [run_closure _ ?s] =>
            destruct (run_closure_warn s) as [Hs' Ha']
        end.
        constructor.
        -- state_simpl. cbn [length]. lia.
        -- state_simpl. by intros t' ?%elem_of_nil.
        -- done.
        -- by rewrite Ha'.
        -- by rewrite Hs'.
      * exists true. split; [done|].
        match goal with
        | |- context [run_closure _ ?s] =>
            destruct (run_closure_onTimeout url s)
              as (Hs' & Ha' & Hq' & Hts' & Hid')
        end.
        constructor.
        -- rewrite Hts'. state_simpl. cbn [length]. lia.
        -- rewrite Hts'. state_simpl. by intros t' ?%elem_of_nil.
        -- rewrite Hq'. by rewrite <- Hq.
        -- rewrite Ha'. rewrite app_nil_r in Ha. by rewrite <- Ha.
        -- rewrite Hs'. rewrite app_nil_r in Hs. by rewrite <- Hs.
    + rewrite (elapse_not_due _ _ _ Hts Hdue). exists fired. split; [done|].
      constructor.
      * state_simpl. cbn [length]. lia.
      * state_simpl. intros t' ->%list_elem_of_singleton. auto.
      * done.
      * done.
      * done.
Qed.

Lemma waiting_reset url s0 fired st :
  waiting_for url s0 fired st →
  waiting_for url s0 fired (resetHeartbeatTimer st).
Proof.
  intros Hw. unfold resetHeartbeatTimer.
  destruct (heartbeatTimer st) as [id|] eqn:Hid; [|exact Hw].
  destruct Hw as [Htab Htim Hq Ha Hs].
  assert (filter (λ t, tid t ≠ id) (timeouts st) = []) as Hclear.
  { destruct (timeouts st) as [|t [|t' ts]]; [done| |cbn in Htab; lia].
    destruct (Htim t) as [Hid' _]; [by left|].
    rewrite Hid in Hid'. injection Hid' as ->.
    by rewrite filter_cons_False by auto. }
  constructor.
  - state_simpl. rewrite Hclear. cbn [app length]. lia.
  - state_simpl. rewrite Hclear. cbn [app].
    intros t ->%list_elem_of_singleton. auto.
  - done.
  - done.
  - done.
Qed.

Lemma waiting_heartbeats url s0 (gaps : list N) fired st :
  waiting_for url s0 fired st →
  ∃ fired', (fired = true → fired' = true)
            ∧ waiting_for url s0 fired'
                (foldl (λ s g, heartbeat g s) st gaps).
Proof.
  revert fired st. induction gaps as [|g gaps IH]; intros fired st Hw.
  - by exists fired.
  - cbn [foldl]. unfold heartbeat at 2.
    destruct (waiting_elapse _ _ _ g _ Hw) as (fired1 & H1 & Hw1).
    apply waiting_reset in Hw1.
    destruct (IH _ _ Hw1) as (fired2 & H2 & Hw2).
    exists fired2. auto.
Qed.

Lemma waiting_pending url s0 a gap fired st :
  waiting_for url s0 fired st →
  ∃ fired', (fired = true → fired' = true)
            ∧ waiting_for url s0 fired' (pending a gap st).
Proof.
  intros Hw. unfold pending.
  destruct (waiting_heartbeats _ _ (heartbeats a) _ _ Hw) as (fired1 & H1 & Hw1).
  destruct (waiting_elapse _ _ _ gap _ Hw1) as (fired2 & H2 & Hw2).
  exists fired2. auto.
Qed.

(** *** The answer *)

Lemma clearHeartbeatTimer_waiting url s0 fired st :
  waiting_for url s0 fired st → timeouts (clearHeartbeatTimer st) = [].
Proof.
  intros [Htab Htim _ _ _]. unfold clearHeartbeatTimer.
  destruct (timeouts st) as [|t [|t' ts]] eqn:Hts; [| |cbn in Htab; lia].
  - destruct (heartbeatTimer st); state_simpl; by rewrite Hts.
  - destruct (Htim t) as [-> _]; [by left|]. state_simpl. rewrite Hts.
    by rewrite filter_cons_False by auto.
Qed.

Lemma emit_status_silent (s : status) st :
  artifacts (emit (Status s) st) = artifacts st
  ∧ stalled (emit (Status s) st) = stalled st.
Proof.
  split.
  - erewrite artifacts_app by reflexivity. apply app_nil_r.
  - erewrite stalled_app by reflexivity. apply app_nil_r.
Qed.

Lemma clearHeartbeatTimer_idle st :
  timeouts st = [] → timeouts (clearHeartbeatTimer st) = [].
Proof.
  intros Hts. unfold clearHeartbeatTimer.
  destruct (heartbeatTimer st); state_simpl; by rewrite Hts.
Qed.

(** The [catch] writes the skipped file for the page, removes the page from
    the stored queue and runs no stall handler. *)
Lemma on_error_effect url err st :
  let st' := on_error url err st in
  artifacts st' = artifacts st ++ [skip_artifact url]
  ∧ stalled st' = stalled st
  ∧ loadChunkFromStorage st'
    = filter (λ item, item ≠ url) (loadChunkFromStorage st)
  ∧ timeouts st' = timeouts (clearHeartbeatTimer st).
Proof.
  cbn zeta. destruct (on_error_state url err st) as [Hq Hts].
  split; [|split; [|done]].
  - erewrite artifacts_app by apply on_error_log. done.
  - erewrite stalled_app by apply on_error_log. apply app_nil_r.
Qed.

(** Whatever the reply, handling it writes exactly one file for the page,
    removes the page from the stored queue and runs no stall handler. *)
Lemma on_answer_effect url polls r st :
  let st' := on_answer url polls r st in
  (∃ text, artifacts st' = artifacts st ++ [(getFilenameForUrl url, text)])
  ∧ stalled st' = stalled st
  ∧ loadChunkFromStorage st'
    = filter (λ item, item ≠ url) (loadChunkFromStorage st)
  ∧ timeouts st' = timeouts (clearHeartbeatTimer st).
Proof.
  cbn zeta.
  assert (∀ err,
    (∃ text, artifacts (on_error url err st)
             = artifacts st ++ [(getFilenameForUrl url, text)])
    ∧ stalled (on_error url err st) = stalled st
    ∧ loadChunkFromStorage (on_error url err st)
      = filter (λ item, item ≠ url) (loadChunkFromStorage st)
    ∧ timeouts (on_error url err st) = timeouts (clearHeartbeatTimer st))
    as Herr.
  { intros err. destruct (on_error_effect url err st) as (Ha & Hrest).
    split; [by eexists|done]. }
  destruct r as [message| |data]; cbn [on_answer]; [apply Herr..|].
  generalize (default [] data) as scrapedData. intros scrapedData.
  destruct (on_scraped_state url polls scrapedData st) as [Hq Hts].
  pose proof (on_scraped_log url polls scrapedData st) as Hlog.
  cbn zeta in Hlog.
  split; [|split; [|done]].
  - destruct scrapedData as [|item rest].
    + eexists. erewrite artifacts_app by exact Hlog. reflexivity.
    + destruct (is_no_post_record (item :: rest)).
      * eexists. erewrite artifacts_app by exact Hlog. reflexivity.
      * destruct (waitForFileDownload 10 polls);
          eexists; (erewrite artifacts_app by exact Hlog); reflexivity.
  - erewrite stalled_app by exact Hlog.
    destruct scrapedData as [|item rest]; [apply app_nil_r|].
    destruct (is_no_post_record (item :: rest)); [apply app_nil_r|].
    destruct (waitForFileDownload 10 polls); apply app_nil_r.
Qed.

(** An iteration that the browser lets run to its end. *)
Lemma iteration_answered url a gap r st :
  active_tab a = true → navigation_completes a = true →
  answer a = Some (gap, r) →
  iteration url a st
  = Continue (on_answer url (download_polls a) r
                (pending a gap (scraping url st))).
Proof.
  intros Htab Hnav Hans. unfold iteration, await_scrapeTab.
  by rewrite Htab, Hnav, Hans.
Qed.

Lemma iteration_no_tab url a st :
  active_tab a = false →
  iteration url a st
  = Continue (on_error url NoActiveTab (emit (Status (NavigatingTo url)) st)).
Proof. intros Htab. unfold iteration. by rewrite Htab. Qed.

(** The effect of one iteration on the queue, the files and the stall
    handler: the page leaves the queue, it gets one file, and one more, the
    skipped one, in front of it when the stall handler ran while the popup
    was waiting. *)
Lemma iteration_effect url a st :
  timeouts st = [] → responsive a = true →
  ∃ st' fired text,
    iteration url a st = Continue st'
    ∧ timeouts st' = []
    ∧ loadChunkFromStorage st'
      = filter (λ item, item ≠ url) (loadChunkFromStorage st)
    ∧ artifacts st'
      = artifacts st ++ (if fired then [skip_artifact url] else [])
                     ++ [(getFilenameForUrl url, text)]
    ∧ stalled st' = stalled st ++ (if fired then [url] else []).
Proof.
  intros Hts Hresp. unfold responsive in Hresp.
  destruct (active_tab a) eqn:Htab; cbn [negb orb] in Hresp.
  - apply andb_true_iff in Hresp as [Hnav Hans].
    apply bool_decide_eq_true in Hans as [[gap r] Hans].
    pose proof (waiting_start url st Hts) as Hw.
    destruct (waiting_pending url st a gap _ _ Hw) as (fired & _ & Hw').
    destruct (on_answer_effect url (download_polls a) r
                (pending a gap (scraping url st)))
      as ((text & Ha) & Hs & Hq & Ht).
    eexists _, fired, text.
    split; [by apply iteration_answered|].
    rewrite Ht, Hq, Ha, Hs.
    rewrite (clearHeartbeatTimer_waiting _ _ _ _ Hw').
    destruct Hw' as [_ _ Hq' Ha' Hs']. rewrite Hq', Ha', Hs'.
    split; [done|]. split; [|split; [by rewrite app_assoc|done]].
    destruct fired; [apply filter_ne_idemp|done].
  - destruct (on_error_effect url NoActiveTab
                (emit (Status (NavigatingTo url)) st))
      as (Ha & Hs & Hq & Ht).
    destruct (emit_status_silent (NavigatingTo url) st) as [Ha0 Hs0].
    eexists _, false, _. split; [by apply iteration_no_tab|].
    rewrite Ht, Hq, Ha, Hs, Ha0, Hs0.
    split; [by apply clearHeartbeatTimer_idle|].
    split; [done|]. split; [done|]. by rewrite app_nil_r.
Qed.

(** C1, where the popup departs from it. When the stall handler has run for
    the page while [scrapeTab] was pending (the skipped file is written and
    the page has left the stored queue) and the content script answers
    later, the iteration goes on with that answer as if nothing had
    happened: it writes one more file for the page, the one that belongs to
    the answer, and one more queue snapshot; the stored queue stays as the
    handler left it. *)
Theorem late_answer_after_stall url a gap r s0 :
  timeouts s0 = [] →
  active_tab a = true → navigation_completes a = true →
  answer a = Some (gap, r) →
  let waiting := pending a gap (scraping url s0) in
  stalled waiting = stalled s0 ++ [url] →
  ∃ st',
    iteration url a s0 = Continue st'
    ∧ artifacts waiting
      = artifacts s0
        ++ [(getFilenameForUrl url,
             placeholder_artifact url (lit "skipped")
                                  (lit "no post or error"))]
    ∧ (url ∉ loadChunkFromStorage waiting)
    ∧ loadChunkFromStorage st' = loadChunkFromStorage waiting
    ∧ artifacts st'
      = artifacts waiting ++ [(getFilenameForUrl url, expected_text url r)]
    ∧ snapshots st' = snapshots waiting ++ [loadChunkFromStorage waiting].
Proof.
  intros Hts Htab Hnav Hans waiting Hstall.
  destruct (waiting_pending url s0 a gap _ _ (waiting_start url s0 Hts))
    as (fired & _ & [_ _ Hq Ha Hs]).
  fold waiting in Hq, Ha, Hs.
  assert (fired = true) as ->.
  { rewrite Hs in Hstall. apply app_inv_head in Hstall. by destruct fired. }
  destruct (on_answer_effect url (download_polls a) r waiting)
    as (_ & _ & Hq' & _).
  destruct (on_answer_writes url (download_polls a) r waiting) as [Ha' Hn'].
  assert (url ∉ loadChunkFromStorage waiting) as Habsent.
  { rewrite Hq, list_elem_of_filter. by intros [Hne _]. }
  assert (filter (λ item, item ≠ url) (loadChunkFromStorage waiting)
          = loadChunkFromStorage waiting) as Hsame
    by by apply filter_ne_absent.
  exists (on_answer url (download_polls a) r waiting).
  split; [by apply iteration_answered|].
  split; [by rewrite Ha; unfold skip_artifact; rewrite oneRowCSV_text|].
  split; [done|]. split; [by rewrite Hq'|]. split; [done|].
  by rewrite Hn', Hsame.
Qed.

Lemma late_answer_after_stall_witness :
  let a := late [sample_post page_a] in
  let waiting := pending a 45000 (scraping page_a two_pages) in
  timeouts two_pages = []
  ∧ stalled waiting = stalled two_pages ++ [page_a]
  ∧ ∃ st',
      iteration page_a a two_pages = Continue st'
      ∧ artifacts waiting
        = artifacts two_pages
          ++ [(getFilenameForUrl page_a,
               placeholder_artifact page_a (lit "skipped")
                                    (lit "no post or error"))]
      ∧ (page_a ∉ loadChunkFromStorage waiting)
      ∧ loadChunkFromStorage st' = loadChunkFromStorage waiting
      ∧ artifacts st'
        = artifacts waiting
          ++ [(getFilenameForUrl page_a,
               expected_text page_a (Answered (Some [sample_post page_a])))]
      ∧ snapshots st' = snapshots waiting ++ [loadChunkFromStorage waiting].
Proof.
  cbn zeta. split; [reflexivity|].
  assert (stalled (pending (late [sample_post page_a]) 45000
                     (scraping page_a two_pages))
          = stalled two_pages ++ [page_a]) as Hstall
    by (vm_compute; reflexivity).
  split; [exact Hstall|].
  exact (late_answer_after_stall page_a (late [sample_post page_a]) 45000
           (Answered (Some [sample_post page_a])) two_pages
           eq_refl eq_refl eq_refl eq_refl Hstall).
Defined.

(** The same on a run: with no heartbeat and an answer after 45 seconds, the
    handler has skipped the page when the answer arrives, and the answer
    still produces a file, the second one for that page. *)
Lemma late_answer_adds_artifact :
  let a := late [sample_post page_a] in
  let waiting := pending a 45000 (scraping page_a two_pages) in
  let st' := on_answer page_a (download_polls a)
               (Answered (Some [sample_post page_a])) waiting in
  iteration page_a a two_pages = Continue st'
  ∧ stalled waiting = [page_a]
  ∧ artifacts waiting = [skip_artifact page_a]
  ∧ loadChunkFromStorage waiting = [page_b]
  ∧ artifacts st'
    = [skip_artifact page_a;
       (getFilenameForUrl page_a, CSV.generateCSV [sample_post page_a])]
  ∧ artifacts st' ≠ artifacts waiting.
Proof.
  cbn zeta. split; [reflexivity|].
  split; [vm_compute; reflexivity|].
  assert (artifacts (pending (late [sample_post page_a]) 45000
                       (scraping page_a two_pages))
          = [skip_artifact page_a]) as Hw by (vm_compute; reflexivity).
  split; [exact Hw|]. split; [vm_compute; reflexivity|].
  destruct (on_answer_effect page_a
              (download_polls (late [sample_post page_a]))
              (Answered (Some [sample_post page_a]))
              (pending (late [sample_post page_a]) 45000
                 (scraping page_a two_pages))) as ((text & Ha) & _).
  split; [vm_compute; reflexivity|].
  rewrite Ha, Hw. intros Heq. by apply (f_equal length) in Heq.
Qed.

End waiting_facts.

(** ** The run *)

Section run_facts.
Implicit Types (url u : jsstring) (st : state) (q : list jsstring) (b : browser).

(** *** Distinct entries *)

Lemma firsts_filter u q :
  firsts (filter (λ item, item ≠ u) q) = filter (λ item, item ≠ u) (firsts q).
Proof.
  induction q as [|x q IH]; [done|]. cbn [firsts].
  destruct (decide (x = u)) as [->|Hx].
  - rewrite filter_cons_False by auto.
    rewrite (filter_cons_False _ u) by auto.
    by rewrite IH, filter_ne_idemp.
  - rewrite !filter_cons_True by done. cbn [firsts].
    by rewrite IH, filter_ne_comm.
Qed.

Lemma elem_of_firsts u q : u ∈ firsts q ↔ u ∈ q.
Proof.
  induction q as [|x q IH]; [done|]. cbn [firsts].
  rewrite !elem_of_cons, list_elem_of_filter, IH.
  destruct (decide (u = x)); tauto.
Qed.

(** [firsts] keeps one copy of every entry. *)
Lemma firsts_NoDup q : NoDup (firsts q).
Proof.
  induction q as [|x q IH]; [constructor|]. cbn [firsts]. constructor.
  - rewrite list_elem_of_filter. by intros [Hne _].
  - by apply NoDup_filter.
Qed.

(** On a queue without repetitions, [firsts] changes nothing. *)
Lemma firsts_id q : NoDup q → firsts q = q.
Proof.
  induction 1 as [|x q Hx _ IH]; [done|]. cbn [firsts].
  rewrite IH. by rewrite filter_ne_absent.
Qed.

(** *** Termination and artifacts *)

Lemma scraping_armed url st :
  timeouts st = [] →
  ∃ t, timeouts (scraping url st) = [t]
       ∧ heartbeatTimer (scraping url st) = Some (tid t)
       ∧ due t = clock (scraping url st) + heartbeatTimeoutMs st
       ∧ fn t = OnTimeout url
       ∧ artifacts (scraping url st) = artifacts st
       ∧ stalled (scraping url st) = stalled st
       ∧ chunk_urls (scraping url st) = chunk_urls st.
Proof.
  intros Hts.
  destruct (waiting_start url st Hts) as [_ _ _ Ha Hs].
  rewrite app_nil_r in Ha, Hs. unfold scraping in *.
  destruct (startHeartbeatTimer_armed (OnTimeout url)
              (emit (Status (NavigatingTo url)) st) Hts)
    as (Harmed & Hid & Hclock & Hlog & Hchunk & Hms).
  cbn zeta in *.
  generalize dependent (startHeartbeatTimer (OnTimeout url)
                          (emit (Status (NavigatingTo url)) st)).
  intros st1 Ha Hs Harmed Hid Hclock Hlog Hchunk Hms.
  eexists. state_simpl. split; [exact Harmed|]. split; [exact Hid|].
  cbn [due fn]. rewrite Hclock. state_simpl. done.
Qed.

(** With a browser that lets every iteration run to its end, the loop ends
    when the queue is empty; it has then gone once through every distinct
    entry. *)
Lemma processUrls_finishes fuel b i st :
  timeouts st = [] → (∀ j, responsive (b j) = true) →
  (length (loadChunkFromStorage st) < fuel)%nat →
  ∃ st' skipped,
    processUrls fuel b i st = Finished st'
    ∧ loadChunkFromStorage st' = []
    ∧ stalled st' = stalled st ++ skipped
    ∧ length (artifacts st')
      = (length (artifacts st) + length (firsts (loadChunkFromStorage st))
         + length skipped)%nat
    ∧ (skipped = [] →
       (artifacts st').*1
       = (artifacts st).*1
         ++ (getFilenameForUrl <$> firsts (loadChunkFromStorage st))).
Proof.
  intros Hts Hb. revert i st Hts.
  induction fuel as [|fuel IH]; intros i st Hts Hfuel; [lia|].
  cbn [processUrls].
  destruct (loadChunkFromStorage st) as [|url rest] eqn:Hq.
  - destruct (emit_status_silent AllPagesProcessed st) as [Ha Hs].
    exists (emit (Status AllPagesProcessed) st), [].
    rewrite Ha, Hs, !app_nil_r. cbn [firsts length]. unfold loadChunkFromStorage.
    state_simpl. unfold loadChunkFromStorage in Hq. rewrite Hq.
    repeat split; lia.
  - destruct (iteration_effect url (b i) st Hts (Hb i))
      as (st1 & fired & text & -> & Hts1 & Hq1 & Ha1 & Hs1).
    rewrite Hq in Hq1. rewrite filter_cons_False in Hq1 by auto.
    destruct (IH (S i) st1 Hts1) as (st' & skipped & Hrun & Hq' & Hs' & Hn & Hnames).
    { rewrite Hq1. pose proof (length_filter (λ item, item ≠ url) rest).
      cbn [length] in Hfuel. lia. }
    exists st', ((if fired then [url] else []) ++ skipped).
    split; [done|]. split; [done|].
    split; [by rewrite Hs', Hs1, app_assoc|].
    assert (firsts (loadChunkFromStorage st1)
            = filter (λ item, item ≠ url) (firsts rest)) as Hfirsts
      by by rewrite Hq1, firsts_filter.
    split.
    + rewrite Hn, Ha1, Hfirsts, !length_app. cbn [firsts length].
      destruct fired; cbn [length]; lia.
    + intros Hnil. apply app_eq_nil in Hnil as [Hfired ->].
      rewrite Hnames by done. rewrite Ha1, Hfirsts.
      destruct fired; [done|]. cbn [firsts app].
      rewrite !fmap_app, fmap_cons. cbn [fst fmap list_fmap].
      by rewrite <- app_assoc.
Qed.

(** *** Runs without a stall *)

(** Nothing writes [heartbeatTimeoutMs]. *)
Lemma run_closure_timeout_ms (f : closure) st :
  heartbeatTimeoutMs (run_closure f st) = heartbeatTimeoutMs st.
Proof. by destruct f. Qed.

Lemma fire_timeout_ms (ts : list timeout) st :
  heartbeatTimeoutMs (foldl (λ s t, run_closure (fn t) s) st ts)
  = heartbeatTimeoutMs st.
Proof.
  revert st. induction ts as [|t ts IH]; intros st; [done|].
  cbn [foldl]. by rewrite IH, run_closure_timeout_ms.
Qed.

Lemma elapse_timeout_ms ms st :
  heartbeatTimeoutMs (elapse ms st) = heartbeatTimeoutMs st.
Proof. unfold elapse. by rewrite fire_timeout_ms. Qed.

Lemma clearHeartbeatTimer_timeout_ms st :
  heartbeatTimeoutMs (clearHeartbeatTimer st) = heartbeatTimeoutMs st.
Proof. unfold clearHeartbeatTimer. by destruct (heartbeatTimer st). Qed.

Lemma resetHeartbeatTimer_timeout_ms st :
  heartbeatTimeoutMs (resetHeartbeatTimer st) = heartbeatTimeoutMs st.
Proof. unfold resetHeartbeatTimer. by destruct (heartbeatTimer st). Qed.

Lemma startHeartbeatTimer_timeout_ms (f : closure) st :
  heartbeatTimeoutMs (startHeartbeatTimer f st) = heartbeatTimeoutMs st.
Proof.
  unfold startHeartbeatTimer, clearHeartbeatTimer.
  by destruct (heartbeatTimer st).
Qed.

Lemma heartbeats_timeout_ms (gaps : list N) st :
  heartbeatTimeoutMs (foldl (λ s g, heartbeat g s) st gaps)
  = heartbeatTimeoutMs st.
Proof.
  revert st. induction gaps as [|g gaps IH]; intros st; [done|].
  cbn [foldl]. rewrite IH. unfold heartbeat.
  by rewrite resetHeartbeatTimer_timeout_ms, elapse_timeout_ms.
Qed.

Lemma on_error_timeout_ms url (err : failure) st :
  heartbeatTimeoutMs (on_error url err st) = heartbeatTimeoutMs st.
Proof.
  unfold on_error. rewrite !clearHeartbeatTimer_emit.
  rewrite <- (clearHeartbeatTimer_timeout_ms st).
  by generalize (clearHeartbeatTimer st).
Qed.

Lemma on_answer_timeout_ms url (polls : list bool) (r : reply) st :
  heartbeatTimeoutMs (on_answer url polls r st) = heartbeatTimeoutMs st.
Proof.
  destruct r as [message| |data]; cbn [on_answer];
    [apply on_error_timeout_ms..|].
  unfold on_scraped. rewrite <- (clearHeartbeatTimer_timeout_ms st).
  generalize (clearHeartbeatTimer st) as st1. intros st1.
  destruct (default [] data) as [|item rest]; [done|].
  destruct (is_no_post_record (item :: rest)); [done|].
  by destruct (waitForFileDownload 10 polls).
Qed.

Lemma iteration_timeout_ms url (a : attempt) st st' :
  iteration url a st = Continue st' →
  heartbeatTimeoutMs st' = heartbeatTimeoutMs st.
Proof.
  unfold iteration, await_scrapeTab.
  destruct (active_tab a); cbn [negb].
  2:{ intros [= <-]. by rewrite on_error_timeout_ms. }
  destruct (navigation_completes a); cbn [negb]; [|done].
  destruct (answer a) as [[gap r]|]; [|done].
  intros [= <-]. rewrite on_answer_timeout_ms. unfold pending.
  rewrite elapse_timeout_ms, heartbeats_timeout_ms.
  state_simpl. by rewrite startHeartbeatTimer_timeout_ms.
Qed.

(** When the first sign of life of the page comes before the timeout, the
    stall handler has not run when the page answers. *)
Lemma pending_timely url (a : attempt) gap st :
  timeouts st = [] →
  match heartbeats a with
  | g :: _ => g < heartbeatTimeoutMs st
  | [] => gap < heartbeatTimeoutMs st
  end →
  stalled (pending a gap (scraping url st)) = stalled st.
Proof.
  intros Hts Hfirst. unfold pending.
  destruct (scraping_armed url st Hts)
    as (t & Harmed & Hid & Hdue & _ & _ & Hs & _).
  generalize dependent (scraping url st). intros st1 Harmed Hid Hdue Hs.
  destruct (heartbeats a) as [|g gs]; cbn [foldl].
  - rewrite (elapse_not_due gap _ _ Harmed) by lia. by rewrite <- Hs.
  - destruct (heartbeat_before_deadline g t st1 Harmed Hid)
      as (Hd & Hlog & _); [lia|].
    destruct (heartbeats_disarmed gs _ Hd) as (Hd2 & Hs2 & _).
    destruct (elapse_disarmed gap _ Hd2) as (_ & Hs3 & _).
    rewrite Hs3, Hs2, <- Hs. unfold stalled. by rewrite Hlog.
Qed.

(** One iteration without a stall: the page leaves the queue and gets its
    one file. *)
Lemma iteration_timely url (a : attempt) st :
  timeouts st = [] → responsive a = true →
  timely (heartbeatTimeoutMs st) a = true →
  ∃ st',
    iteration url a st = Continue st'
    ∧ timeouts st' = []
    ∧ heartbeatTimeoutMs st' = heartbeatTimeoutMs st
    ∧ loadChunkFromStorage st'
      = filter (λ item, item ≠ url) (loadChunkFromStorage st)
    ∧ artifacts st' = artifacts st ++ [expected_artifact url a]
    ∧ stalled st' = stalled st.
Proof.
  intros Hts Hresp Htimely.
  destruct (iteration_effect url a st Hts Hresp)
    as (st' & fired & text & Hit & Hts' & Hq & _ & _).
  exists st'. split; [done|]. split; [done|].
  split; [by eapply iteration_timeout_ms|]. split; [done|].
  unfold responsive, timely, expected_artifact in *.
  destruct (active_tab a) eqn:Htab; cbn [negb orb] in *.
  - apply andb_true_iff in Hresp as [Hnav Hans].
    apply bool_decide_eq_true in Hans as [[gap r] Hans].
    rewrite Hans in Htimely |- *.
    rewrite (iteration_answered _ _ _ _ _ Htab Hnav Hans) in Hit.
    injection Hit as <-.
    assert (stalled (pending a gap (scraping url st)) = stalled st) as Hquiet.
    { apply pending_timely; [done|].
      destruct (heartbeats a); by apply bool_decide_eq_true in Htimely. }
    destruct (waiting_pending url st a gap _ _ (waiting_start url st Hts))
      as (fired' & _ & [_ _ _ Hwa Hws]).
    assert (fired' = false) as ->.
    { destruct fired'; [|done]. rewrite Hquiet in Hws.
      apply (f_equal length) in Hws. rewrite length_app in Hws.
      cbn [length] in Hws. lia. }
    rewrite app_nil_r in Hwa.
    destruct (on_answer_writes url (download_polls a) r
                (pending a gap (scraping url st))) as [-> _].
    destruct (on_answer_effect url (download_polls a) r
                (pending a gap (scraping url st))) as (_ & -> & _).
    by rewrite Hwa, Hquiet.
  - rewrite (iteration_no_tab _ _ _ Htab) in Hit. injection Hit as <-.
    destruct (on_error_effect url NoActiveTab
                (emit (Status (NavigatingTo url)) st)) as (-> & -> & _).
    destruct (emit_status_silent (NavigatingTo url) st) as [-> ->].
    unfold skip_artifact. by rewrite oneRowCSV_text.
Qed.

(** A run without a stall ends with the queue empty, and the files it has
    written are, in order, those of the distinct entries of the queue. *)
Lemma processUrls_timely fuel b i st :
  timeouts st = [] → (∀ j, responsive (b j) = true) →
  (∀ j, timely (heartbeatTimeoutMs st) (b j) = true) →
  (length (loadChunkFromStorage st) < fuel)%nat →
  ∃ st',
    processUrls fuel b i st = Finished st'
    ∧ loadChunkFromStorage st' = []
    ∧ stalled st' = stalled st
    ∧ artifacts st'
      = artifacts st
        ++ imap (λ j url, expected_artifact url (b (i + j)%nat))
                (firsts (loadChunkFromStorage st)).
Proof.
  intros Hts Hb. revert i st Hts.
  induction fuel as [|fuel IH]; intros i st Hts Htimely Hfuel; [lia|].
  cbn [processUrls].
  destruct (loadChunkFromStorage st) as [|url rest] eqn:Hq.
  - destruct (emit_status_silent AllPagesProcessed st) as [Ha Hs].
    exists (emit (Status AllPagesProcessed) st).
    split; [done|]. rewrite Ha, Hs. cbn [firsts imap]. rewrite app_nil_r.
    split; [|done]. unfold loadChunkFromStorage in *. state_simpl.
    by rewrite Hq.
  - destruct (iteration_timely url (b i) st Hts (Hb i) (Htimely i))
      as (st1 & -> & Hts1 & Hms1 & Hq1 & Ha1 & Hs1).
    rewrite Hq in Hq1. rewrite filter_cons_False in Hq1 by auto.
    destruct (IH (S i) st1 Hts1) as (st' & Hrun & Hq' & Hs' & Ha').
    { by rewrite Hms1. }
    { rewrite Hq1. pose proof (length_filter (λ item, item ≠ url) rest).
      cbn [length] in Hfuel. lia. }
    exists st'. split; [done|]. split; [done|].
    split; [by rewrite Hs', Hs1|].
    rewrite Ha', Ha1, Hq1, firsts_filter, <- app_assoc. cbn [firsts app].
    rewrite imap_cons, Nat.add_0_r. do 2 f_equal.
    apply imap_ext. intros j u _. cbn [compose].
    by rewrite Nat.add_succ_r.
Qed.

(** The queue that is seeded from a chunk.txt of strings and nulls. *)
Lemma seed_pages (arr : list json) q :
  JString <$> q = filter (λ v, names_a_page v = true) arr →
  q = omap page_of arr.
Proof.
  revert q. induction arr as [|v arr IH]; intros q.
  - rewrite filter_nil. by intros ->%fmap_nil_inv.
  - destruct (names_a_page v) eqn:Hv.
    + rewrite filter_cons_True by done. destruct q as [|s q]; [done|].
      rewrite fmap_cons. intros [= <- Hrest]. cbn [omap list_omap page_of].
      rewrite Hv. by rewrite <- (IH q).
    + rewrite filter_cons_False by (by rewrite Hv). intros Hrest.
      cbn [omap list_omap]. rewrite <- (IH q Hrest).
      destruct v as [| | |s| |]; try done. cbn [page_of]. by rewrite Hv.
Qed.

(** C3, as the popup does it. Seeded from a chunk.txt of strings and nulls,
    with a browser that lets every iteration run to its end and in which
    the first sign of life of every page comes before the timeout, the run
    ends with an empty stored queue and without a stall. It has written
    exactly one file for every distinct non-blank entry of the list, in the
    order of first occurrence: the file for the reply of that page. An entry
    that repeats an earlier one is removed together with it and gets no file
    of its own. *)
Theorem run_processes_each_distinct_page (arr : list json) b fuel :
  Forall (λ v, string_or_null v = true) arr →
  (∀ i, responsive (b i) = true) →
  (∀ i, timely (heartbeatTimeoutMs initial) (b i) = true) →
  (length arr < fuel)%nat →
  ∃ st,
    handleScrapeClick fuel
      (Some {| ok := true; body := Some (JArray arr) |}) b initial
    = Finished st
    ∧ loadChunkFromStorage st = []
    ∧ stalled st = []
    ∧ artifacts st
      = imap (λ i url, expected_artifact url (b i)) (firsts (omap page_of arr)).
Proof.
  intros Harr Hb Htimely Hfuel.
  destruct (filter_entries_strings arr Harr) as (q & Hfetch & Hq).
  rewrite <- (seed_pages arr q Hq). unfold handleScrapeClick.
  change (loadChunkFromStorage initial) with (@nil jsstring). cbv iota.
  change (fetchChunkFile (Some {| ok := true; body := Some (JArray arr) |}))
    with (filter_entries arr).
  rewrite Hfetch.
  match goal with
  | |- context [processUrls fuel b 0 ?s] =>
      destruct (processUrls_timely fuel b 0 s)
        as (st & Hrun & Hend & Hs & Ha)
  end; [done|done|done| |].
  { change (length q < fuel)%nat.
    assert (length q ≤ length arr)%nat; [|lia].
    rewrite <- (length_fmap JString), Hq. apply length_filter. }
  exists st. split; [exact Hrun|]. split; [done|]. split; [exact Hs|].
  exact Ha.
Qed.

Lemma run_processes_each_distinct_page_witness :
  let arr := [JString page_a; JString page_a; JNull; JString page_b] in
  let b : browser := λ _, prompt [sample_post page_a] in
  Forall (λ v, string_or_null v = true) arr
  ∧ (∀ i, responsive (b i) = true)
  ∧ (∀ i, timely (heartbeatTimeoutMs initial) (b i) = true)
  ∧ (length arr < 5)%nat
  ∧ ∃ st,
      handleScrapeClick 5
        (Some {| ok := true; body := Some (JArray arr) |}) b initial
      = Finished st
      ∧ loadChunkFromStorage st = []
      ∧ stalled st = []
      ∧ artifacts st
        = imap (λ i url, expected_artifact url (b i))
               (firsts (omap page_of arr)).
Proof.
  cbn zeta.
  assert (Forall (λ v, string_or_null v = true)
            [JString page_a; JString page_a; JNull; JString page_b]) as Harr
    by (repeat constructor).
  assert (∀ i : nat, responsive (prompt [sample_post page_a]) = true) as Hb
    by (intros _; reflexivity).
  assert (∀ i : nat, timely (heartbeatTimeoutMs initial)
                            (prompt [sample_post page_a]) = true) as Htimely
    by (intros _; reflexivity).
  assert (length [JString page_a; JString page_a; JNull; JString page_b] < 5)%nat
    as Hfuel by (cbn; lia).
  split; [exact Harr|]. split; [exact Hb|]. split; [exact Htimely|].
  split; [exact Hfuel|].
  exact (run_processes_each_distinct_page _ (λ _, prompt [sample_post page_a])
           5 Harr Hb Htimely Hfuel).
Defined.

(** C3, as stated, fails: a list that names the same page twice leads to one
    file, not two. *)
Lemma duplicate_entry_gets_one_artifact :
  ∃ st, handleScrapeClick 3 (chunk_of [page_a; page_a])
          (λ _, prompt [sample_post page_a]) initial = Finished st
        ∧ loadChunkFromStorage st = []
        ∧ stalled st = []
        ∧ length (artifacts st) = 1%nat
        ∧ length (artifacts st) ≠ length [page_a; page_a].
Proof.
  eexists. split; [vm_compute; reflexivity|].
  split; [reflexivity|]. split; [reflexivity|]. split; [reflexivity|].
  cbn [length]. match goal with |- length ?l ≠ _ =>
    change (length l) with 1%nat end. lia.
Qed.

(** *** Pages that never answer *)

Lemma elapse_forever_disarmed st :
  disarmed st →
  stalled (elapse_forever st) = stalled st
  ∧ artifacts (elapse_forever st) = artifacts st
  ∧ chunk_urls (elapse_forever st) = chunk_urls st.
Proof.
  intros Hd. unfold elapse_forever.
  destruct (fire_disarmed (timeouts st) (set_timeouts [] st) Hd)
    as (-> & -> & -> & _).
  done.
Qed.

Lemma iteration_unanswered url a st :
  active_tab a = true → navigation_completes a = true → answer a = None →
  iteration url a st
  = Waiting (elapse_forever
               (foldl (λ s g, heartbeat g s) (scraping url st) (heartbeats a))).
Proof.
  intros Htab Hnav Hans. unfold iteration, await_scrapeTab.
  by rewrite Htab, Hnav, Hans.
Qed.

(** C5, where the popup departs from it. A page that sends a heartbeat in
    time and then neither sends another nor answers is not skipped: no file
    is written for it, it stays in the stored queue, and the loop waits for
    its answer without end, so that the pages behind it are never reached. *)
Theorem heartbeat_then_silence_blocks_run fuel b i url rest gap gaps st :
  timeouts st = [] → loadChunkFromStorage st = url :: rest →
  active_tab (b i) = true → navigation_completes (b i) = true →
  heartbeats (b i) = gap :: gaps → gap < heartbeatTimeoutMs st →
  answer (b i) = None →
  ∃ st', processUrls (S fuel) b i st = Blocked st'
         ∧ artifacts st' = artifacts st
         ∧ stalled st' = stalled st
         ∧ loadChunkFromStorage st' = url :: rest.
Proof.
  intros Hts Hq Htab Hnav Hbeats Hgap Hans. cbn [processUrls].
  rewrite Hq, (iteration_unanswered _ _ _ Htab Hnav Hans), Hbeats.
  cbn [foldl]. eexists. split; [done|].
  destruct (scraping_armed url st Hts)
    as (t & Harmed & Hid & Hdue & _ & Ha & Hs & Hc).
  destruct (heartbeat_before_deadline gap t (scraping url st) Harmed Hid)
    as (Hd & Hlog & Hc1); [lia|].
  destruct (heartbeats_disarmed gaps _ Hd) as (Hd2 & Hs2 & Ha2 & Hc2).
  destruct (elapse_forever_disarmed _ Hd2) as (Hs3 & Ha3 & Hc3).
  unfold loadChunkFromStorage in *.
  rewrite Hs3, Ha3, Hc3, Hs2, Ha2, Hc2, Hc1, Hc.
  unfold stalled, artifacts in *. by rewrite Hlog.
Qed.

Lemma heartbeat_then_silence_blocks_run_witness :
  timeouts two_pages = []
  ∧ loadChunkFromStorage two_pages = [page_a; page_b]
  ∧ 10000 < heartbeatTimeoutMs two_pages
  ∧ ∃ st', processUrls 3 (λ _, beat_then_silence) 0 two_pages = Blocked st'
           ∧ artifacts st' = artifacts two_pages
           ∧ stalled st' = stalled two_pages
           ∧ loadChunkFromStorage st' = [page_a; page_b].
Proof.
  split; [reflexivity|]. split; [reflexivity|]. split; [reflexivity|].
  exact (heartbeat_then_silence_blocks_run 2 (λ _, beat_then_silence) 0
           page_a [page_b] 10000 [] two_pages
           eq_refl eq_refl eq_refl eq_refl eq_refl eq_refl eq_refl).
Defined.

(** Without any heartbeat the stall handler does skip the silent page, with
    its file, its removal and the queue snapshot, but the loop is still
    waiting for the answer. *)
Lemma silence_blocks_run fuel b i url rest st :
  timeouts st = [] → loadChunkFromStorage st = url :: rest →
  active_tab (b i) = true → navigation_completes (b i) = true →
  heartbeats (b i) = [] → answer (b i) = None →
  ∃ st', processUrls (S fuel) b i st = Blocked st'
         ∧ artifacts st' = artifacts st ++ [skip_artifact url]
         ∧ stalled st' = stalled st ++ [url]
         ∧ loadChunkFromStorage st' = filter (λ item, item ≠ url) rest.
Proof.
  intros Hts Hq Htab Hnav Hbeats Hans. cbn [processUrls].
  rewrite Hq, (iteration_unanswered _ _ _ Htab Hnav Hans), Hbeats.
  cbn [foldl]. eexists. split; [done|].
  destruct (scraping_armed url st Hts)
    as (t & Harmed & Hid & Hdue & Hfn & Ha & Hs & Hc).
  unfold elapse_forever. rewrite Harmed. cbn [foldl]. rewrite Hfn.
  match goal with
  | |- context [run_closure _ ?s] =>
      destruct (run_closure_onTimeout url s) as (-> & -> & -> & _)
  end.
  unfold loadChunkFromStorage in *. unfold stalled, artifacts in *.
  state_simpl. rewrite Ha, Hs, Hc, Hq.
  by rewrite filter_cons_False by auto.
Qed.

(** The failures that reach the [catch] are skipped and the loop goes on:
    the skipped file is written, the page leaves the queue, the snapshot of
    the queue follows, and the next iteration starts. First the missing
    tab. *)
Lemma no_tab_is_skipped fuel b i url rest st :
  loadChunkFromStorage st = url :: rest → active_tab (b i) = false →
  ∃ st', processUrls (S fuel) b i st = processUrls fuel b (S i) st'
         ∧ log st'
           = log st ++ [Status (NavigatingTo url);
                        Console (ErrorScraping url NoActiveTab);
                        Status (ErrorSkipping url);
                        Console (SkippingUrl url);
                        Download (getFilenameForUrl url) (skip_artifact url).2;
                        ChunkUpdated (filter (λ item, item ≠ url) rest)]
         ∧ loadChunkFromStorage st' = filter (λ item, item ≠ url) rest.
Proof.
  intros Hq Htab. cbn [processUrls].
  rewrite Hq, (iteration_no_tab _ _ _ Htab). eexists. split; [done|].
  destruct (on_error_state url NoActiveTab
              (emit (Status (NavigatingTo url)) st)) as [-> _].
  rewrite on_error_log.
  change (loadChunkFromStorage (emit (Status (NavigatingTo url)) st))
    with (loadChunkFromStorage st).
  rewrite Hq, filter_cons_False by auto. state_simpl.
  by rewrite <- app_assoc.
Qed.

(** Then the rejections of [scrapeTab]: a runtime error, or no response. *)
Lemma rejection_is_skipped fuel b i url rest gap r err st :
  timeouts st = [] → loadChunkFromStorage st = url :: rest →
  active_tab (b i) = true → navigation_completes (b i) = true →
  answer (b i) = Some (gap, r) → rejection r = Some err →
  let waiting := pending (b i) gap (scraping url st) in
  ∃ st', processUrls (S fuel) b i st = processUrls fuel b (S i) st'
         ∧ log st'
           = log waiting ++ [Console (ErrorScraping url err);
                             Status (ErrorSkipping url);
                             Console (SkippingUrl url);
                             Download (getFilenameForUrl url)
                                      (skip_artifact url).2;
                             ChunkUpdated (filter (λ item, item ≠ url) rest)]
         ∧ loadChunkFromStorage st' = filter (λ item, item ≠ url) rest.
Proof.
  intros Hts Hq Htab Hnav Hans Hrej waiting. cbn [processUrls].
  rewrite Hq, (iteration_answered _ _ _ _ _ Htab Hnav Hans).
  fold waiting. eexists. split; [done|].
  assert (on_answer url (download_polls (b i)) r waiting
          = on_error url err waiting) as ->.
  { destruct r; cbn in Hrej; by simplify_eq. }
  destruct (waiting_pending url st (b i) gap _ _ (waiting_start url st Hts))
    as (fired & _ & [_ _ Hw _ _]).
  fold waiting in Hw.
  assert (filter (λ item, item ≠ url) (loadChunkFromStorage waiting)
          = filter (λ item, item ≠ url) rest) as Hrest.
  { rewrite Hw, Hq. destruct fired.
    - by rewrite filter_ne_idemp, filter_cons_False by auto.
    - by rewrite filter_cons_False by auto. }
  destruct (on_error_state url err waiting) as [-> _].
  by rewrite on_error_log, Hrest.
Qed.

(** *** Two runs in full *)

(** The example of the specification: two pages, two posts on the first, no
    sign of life from the second. Both files are written and the stored queue
    is empty, but the run does not end: it waits for the second page. *)
Example two_posts_then_a_silent_page :
  let posts := [sample_post page_a; sample_post page_a] in
  let b : browser := λ i, match i with O => prompt posts | _ => silence end in
  ∃ st, handleScrapeClick 5 (chunk_of [page_a; page_b]) b initial = Blocked st
        ∧ artifacts st = [(getFilenameForUrl page_a, CSV.generateCSV posts);
                          skip_artifact page_b]
        ∧ stalled st = [page_b]
        ∧ loadChunkFromStorage st = [].
Proof.
  cbn zeta. eexists. split; [vm_compute; reflexivity|].
  repeat split; vm_compute; reflexivity.
Qed.

(** A page that falls silent for a minute after its first heartbeat and then
    answers is treated as scraped: the only file is the one with its posts. *)
Example silent_minute_goes_unnoticed :
  let posts := [sample_post page_a] in
  ∃ st, handleScrapeClick 5 (chunk_of [page_a]) (λ _, beat_then_late posts)
          initial = Finished st
        ∧ artifacts st = [(getFilenameForUrl page_a, CSV.generateCSV posts)]
        ∧ stalled st = []
        ∧ loadChunkFromStorage st = [].
Proof.
  cbn zeta. eexists. split; [vm_compute; reflexivity|].
  repeat split; vm_compute; reflexivity.
Qed.

End run_facts.

(** * Further properties of popup.js *)

(** ** File names *)

Section filename_facts.
Implicit Types (url seg : jsstring) (sep : N).

Lemma split_nonempty sep (s : jsstring) : split sep s ≠ [].
Proof.
  destruct s as [|c s]; [done|]. cbn [split].
  destruct (decide (c = sep)); [done|]. by destruct (split sep s).
Qed.

Lemma split_app_sep sep (p s : jsstring) :
  split sep (p ++ sep :: s) = split sep p ++ split sep s.
Proof.
  induction p as [|c p IH].
  - cbn [app split]. by rewrite decide_True.
  - cbn [app split]. rewrite IH.
    destruct (decide (c = sep)); [done|].
    pose proof (split_nonempty sep p). by destruct (split sep p).
Qed.

Lemma split_no_sep sep (s : jsstring) : sep ∉ s → split sep s = [s].
Proof.
  induction s as [|c s IH]; [done|]. rewrite not_elem_of_cons.
  intros [Hc Hs]. cbn [split]. rewrite decide_False by auto.
  by rewrite IH.
Qed.

Lemma split_parts_no_sep sep (s : jsstring) :
  Forall (λ part, sep ∉ part) (split sep s).
Proof.
  induction s as [|c s IH]; [repeat constructor; apply not_elem_of_nil|].
  cbn [split]. destruct (decide (c = sep)) as [->|Hc].
  - constructor; [apply not_elem_of_nil|done].
  - destruct (split sep s) as [|h r].
    + repeat constructor. rewrite elem_of_cons, elem_of_nil.
      intros [?|[]]. by apply Hc.
    + apply Forall_cons in IH as [Hh Hr]. constructor; [|done].
      rewrite elem_of_cons. intros [?|?]; [by apply Hc|by apply Hh].
Qed.

Lemma default_name_no_slash : slash ∉ lit "linkedin_page".
Proof. apply (bool_decide_unpack _). by vm_compute. Qed.

Lemma split_only_sep sep (s : jsstring) :
  Forall (λ c, c = sep) s → Forall (λ part, part = []) (split sep s).
Proof.
  induction 1 as [|c s -> _ IH]; [by repeat constructor|].
  cbn [split]. rewrite decide_True by done. by constructor.
Qed.

(** X1. The name that [getFilenameForUrl] gives to a file is a stem
    followed by the extension; the stem is never empty and holds no slash,
    and for a url that is empty or made of slashes only it is
    linkedin_page. *)
Theorem getFilenameForUrl_shape url :
  ∃ stem, getFilenameForUrl url = stem ++ lit ".csv"
          ∧ stem ≠ [] ∧ (slash ∉ stem)
          ∧ (Forall (λ c, c = slash) url → stem = lit "linkedin_page").
Proof.
  unfold getFilenameForUrl. cbn zeta.
  destruct (last (filter (λ part, part ≠ []) (split slash url)))
    as [[|c t]|] eqn:Hlast.
  - exists (lit "linkedin_page"). split; [done|]. split; [done|].
    split; [apply default_name_no_slash|done].
  - exists (c :: t). split; [done|]. split; [done|].
    apply last_Some_elem_of in Hlast.
    apply list_elem_of_filter in Hlast as [_ Hin]. split.
    + pose proof (split_parts_no_sep slash url) as Hall.
      rewrite Forall_forall in Hall. by apply Hall.
    + intros Hurl. apply split_only_sep in Hurl.
      rewrite Forall_forall in Hurl. by specialize (Hurl _ Hin).
  - exists (lit "linkedin_page"). split; [done|]. split; [done|].
    split; [apply default_name_no_slash|done].
Qed.

(** X2. The file name depends on the last path segment alone: whatever
    precedes the last slash, a url that ends in the non-empty segment [seg]
    gets the name [seg] with the extension. Two pages with the same last
    segment therefore get the same file name. *)
Theorem getFilenameForUrl_last_segment (before seg : jsstring) :
  seg ≠ [] → slash ∉ seg →
  getFilenameForUrl (before ++ slash :: seg) = seg ++ lit ".csv".
Proof.
  intros Hne Hseg. unfold getFilenameForUrl. cbn zeta.
  rewrite split_app_sep, (split_no_sep _ seg) by done.
  rewrite filter_app, filter_cons_True by done.
  rewrite filter_nil, last_snoc. by destruct seg.
Qed.

Lemma getFilenameForUrl_last_segment_witness :
  lit "a" ≠ [] ∧ (slash ∉ lit "a")
  ∧ getFilenameForUrl (lit "https://x" ++ slash :: lit "a")
    = lit "a" ++ lit ".csv"
  ∧ getFilenameForUrl (lit "https://y/z" ++ slash :: lit "a")
    = lit "a" ++ lit ".csv".
Proof.
  assert (lit "a" ≠ []) as Hne by done.
  assert (slash ∉ lit "a") as Hseg
    by (apply (bool_decide_unpack _); by vm_compute).
  split; [exact Hne|]. split; [exact Hseg|]. split.
  - exact (getFilenameForUrl_last_segment (lit "https://x") (lit "a") Hne Hseg).
  - exact (getFilenameForUrl_last_segment (lit "https://y/z") (lit "a")
             Hne Hseg).
Defined.

(** X3. A slash at the end of the url is ignored. *)
Theorem getFilenameForUrl_trailing_slash url :
  getFilenameForUrl (url ++ [slash]) = getFilenameForUrl url.
Proof.
  unfold getFilenameForUrl. cbn zeta.
  rewrite split_app_sep. cbn [split].
  rewrite filter_app, filter_cons_False by auto.
  by rewrite filter_nil, app_nil_r.
Qed.

End filename_facts.

(** ** Waiting for the download *)

Section download_facts.

Lemma starts_with_spec (needle hay : jsstring) :
  starts_with needle hay = true ↔ ∃ rest, hay = needle ++ rest.
Proof.
  revert hay. induction needle as [|c needle IH]; intros hay.
  - cbn. split; [by exists hay|done].
  - destruct hay as [|d hay]; cbn [starts_with].
    + split; [done|]. by intros [rest ?].
    + rewrite andb_true_iff, bool_decide_eq_true, IH. split.
      * intros [-> [rest ->]]. by exists rest.
      * intros [rest [= -> ->]]. split; [done|by exists rest].
Qed.

(** [includes] is the search for a contiguous occurrence. *)
Lemma includes_spec (needle hay : jsstring) :
  includes needle hay = true ↔ ∃ pre post, hay = pre ++ needle ++ post.
Proof.
  induction hay as [|d hay IH]; cbn [includes].
  - rewrite starts_with_spec. split.
    + intros [rest Heq]. exists [], rest. done.
    + intros (pre & post & Heq). symmetry in Heq.
      apply app_eq_nil in Heq as [-> Heq].
      apply app_eq_nil in Heq as [-> ->]. by exists [].
  - rewrite orb_true_iff, starts_with_spec, IH. split.
    + intros [[rest ->]|(pre & post & ->)].
      * by exists [], rest.
      * by exists (d :: pre), post.
    + intros (pre & post & Heq). destruct pre as [|d' pre].
      * left. by exists post.
      * injection Heq as -> ->. right. by exists pre, post.
Qed.

(** X4. [isFileDownloaded] reports the file as downloaded exactly when the
    search succeeded and some listed download has a non-empty file name in
    which the name occurs as a contiguous part; a failed search counts as
    not downloaded. *)
Theorem isFileDownloaded_spec (filename : jsstring) (s : search) :
  isFileDownloaded filename s = true
  ↔ ∃ results r f pre post,
      s = SearchResults results ∧ r ∈ results
      ∧ item_filename r = Some f ∧ f ≠ []
      ∧ f = pre ++ filename ++ post.
Proof.
  destruct s as [| |results]; cbn [isFileDownloaded].
  - split; [done|]. by intros (? & ? & ? & ? & ? & ? & _).
  - split; [done|]. by intros (? & ? & ? & ? & ? & ? & _).
  - rewrite existsb_exists. split.
    + intros (r & Hr%list_elem_of_In & Hf).
      destruct (item_filename r) as [[|c f]|] eqn:Hname; try done.
      apply includes_spec in Hf as (pre & post & Hf).
      by exists results, r, (c :: f), pre, post.
    + intros (results' & r & f & pre & post & [= <-] & Hr & Hname & Hne & Hf).
      exists r. split; [by apply list_elem_of_In|]. rewrite Hname.
      destruct f as [|c f]; [done|]. apply includes_spec. by exists pre, post.
Qed.

(** X5. [waitForFileDownload] gives up after ten polls: it answers true
    exactly when one of the first ten polls finds the file. *)
Theorem waitForFileDownload_spec (polls : list bool) :
  waitForFileDownload 10 polls = true
  ↔ ∃ i, (i < 10)%nat ∧ polls !! i = Some true.
Proof.
  generalize 10%nat as maxAttempts. intros maxAttempts. revert polls.
  induction maxAttempts as [|n IH]; intros polls; cbn [waitForFileDownload].
  - split; [done|]. intros (i & Hi & _). lia.
  - destruct polls as [|found later].
    + split; [done|]. by intros (i & _ & ?).
    + destruct found.
      * split; [|done]. intros _. exists 0%nat. split; [lia|done].
      * rewrite IH. split.
        -- intros (i & Hi & Hp). exists (S i). split; [lia|done].
        -- intros ([|i] & Hi & Hp); [done|]. exists i. split; [lia|done].
Qed.

End download_facts.

(** ** Reading chunk.txt *)

Section seed_errors.

Lemma keep_entry_total (u : json) :
  keep_entry u
  = if breaks_filter u then inl TypeError else inr (names_a_page u).
Proof.
  destruct u as [|[]|n|s| |]; try done.
  - cbn [keep_entry breaks_filter].
    destruct (decide (n = 0%Z)) as [->|Hn]; [done|].
    by rewrite bool_decide_false.
  - cbn [breaks_filter]. by apply keep_entry_string_or_null.
Qed.

(** X6. What [fetchChunkFile] makes of a chunk.txt that holds a JSON array:
    one entry that is truthy without being a string (true, a number other
    than zero, an array, an object) makes the whole read fail with a type
    error, however many good entries there are; otherwise the result is the
    list of the strings with a character other than white space, and null,
    false, zero, empty and blank strings are dropped without notice. *)
Theorem fetchChunkFile_array (arr : list json) :
  fetchChunkFile (Some {| ok := true; body := Some (JArray arr) |})
  = if existsb breaks_filter arr then inl TypeError
    else inr (omap page_of arr).
Proof.
  unfold fetchChunkFile. cbn [ok body negb].
  induction arr as [|u arr IH]; [done|].
  cbn [filter_entries existsb]. rewrite keep_entry_total.
  destruct (breaks_filter u) eqn:Hu; [done|]. cbn [orb]. rewrite IH.
  destruct (existsb breaks_filter arr); [done|].
  destruct u as [| | |s| |]; try done.
  cbn [omap list_omap page_of]. by destruct (names_a_page (JString s)).
Qed.

End seed_errors.

(** ** The heartbeat timer as a whole *)

Section deadline_facts.
Implicit Types (st : state) (t : timeout) (f : closure) (op : timer_op).

Lemma fire_timers (ts : list timeout) st :
  timeouts (foldl (λ s t, run_closure (fn t) s) st ts) = timeouts st
  ∧ heartbeatTimer (foldl (λ s t, run_closure (fn t) s) st ts)
    = heartbeatTimer st.
Proof.
  revert st. induction ts as [|t ts IH]; intros st; [done|].
  cbn [foldl]. destruct (IH (run_closure (fn t) st)) as [-> ->].
  by destruct (fn t).
Qed.

Lemma single_deadline_elapse ms st :
  single_deadline st → single_deadline (elapse ms st).
Proof.
  intros [Hlen Hid]. unfold elapse, single_deadline.
  match goal with
  | |- context [foldl ?step ?s ?ts] =>
      destruct (fire_timers ts s) as [-> ->]
  end.
  state_simpl. split.
  - pose proof (length_filter (λ t, ¬ due t ≤ clock st + ms) (timeouts st)).
    lia.
  - intros t [_ Ht]%list_elem_of_filter. by apply Hid.
Qed.

Lemma single_deadline_clear st :
  single_deadline st →
  timeouts (clearHeartbeatTimer st) = []
  ∧ heartbeatTimer (clearHeartbeatTimer st) = None.
Proof.
  intros [Hlen Hid]. unfold clearHeartbeatTimer.
  destruct (heartbeatTimer st) as [id|] eqn:Hhb.
  - state_simpl. split; [|done].
    destruct (timeouts st) as [|t [|t' ts]]; [done| |cbn in Hlen; lia].
    assert (Some id = Some (tid t)) as [= ->] by (apply Hid; by left).
    by rewrite filter_cons_False by auto.
  - split; [|done].
    destruct (timeouts st) as [|t ts]; [done|].
    by assert (None = Some (tid t)) by (apply Hid; by left).
Qed.

Lemma single_deadline_reset st :
  single_deadline st → single_deadline (resetHeartbeatTimer st).
Proof.
  intros Hsd. pose proof Hsd as [Hlen Hid]. unfold resetHeartbeatTimer.
  destruct (heartbeatTimer st) as [id|] eqn:Hhb; [|done].
  assert (filter (λ t, tid t ≠ id) (timeouts st) = []) as Hclear.
  { destruct (timeouts st) as [|t [|t' ts]]; [done| |cbn in Hlen; lia].
    assert (Some id = Some (tid t)) as [= ->] by (apply Hid; by left).
    by rewrite filter_cons_False by auto. }
  unfold single_deadline. state_simpl. rewrite Hclear. cbn [app length].
  split; [lia|]. by intros t ->%list_elem_of_singleton.
Qed.

Lemma single_deadline_start f st :
  single_deadline st → single_deadline (startHeartbeatTimer f st).
Proof.
  intros Hsd. destruct (single_deadline_clear st Hsd) as [Hts Hhb].
  unfold startHeartbeatTimer, single_deadline.
  generalize dependent (clearHeartbeatTimer st). intros st1 Hts Hhb.
  state_simpl. rewrite Hts. cbn [app length].
  split; [lia|]. by intros t ->%list_elem_of_singleton.
Qed.

(** X7. However the heartbeat timer is driven (started, reset by
    heartbeats, cleared, left to expire, in any order and any number of
    times), at most one timeout is pending at any moment, and the variable
    [heartbeatTimer] holds its id: no timeout is ever orphaned. *)
Theorem single_deadline_always (ops : list timer_op) :
  single_deadline (foldl (λ s op, timer_step op s) initial ops).
Proof.
  assert (single_deadline initial) as Hinit.
  { split; [cbn; lia|]. by intros t ?%elem_of_nil. }
  revert Hinit. generalize initial as st. induction ops as [|op ops IH];
    intros st Hsd; [done|].
  cbn [foldl]. apply IH. destruct op as [f|gap| |ms]; cbn [timer_step].
  - by apply single_deadline_start.
  - by apply single_deadline_reset, single_deadline_elapse.
  - destruct (single_deadline_clear st Hsd) as [Hts Hhb].
    unfold single_deadline. rewrite Hts, Hhb.
    split; [cbn; lia|]. by intros t ?%elem_of_nil.
  - by apply single_deadline_elapse.
Qed.

(** An idle timer: nothing pending, the variable is null. *)
Lemma idle_step op st :
  passive op = true →
  timeouts st = [] → heartbeatTimer st = None →
  timeouts (timer_step op st) = [] ∧ heartbeatTimer (timer_step op st) = None
  ∧ log (timer_step op st) = log st
  ∧ chunk_urls (timer_step op st) = chunk_urls st.
Proof.
  intros Hop Hts Hhb. destruct op as [f|gap| |ms]; [done| | |];
    cbn [timer_step].
  - unfold heartbeat. rewrite (elapse_nil _ _ Hts).
    unfold resetHeartbeatTimer. state_simpl. by rewrite Hhb.
  - unfold clearHeartbeatTimer. by rewrite Hhb.
  - by rewrite (elapse_nil _ _ Hts).
Qed.

(** X8. Clearing the timer cancels it for good: whatever heartbeats arrive
    and however much time passes after [clearHeartbeatTimer], nothing is
    written and the stored queue is not touched, until the timer is started
    again. *)
Theorem clearHeartbeatTimer_cancels (before after : list timer_op) :
  forallb passive after = true →
  let st := clearHeartbeatTimer (foldl (λ s op, timer_step op s) initial before) in
  let st' := foldl (λ s op, timer_step op s) st after in
  log st' = log st ∧ chunk_urls st' = chunk_urls st
  ∧ timeouts st' = [] ∧ heartbeatTimer st' = None.
Proof.
  intros Hafter.
  destruct (single_deadline_clear _ (single_deadline_always before))
    as [Hts Hhb].
  cbn zeta.
  generalize dependent
    (clearHeartbeatTimer (foldl (λ s op, timer_step op s) initial before)).
  intros st. revert st.
  induction after as [|op after IH]; intros st Hts Hhb; [done|].
  cbn [forallb] in Hafter. apply andb_true_iff in Hafter as [Hop Hafter].
  cbn [foldl].
  destruct (idle_step op st Hop Hts Hhb) as (Hts' & Hhb' & <- & <-).
  by apply IH.
Qed.

Lemma clearHeartbeatTimer_cancels_witness :
  let before := [Arm (OnTimeout page_a); Beat 1000] in
  let after := [Wait 100000; Beat 5; Wait 100000] in
  forallb passive after = true
  ∧ let st := clearHeartbeatTimer
                (foldl (λ s op, timer_step op s) initial before) in
    let st' := foldl (λ s op, timer_step op s) st after in
    log st' = log st ∧ chunk_urls st' = chunk_urls st
    ∧ timeouts st' = [] ∧ heartbeatTimer st' = None.
Proof.
  split; [reflexivity|].
  exact (clearHeartbeatTimer_cancels [Arm (OnTimeout page_a); Beat 1000]
           [Wait 100000; Beat 5; Wait 100000] eq_refl).
Defined.

Lemma heartbeat_after_deadline url gap t st :
  timeouts st = [t] → fn t = OnTimeout url → due t ≤ clock st + gap →
  disarmed (heartbeat gap st)
  ∧ stalled (heartbeat gap st) = stalled st ++ [url]
  ∧ artifacts (heartbeat gap st) = artifacts st ++ [skip_artifact url].
Proof.
  intros Hts Hfn Hdue. unfold heartbeat.
  rewrite (elapse_due gap _ _ Hts Hdue), Hfn.
  match goal with
  | |- context [run_closure _ ?s] =>
      destruct (run_closure_onTimeout url s) as (Hs & Ha & _ & Hts' & _);
      generalize dependent (run_closure (OnTimeout url) s)
  end.
  intros st1 Hs Ha Hts1.
  assert (disarmed st1) as Hd.
  { intros t'. cbn [timeouts set_clock set_timeouts] in Hts1.
    rewrite Hts1. by intros ?%elem_of_nil. }
  destruct (resetHeartbeatTimer_disarmed st1 Hd) as (Hd' & _).
  split; [done|]. unfold stalled, artifacts in *.
  by rewrite resetHeartbeatTimer_log.
Qed.

(** X9. When the stall handler runs. With the timer started for [url] and
    nothing else pending, the handler runs exactly when the first event
    after the start (the first heartbeat, or the end of the wait if there is
    none) comes no earlier than the timeout; it then runs once and writes the
    skipped file. What happens after the first heartbeat, in time or not, has
    no influence. *)
Theorem monitor_stalls_iff url (gaps : list N) (wait : N) st :
  timeouts st = [] →
  let first := default wait (head gaps) in
  let late := bool_decide (heartbeatTimeoutMs st ≤ first) in
  stalled (monitor url gaps wait st)
  = stalled st ++ (if late then [url] else [])
  ∧ artifacts (monitor url gaps wait st)
    = artifacts st ++ (if late then [skip_artifact url] else []).
Proof.
  intros Hts. cbn zeta.
  destruct (startHeartbeatTimer_armed (OnTimeout url) st Hts)
    as (Harmed & Hid & Hclock & Hlog & Hchunk & Hms).
  cbn zeta in *. unfold monitor.
  assert (stalled (startHeartbeatTimer (OnTimeout url) st) = stalled st)
    as Hs0 by (unfold stalled; by rewrite Hlog).
  assert (artifacts (startHeartbeatTimer (OnTimeout url) st) = artifacts st)
    as Ha0 by (unfold artifacts; by rewrite Hlog).
  generalize dependent (startHeartbeatTimer (OnTimeout url) st).
  intros st1 Harmed Hid Hclock Hlog Hchunk Hms Hs0 Ha0.
  destruct gaps as [|gap gaps]; cbn [head default from_option id foldl].
  - case_bool_decide as Hlate.
    + rewrite (elapse_due wait _ _ Harmed) by (cbn [due]; lia). cbn [fn].
      match goal with
      | |- context [run_closure _ ?s] =>
          destruct (run_closure_onTimeout url s) as (-> & -> & _)
      end.
      by rewrite <- Hs0, <- Ha0.
    + rewrite (elapse_not_due wait _ _ Harmed) by (cbn [due]; lia).
      by rewrite !app_nil_r, <- Hs0, <- Ha0.
  - assert (∃ st2, st2 = heartbeat gap st1) as [st2 Hst2] by by eexists.
    rewrite <- Hst2.
    assert (disarmed st2
            ∧ stalled st2
              = stalled st ++ (if bool_decide (heartbeatTimeoutMs st ≤ gap)
                               then [url] else [])
            ∧ artifacts st2
              = artifacts st ++ (if bool_decide (heartbeatTimeoutMs st ≤ gap)
                                 then [skip_artifact url] else []))
      as (Hd & Hs & Ha).
    { subst st2. case_bool_decide as Hlate.
      - destruct (heartbeat_after_deadline url gap _ st1 Harmed eq_refl)
          as (Hd & -> & ->); [cbn [due]; lia|].
        by rewrite Hs0, Ha0.
      - destruct (heartbeat_before_deadline gap _ st1 Harmed Hid)
          as (Hd & Hlog' & _); [cbn [due]; lia|].
        split; [done|]. rewrite !app_nil_r, <- Hs0, <- Ha0.
        unfold stalled, artifacts. by rewrite Hlog'. }
    destruct (heartbeats_disarmed gaps _ Hd) as (Hd' & Hs' & Ha' & _).
    destruct (elapse_disarmed wait _ Hd') as (_ & Hs'' & Ha'' & _).
    by rewrite Hs'', Ha'', Hs', Ha', Hs, Ha.
Qed.

Lemma monitor_stalls_iff_witness :
  timeouts initial = []
  ∧ stalled (monitor page_a [31000; 2000] 5000 initial) = [page_a]
  ∧ artifacts (monitor page_a [31000; 2000] 5000 initial)
    = [skip_artifact page_a]
  ∧ stalled (monitor page_a [2000; 31000] 50000 initial) = [].
Proof.
  split; [reflexivity|].
  destruct (monitor_stalls_iff page_a [31000; 2000] 5000 initial eq_refl)
    as [Hs Ha].
  destruct (monitor_stalls_iff page_a [2000; 31000] 50000 initial eq_refl)
    as [Hs' _].
  split; [exact Hs|]. split; [exact Ha|]. exact Hs'.
Defined.

End deadline_facts.

(** ** The run as a whole *)

Section whole_run_facts.
Implicit Types (url : jsstring) (st : state) (q : list jsstring) (b : browser).

(** X11. Resuming. When urls are stored, chunk.txt plays no part in the run,
    whatever it holds; with a browser that lets every iteration run to its
    end the run finishes with the storage empty, having gone through the
    distinct stored urls in the order of their first occurrence. *)
Theorem resume_uses_the_stored_queue fuel chunk_txt b st :
  timeouts st = [] → loadChunkFromStorage st ≠ [] →
  (∀ i, responsive (b i) = true) →
  (length (loadChunkFromStorage st) < fuel)%nat →
  (∀ other, handleScrapeClick fuel other b st
            = handleScrapeClick fuel chunk_txt b st)
  ∧ ∃ st' skipped,
      handleScrapeClick fuel chunk_txt b st = Finished st'
      ∧ loadChunkFromStorage st' = []
      ∧ stalled st' = stalled st ++ skipped
      ∧ (skipped = [] →
         (artifacts st').*1
         = (artifacts st).*1
           ++ (getFilenameForUrl <$> firsts (loadChunkFromStorage st))).
Proof.
  intros Hts Hq Hb Hfuel. unfold handleScrapeClick.
  destruct (loadChunkFromStorage st) as [|url rest] eqn:Hload; [done|].
  split; [done|].
  destruct (emit_status_silent (ResumingWith (length (url :: rest))) st)
    as [Ha Hs].
  destruct (processUrls_finishes fuel b 0
              (emit (Status (ResumingWith (length (url :: rest)))) st))
    as (st' & skipped & Hrun & Hend & Hs' & _ & Hnames).
  { done. }
  { done. }
  { change (loadChunkFromStorage
              (emit (Status (ResumingWith (length (url :: rest)))) st))
      with (loadChunkFromStorage st). by rewrite Hload. }
  exists st', skipped. split; [exact Hrun|]. split; [done|].
  rewrite Hs in Hs'. split; [done|]. intros Hnil.
  rewrite (Hnames Hnil), Ha.
  change (loadChunkFromStorage
            (emit (Status (ResumingWith (length (url :: rest)))) st))
    with (loadChunkFromStorage st). by rewrite Hload.
Qed.

Lemma resume_uses_the_stored_queue_witness :
  let b : browser := λ _, prompt [sample_post page_a] in
  timeouts two_pages = [] ∧ loadChunkFromStorage two_pages ≠ []
  ∧ (∀ i, responsive (b i) = true)
  ∧ (length (loadChunkFromStorage two_pages) < 3)%nat
  ∧ (∀ other, handleScrapeClick 3 other b two_pages
              = handleScrapeClick 3 None b two_pages)
  ∧ ∃ st' skipped,
      handleScrapeClick 3 None b two_pages = Finished st'
      ∧ loadChunkFromStorage st' = []
      ∧ stalled st' = stalled two_pages ++ skipped
      ∧ (skipped = [] →
         (artifacts st').*1
         = (artifacts two_pages).*1
           ++ (getFilenameForUrl <$> firsts (loadChunkFromStorage two_pages))).
Proof.
  cbn zeta.
  assert (loadChunkFromStorage two_pages ≠ []) as Hq by done.
  assert (∀ i : nat, responsive (prompt [sample_post page_a]) = true) as Hb
    by (intros _; reflexivity).
  assert (length (loadChunkFromStorage two_pages) < 3)%nat as Hfuel
    by (cbn; lia).
  split; [reflexivity|]. split; [exact Hq|]. split; [exact Hb|].
  split; [exact Hfuel|].
  exact (resume_uses_the_stored_queue 3 None
           (λ _, prompt [sample_post page_a]) two_pages eq_refl Hq Hb Hfuel).
Defined.

(** *** The queue only shrinks *)

Lemma within_emit q0 e st :
  match e with
  | ChunkUpdated remaining => remaining `sublist_of` q0
  | _ => True
  end →
  within q0 st → within q0 (emit e st).
Proof.
  intros He [Hq Hlog]. split; [done|]. state_simpl.
  apply Forall_app. split; [done|]. by constructor.
Qed.

Lemma within_same q0 st st' :
  chunk_urls st' = chunk_urls st → log st' = log st →
  within q0 st → within q0 st'.
Proof.
  intros Hc Hl [Hq Hlog]. unfold within, loadChunkFromStorage in *.
  by rewrite Hc, Hl.
Qed.

Lemma within_remove q0 url st :
  within q0 st → within q0 (removeUrlFromStorage url st).
Proof.
  intros [Hq Hlog]. split; [|done]. rewrite loadChunk_remove.
  etrans; [apply sublist_filter|done].
Qed.

Lemma within_skipUrl q0 url st : within q0 st → within q0 (skipUrl url st).
Proof.
  intros Hw. unfold skipUrl, downloadUpdatedChunkFile, downloadOneRowCSV,
    downloadCSV.
  apply within_emit;
    [|apply within_remove; by repeat (apply within_emit; [done|])].
  change (loadChunkFromStorage
            (removeUrlFromStorage url
               (emit (Download (getFilenameForUrl url)
                               (CSV.oneRowCSV url (lit "skipped")
                                              (lit "no post or error")))
                     (emit (Console (SkippingUrl url)) st))))
    with (filter (λ item, item ≠ url) (loadChunkFromStorage st)).
  destruct Hw as [Hq _]. etrans; [apply sublist_filter|done].
Qed.

Lemma within_run_closure q0 f st : within q0 st → within q0 (run_closure f st).
Proof.
  intros Hw. destruct f as [url|]; cbn [run_closure].
  - apply within_skipUrl. by apply within_emit.
  - by apply within_emit.
Qed.

Lemma within_fire q0 (ts : list timeout) st :
  within q0 st → within q0 (foldl (λ s t, run_closure (fn t) s) st ts).
Proof.
  revert st. induction ts as [|t ts IH]; intros st Hw; [done|].
  cbn [foldl]. by apply IH, within_run_closure.
Qed.

Lemma within_elapse q0 ms st : within q0 st → within q0 (elapse ms st).
Proof.
  intros Hw. unfold elapse. apply within_fire.
  by apply (within_same q0 st).
Qed.

Lemma within_elapse_forever q0 st :
  within q0 st → within q0 (elapse_forever st).
Proof.
  intros Hw. unfold elapse_forever. apply within_fire.
  by apply (within_same q0 st).
Qed.

Lemma resetHeartbeatTimer_chunk_urls st :
  chunk_urls (resetHeartbeatTimer st) = chunk_urls st.
Proof. unfold resetHeartbeatTimer. by destruct (heartbeatTimer st). Qed.

Lemma startHeartbeatTimer_chunk_urls f st :
  chunk_urls (startHeartbeatTimer f st) = chunk_urls st.
Proof. unfold startHeartbeatTimer. apply clearHeartbeatTimer_chunk_urls. Qed.

Lemma within_heartbeats q0 (gaps : list N) st :
  within q0 st → within q0 (foldl (λ s g, heartbeat g s) st gaps).
Proof.
  revert st. induction gaps as [|g gaps IH]; intros st Hw; [done|].
  cbn [foldl]. apply IH. unfold heartbeat.
  eapply within_same;
    [apply resetHeartbeatTimer_chunk_urls|apply resetHeartbeatTimer_log|].
  by apply within_elapse.
Qed.

Lemma within_clear q0 st : within q0 st → within q0 (clearHeartbeatTimer st).
Proof.
  apply within_same;
    [apply clearHeartbeatTimer_chunk_urls|apply clearHeartbeatTimer_log].
Qed.

Lemma within_on_error q0 url err st :
  within q0 st → within q0 (on_error url err st).
Proof.
  intros Hw. unfold on_error.
  apply within_skipUrl, within_clear.
  by repeat (apply within_emit; [done|]).
Qed.

Lemma within_snapshot q0 st :
  within q0 st → within q0 (downloadUpdatedChunkFile st).
Proof. intros Hw. apply within_emit; [by destruct Hw|done]. Qed.

Lemma within_on_scraped q0 url polls scrapedData st :
  within q0 st → within q0 (on_scraped url polls scrapedData st).
Proof.
  intros Hw%within_clear. unfold on_scraped.
  generalize dependent (clearHeartbeatTimer st). intros st1 Hw.
  destruct scrapedData as [|item rest].
  - apply within_snapshot, within_remove.
    unfold downloadOneRowCSV, downloadCSV.
    by repeat (apply within_emit; [done|]).
  - destruct (is_no_post_record (item :: rest)).
    + apply within_snapshot, within_remove. unfold downloadCSV.
      by repeat (apply within_emit; [done|]).
    + apply within_emit; [done|]. apply within_snapshot, within_remove.
      unfold downloadCSV.
      destruct (waitForFileDownload 10 polls);
        by repeat (apply within_emit; [done|]).
Qed.

Lemma within_on_answer q0 url polls r st :
  within q0 st → within q0 (on_answer url polls r st).
Proof.
  destruct r; cbn [on_answer]; auto using within_on_error, within_on_scraped.
Qed.

Lemma within_iteration q0 url a st st' :
  iteration url a st = Continue st' ∨ iteration url a st = Waiting st' →
  within q0 st → within q0 st'.
Proof.
  intros Hstep Hw. unfold iteration in Hstep.
  assert (within q0 (emit (Status (NavigatingTo url)) st)) as Hw0
    by by apply within_emit.
  destruct (active_tab a); cbn [negb] in Hstep.
  2:{ destruct Hstep as [[= <-]|?]; [|done]. by apply within_on_error. }
  destruct (navigation_completes a); cbn [negb] in Hstep.
  2:{ by destruct Hstep as [?|[= <-]]. }
  assert (within q0 (emit (Status (Scraping url))
                       (startHeartbeatTimer (OnTimeout url)
                          (emit (Status (NavigatingTo url)) st)))) as Hw1.
  { apply within_emit; [done|].
    eapply within_same;
      [apply startHeartbeatTimer_chunk_urls|apply startHeartbeatTimer_log|].
    done. }
  unfold await_scrapeTab, pending in Hstep.
  destruct (answer a) as [[gap r]|].
  - destruct Hstep as [[= <-]|?]; [|done].
    by apply within_on_answer, within_elapse, within_heartbeats.
  - destruct Hstep as [?|[= <-]]; [done|].
    by apply within_elapse_forever, within_heartbeats.
Qed.

Lemma within_processUrls q0 fuel b i st :
  within q0 st →
  match processUrls fuel b i st with
  | Finished st' | Fatal st' | Blocked st' => within q0 st'
  | OutOfFuel => True
  end.
Proof.
  revert i st. induction fuel as [|fuel IH]; intros i st Hw; [done|].
  cbn [processUrls]. destruct (loadChunkFromStorage st) as [|url rest].
  - by apply within_emit.
  - destruct (iteration url (b i) st) as [st1|st1] eqn:Hit.
    + apply IH. eapply within_iteration; eauto.
    + eapply within_iteration; eauto.
Qed.

(** X12. A run never puts a url into the queue. Started with nothing written
    yet, on the stored queue [q] or, when that is empty, on the list read
    from chunk.txt, the run ends (finished, blocked or fatal) with a stored
    queue, and with every chunk-updated.txt written on the way, that arises
    from that list by leaving entries out: nothing is added, nothing is
    reordered. *)
Theorem queue_only_shrinks fuel chunk_txt b q :
  let q0 := match q with [] => seed_of chunk_txt | _ => q end in
  match handleScrapeClick fuel chunk_txt b (saveChunkToStorage q initial) with
  | Finished st' | Fatal st' | Blocked st' => within q0 st'
  | OutOfFuel => True
  end.
Proof.
  cbn zeta. unfold handleScrapeClick, seed_of.
  change (loadChunkFromStorage (saveChunkToStorage q initial)) with q.
  destruct q as [|url rest].
  - destruct (fetchChunkFile chunk_txt) as [e|listFromFile].
    + split; [apply sublist_nil_l|]. by repeat constructor.
    + apply within_processUrls. split; [done|]. by repeat constructor.
  - apply within_processUrls. split; [done|]. by repeat constructor.
Qed.

(** *** The last snapshot *)

Lemma last_snapshot_app st st' evs q :
  log st' = log st ++ evs →
  last (omap (λ e, match e with
                   | ChunkUpdated remaining => Some remaining
                   | _ => None
                   end) evs) = Some q →
  last_snapshot st' = Some q.
Proof.
  intros Hlog Hlast. unfold last_snapshot.
  by rewrite Hlog, omap_app, last_app, Hlast.
Qed.

Lemma last_snapshot_emit_status (s : status) st :
  last_snapshot (emit (Status s) st) = last_snapshot st.
Proof.
  unfold last_snapshot. state_simpl. rewrite omap_app. cbn [omap list_omap].
  by rewrite app_nil_r.
Qed.

Lemma on_error_snapshot url err st :
  last_snapshot (on_error url err st)
  = Some (loadChunkFromStorage (on_error url err st)).
Proof.
  destruct (on_error_state url err st) as [-> _].
  eapply last_snapshot_app; [apply on_error_log|done].
Qed.

(** Handling the answer ends with a snapshot of the queue as it is stored. *)
Lemma on_answer_snapshot url polls r st :
  last_snapshot (on_answer url polls r st)
  = Some (loadChunkFromStorage (on_answer url polls r st)).
Proof.
  destruct r as [message| |data]; cbn [on_answer];
    [apply on_error_snapshot..|].
  generalize (default [] data) as scrapedData. intros scrapedData.
  destruct (on_scraped_state url polls scrapedData st) as [-> _].
  eapply last_snapshot_app; [apply on_scraped_log|]. cbn zeta.
  destruct scrapedData as [|item rest]; [done|].
  destruct (is_no_post_record (item :: rest)); [done|].
  by destruct (waitForFileDownload 10 polls).
Qed.

Lemma iteration_snapshot url a st st' :
  iteration url a st = Continue st' →
  last_snapshot st' = Some (loadChunkFromStorage st').
Proof.
  unfold iteration, await_scrapeTab.
  destruct (active_tab a); cbn [negb].
  2:{ intros [= <-]. apply on_error_snapshot. }
  destruct (navigation_completes a); cbn [negb]; [|done].
  destruct (answer a) as [[gap r]|]; [|done].
  intros [= <-]. apply on_answer_snapshot.
Qed.

Lemma processUrls_snapshot fuel b i st st' :
  processUrls fuel b i st = Finished st' →
  last_snapshot st = Some (loadChunkFromStorage st)
  ∨ loadChunkFromStorage st ≠ [] →
  last_snapshot st' = Some [].
Proof.
  revert i st. induction fuel as [|fuel IH]; intros i st; [done|].
  cbn [processUrls]. destruct (loadChunkFromStorage st) as [|url rest] eqn:Hq.
  - intros [= <-] [Hlast|?]; [|done]. by rewrite last_snapshot_emit_status.
  - destruct (iteration url (b i) st) as [st1|st1] eqn:Hit; [|done].
    intros Hrun _. apply (IH _ _ Hrun). left.
    by apply (iteration_snapshot url (b i) st).
Qed.

(** X13. When a run that had at least one url to process finishes, the
    chunk-updated.txt written last holds the empty list: the external record
    of the remaining urls ends up agreeing with the storage. *)
Theorem finished_run_leaves_empty_snapshot fuel chunk_txt b st st' :
  handleScrapeClick fuel chunk_txt b st = Finished st' →
  loadChunkFromStorage st ≠ [] ∨ seed_of chunk_txt ≠ [] →
  last_snapshot st' = Some [] ∧ loadChunkFromStorage st' = [].
Proof.
  intros Hrun Hsome.
  assert (loadChunkFromStorage st' = []) as Hend.
  { clear Hsome. unfold handleScrapeClick in Hrun.
    assert (∀ fuel i s, processUrls fuel b i s = Finished st' →
                        loadChunkFromStorage st' = []) as Hloop.
    { clear. intros fuel. induction fuel as [|fuel IH]; intros i s; [done|].
      cbn [processUrls].
      destruct (loadChunkFromStorage s) as [|url rest] eqn:Hq.
      - intros [= <-]. exact Hq.
      - destruct (iteration url (b i) s); [apply IH|done]. }
    destruct (loadChunkFromStorage st); [|by eapply Hloop].
    destruct (fetchChunkFile chunk_txt); [done|by eapply Hloop]. }
  split; [|done]. unfold handleScrapeClick, seed_of in *.
  destruct (loadChunkFromStorage st) as [|url rest] eqn:Hq.
  - destruct (fetchChunkFile chunk_txt) as [e|listFromFile]; [done|].
    destruct Hsome as [?|Hseed]; [done|].
    apply (processUrls_snapshot _ _ _ _ _ Hrun). by right.
  - apply (processUrls_snapshot _ _ _ _ _ Hrun). right.
    change (loadChunkFromStorage
              (emit (Status (ResumingWith (length (url :: rest)))) st))
      with (loadChunkFromStorage st). by rewrite Hq.
Qed.

Lemma finished_run_leaves_empty_snapshot_witness :
  ∃ st', handleScrapeClick 3 (chunk_of [page_a; page_b])
           (λ _, prompt [sample_post page_a]) initial = Finished st'
         ∧ (loadChunkFromStorage initial ≠ []
            ∨ seed_of (chunk_of [page_a; page_b]) ≠ [])
         ∧ last_snapshot st' = Some [] ∧ loadChunkFromStorage st' = [].
Proof.
  eexists.
  assert (loadChunkFromStorage initial ≠ []
          ∨ seed_of (chunk_of [page_a; page_b]) ≠ []) as Hsome
    by (right; vm_compute; discriminate).
  assert (handleScrapeClick 3 (chunk_of [page_a; page_b])
            (λ _, prompt [sample_post page_a]) initial
          = Finished _) as Hrun by (vm_compute; reflexivity).
  split; [exact Hrun|]. split; [exact Hsome|].
  exact (finished_run_leaves_empty_snapshot _ _ _ _ _ Hrun Hsome).
Defined.

End whole_run_facts.

(** * Properties of contentScript.js *)

(** ** Text cleaning *)

Section cleaning_facts.
Import ContentScript.

Lemma removeNonAscii_ascii (str : jsstring) :
  Forall (λ c, c ≤ 127) str → removeNonAscii str = str.
Proof.
  unfold removeNonAscii. induction 1 as [|c s Hc _ IH]; [done|].
  by rewrite filter_cons_True, IH.
Qed.

(** X14. [removeNonAscii] returns a string of ASCII code units, taken from
    its argument in order; it changes nothing exactly on the strings that
    are ASCII already, so that applying it twice is the same as once. *)
Theorem removeNonAscii_spec (str : jsstring) :
  Forall (λ c, c ≤ 127) (removeNonAscii str)
  ∧ removeNonAscii str `sublist_of` str
  ∧ (removeNonAscii str = str ↔ Forall (λ c, c ≤ 127) str)
  ∧ removeNonAscii (removeNonAscii str) = removeNonAscii str.
Proof.
  unfold removeNonAscii.
  assert (∀ s : jsstring, Forall (λ c, c ≤ 127) s →
            filter (λ c, c ≤ 127) s = s) as Hid.
  { intros s. induction 1 as [|c s Hc _ IH]; [done|].
    by rewrite filter_cons_True, IH. }
  assert (Forall (λ c, c ≤ 127) (filter (λ c, c ≤ 127) str)) as Hall.
  { apply Forall_forall. by intros c [Hc _]%list_elem_of_filter. }
  split; [done|]. split; [apply sublist_filter|]. split.
  - split; [by intros <-|apply Hid].
  - by apply Hid.
Qed.

End cleaning_facts.

(** ** Scrolling *)

Section scroll_facts.
Import ContentScript.
Implicit Types (heights : list N) (h l : N) (a n : nat).

Lemma scroll_loop_done heights a l :
  (3 ≤ a)%nat → scroll_loop heights a l = Some 0%nat.
Proof.
  intros Ha. destruct heights; cbn [scroll_loop];
    by rewrite decide_False by lia.
Qed.

Lemma scroll_loop_same heights a l :
  (a < 3)%nat →
  scroll_loop (l :: heights) a l = S <$> scroll_loop heights (S a) l.
Proof.
  intros Ha. cbn [scroll_loop]. by rewrite !decide_True by done.
Qed.

Lemma scroll_loop_changed heights a l h :
  (a < 3)%nat → h ≠ l →
  scroll_loop (h :: heights) a l = S <$> scroll_loop heights 0 h.
Proof.
  intros Ha Hh. cbn [scroll_loop].
  by rewrite decide_True, decide_False by done.
Qed.

(** The heights seen when the loop ends: counted from the value of
    [lastHeight], which stands for as many equal readings as the counter
    says plus one, the last four readings are equal. *)
Lemma scroll_loop_ends heights a l n :
  scroll_loop heights a l = Some n →
  (3 ≤ a + n)%nat ∧ (n ≤ length heights)%nat
  ∧ ∃ front h, replicate (S a) l ++ take n heights = front ++ [h; h; h; h].
Proof.
  revert a l n. induction heights as [|x heights IH]; intros a l n.
  - cbn [scroll_loop]. destruct (decide (a < 3)%nat) as [Ha|Ha]; [done|].
    intros [= <-]. split; [lia|]. split; [done|].
    exists (replicate (a - 3) l), l. rewrite take_0, app_nil_r.
    change [l; l; l; l] with (replicate 4 l).
    rewrite <- replicate_add. f_equal. lia.
  - destruct (decide (a < 3)%nat) as [Ha|Ha].
    + destruct (decide (x = l)) as [->|Hx].
      * rewrite scroll_loop_same by done.
        destruct (scroll_loop heights (S a) l) as [n'|] eqn:Hrec; [|done].
        intros [= <-]. destruct (IH _ _ _ Hrec) as (Hn & Hlen & front & h & Heq).
        split; [lia|]. split; [cbn [length]; lia|].
        exists front, h. rewrite <- Heq. cbn [take].
        rewrite (replicate_S_end (S a)), <- app_assoc. done.
      * rewrite scroll_loop_changed by done.
        destruct (scroll_loop heights 0 x) as [n'|] eqn:Hrec; [|done].
        intros [= <-]. destruct (IH _ _ _ Hrec) as (Hn & Hlen & front & h & Heq).
        split; [lia|]. split; [cbn [length]; lia|].
        exists (replicate (S a) l ++ front), h. cbn [take].
        change (x :: take n' heights) with (replicate 1 x ++ take n' heights).
        by rewrite Heq, app_assoc.
    + rewrite scroll_loop_done by lia. intros [= <-].
      split; [lia|]. split; [cbn [length]; lia|].
      exists (replicate (a - 3) l), l. rewrite take_0, app_nil_r.
      change [l; l; l; l] with (replicate 4 l).
      rewrite <- replicate_add. f_equal. lia.
Qed.

(** X15. When [infiniteScrollWithHeartbeat] returns it has sent at least
    three heartbeats, one per reading of the page height, and the last three
    readings are equal to each other and to the reading before them (for
    which the initial 0 stands when there are only three). *)
Theorem infiniteScrollWithHeartbeat_ends heights n :
  infiniteScrollWithHeartbeat heights = Some n →
  (3 ≤ n ≤ length heights)%nat
  ∧ ∃ front h, 0 :: take n heights = front ++ [h; h; h; h].
Proof.
  intros Hrun. apply scroll_loop_ends in Hrun as (Hn & Hlen & front & h & Heq).
  split; [lia|]. by exists front, h.
Qed.

Lemma infiniteScrollWithHeartbeat_ends_witness :
  infiniteScrollWithHeartbeat [100; 250; 250; 250; 250; 900] = Some 5%nat
  ∧ (3 ≤ 5 ≤ length [100; 250; 250; 250; 250; 900])%nat
  ∧ ∃ front h,
      0 :: take 5 [100; 250; 250; 250; 250; 900] = front ++ [h; h; h; h].
Proof.
  assert (infiniteScrollWithHeartbeat [100; 250; 250; 250; 250; 900]
          = Some 5%nat) as Hrun by reflexivity.
  split; [exact Hrun|].
  exact (infiniteScrollWithHeartbeat_ends _ _ Hrun).
Defined.

Lemma scroll_loop_stable (k : nat) h (later : list N) a :
  (3 ≤ a + k)%nat →
  ∃ n, scroll_loop (replicate k h ++ later) a h = Some n ∧ (n ≤ k)%nat.
Proof.
  revert a. induction k as [|k IH]; intros a Hk.
  - exists 0%nat. split; [|done]. apply scroll_loop_done. lia.
  - destruct (decide (a < 3)%nat) as [Ha|Ha].
    + cbn [replicate app]. rewrite scroll_loop_same by done.
      destruct (IH (S a)) as (n & -> & Hn); [lia|].
      exists (S n). split; [done|lia].
    + exists 0%nat. split; [|lia]. apply scroll_loop_done. lia.
Qed.

Lemma scroll_loop_settles (before later : list N) h a l :
  ∃ n, scroll_loop (before ++ [h; h; h; h] ++ later) a l = Some n
       ∧ (n ≤ length before + 4)%nat.
Proof.
  revert a l. induction before as [|x before IH]; intros a l.
  - cbn [app length]. destruct (decide (a < 3)%nat) as [Ha|Ha].
    + destruct (decide (h = l)) as [->|Hh].
      * destruct (scroll_loop_stable 4 l later a) as (n & Hn & Hle); [lia|].
        exists n. split; [exact Hn|lia].
      * rewrite scroll_loop_changed by done.
        destruct (scroll_loop_stable 3 h later 0) as (n & Hn & Hle); [lia|].
        cbn [replicate app] in Hn. rewrite Hn.
        exists (S n). split; [done|lia].
    + exists 0%nat. split; [|lia]. apply scroll_loop_done. lia.
  - rewrite <- app_comm_cons. cbn [length].
    destruct (decide (a < 3)%nat) as [Ha|Ha].
    + destruct (decide (x = l)) as [->|Hx].
      * rewrite scroll_loop_same by done.
        destruct (IH (S a) l) as (n & -> & Hn). exists (S n).
        split; [done|lia].
      * rewrite scroll_loop_changed by done.
        destruct (IH 0%nat x) as (n & -> & Hn). exists (S n).
        split; [done|lia].
    + exists 0%nat. split; [|lia]. apply scroll_loop_done. lia.
Qed.

(** X16. The scrolling ends as soon as the page height has read the same
    four times in a row, whatever it did before and whatever it would do
    later: after [before] and four equal readings the loop has returned. *)
Theorem infiniteScrollWithHeartbeat_settles (before later : list N) h :
  ∃ n, infiniteScrollWithHeartbeat (before ++ [h; h; h; h] ++ later) = Some n
       ∧ (n ≤ length before + 4)%nat.
Proof. apply scroll_loop_settles. Qed.

End scroll_facts.

(** ** The answer of the content script in the popup *)

Section answer_facts.
Import ContentScript.
Implicit Types (url : jsstring) (st : state) (doc : document).




End answer_facts.

(** ** The scraped records *)

Section record_facts.
Import ContentScript.
Implicit Types (s n pattern : jsstring) (doc : document).

Lemma starts_with_refl s rest : starts_with s (s ++ rest) = true.
Proof. apply starts_with_spec. by exists rest. Qed.

Lemma remove_first_at_end pattern c n :
  head pattern = Some c → c ∉ n →
  remove_first pattern (n ++ pattern) = n.
Proof.
  intros Hhead Hc. induction n as [|x n IH].
  - destruct pattern as [|c' pattern]; [done|]. cbn [app remove_first].
    pose proof (starts_with_refl (c' :: pattern) []) as Hself.
    rewrite app_nil_r in Hself. rewrite Hself. apply drop_all.
  - apply not_elem_of_cons in Hc as [Hx Hn].
    destruct pattern as [|c' pattern]; [done|]. injection Hhead as ->.
    cbn [app remove_first starts_with].
    rewrite bool_decide_false by done. cbn [andb]. by rewrite IH.
Qed.

Lemma remove_first_absent pattern c n :
  head pattern = Some c → c ∉ n → remove_first pattern n = n.
Proof.
  intros Hhead Hc. induction n as [|x n IH]; [done|].
  apply not_elem_of_cons in Hc as [Hx Hn].
  destruct pattern as [|c' pattern]; [done|]. injection Hhead as ->.
  cbn [remove_first starts_with].
  rewrite bool_decide_false by done. cbn [andb]. by rewrite IH.
Qed.

Lemma remove_comments_from_comment n :
  32 ∉ n →
  remove_first (lit " comments") (n ++ lit " comment") = n ++ lit " comment".
Proof.
  induction n as [|x n IH]; [done|].
  intros [Hx Hn]%not_elem_of_cons.
  change (lit " comments") with (32 :: lit "comments") at 1.
  cbn [app remove_first starts_with].
  rewrite bool_decide_false by done. cbn [andb].
  change (32 :: lit "comments") with (lit " comments"). by rewrite IH.
Qed.

Lemma trim_start_id s :
  Forall (λ c, whitespace c = false) s → trim_start s = s.
Proof. destruct 1 as [|c s Hc _]; [done|]. cbn. by rewrite Hc. Qed.

Lemma trim_id s : Forall (λ c, whitespace c = false) s → trim s = s.
Proof.
  intros Hs. unfold trim. rewrite (trim_start_id s Hs).
  rewrite trim_start_id by by apply Forall_reverse.
  apply reverse_involutive.
Qed.

(** X19. The count in the comments line. For a text that consists of a
    count without white space, say 1,234, followed by the word comments or
    comment, the cleaning of [scrapePosts] returns the count. *)
Theorem comments_text_count n :
  Forall (λ c, c ≤ 127 ∧ whitespace c = false) n →
  comments_text (n ++ lit " comments") = n
  ∧ comments_text (n ++ lit " comment") = n.
Proof.
  intros Hn.
  assert (Forall (λ c, c ≤ 127) n) as Hascii
    by (eapply Forall_impl; [exact Hn|]; by intros c [? _]).
  assert (Forall (λ c, whitespace c = false) n) as Hws
    by (eapply Forall_impl; [exact Hn|]; by intros c [_ ?]).
  assert (32 ∉ n) as Hsp.
  { intros Hin. rewrite Forall_forall in Hws. by specialize (Hws _ Hin). }
  assert (removeNonAscii n = n) as Hid by by apply removeNonAscii_ascii.
  unfold comments_text. split.
  - rewrite (remove_first_at_end _ 32) by done.
    rewrite (remove_first_absent _ 32) by done.
    by rewrite trim_id.
  - rewrite remove_comments_from_comment by done.
    rewrite (remove_first_at_end _ 32) by done.
    by rewrite trim_id.
Qed.

Lemma comments_text_count_witness :
  Forall (λ c, c ≤ 127 ∧ whitespace c = false) (lit "1,234")
  ∧ comments_text (lit "1,234" ++ lit " comments") = lit "1,234"
  ∧ comments_text (lit "1,234" ++ lit " comment") = lit "1,234".
Proof.
  assert (Forall (λ c, c ≤ 127 ∧ whitespace c = false) (lit "1,234")) as Hn
    by (repeat constructor; by vm_compute).
  split; [exact Hn|]. exact (comments_text_count _ Hn).
Defined.











Lemma trim_drops_space_at_end (name : jsstring) c d :
  head name = Some c → whitespace c = false →
  last name = Some d → whitespace d = false →
  trim (name ++ [32]) = name.
Proof.
  intros Hhead Hc Hlast Hd. unfold trim.
  destruct name as [|c' s]; [done|]. injection Hhead as ->.
  apply last_Some in Hlast as [front Hfront].
  assert (trim_start ((c :: s) ++ [32]) = (c :: s) ++ [32]) as ->
    by (cbn; by rewrite Hc).
  rewrite reverse_snoc, Hfront, reverse_snoc.
  assert (trim_start (32 :: d :: reverse front) = d :: reverse front) as ->
    by (cbn; by rewrite Hd).
  by rewrite <- reverse_snoc, reverse_involutive.
Qed.

(** X21. The page name taken from the document title: for a title made of
    a name, a space, a bar and the word LinkedIn, where the name is ASCII,
    holds no bar and neither begins nor ends with white space,
    [getCompanyName] returns the name. *)
Theorem getCompanyName_from_title doc (name : jsstring) c d :
  title_el doc = None →
  doc_title doc = name ++ lit " | LinkedIn" →
  Forall (λ x, x ≤ 127) name → 124 ∉ name →
  head name = Some c → whitespace c = false →
  last name = Some d → whitespace d = false →
  getCompanyName doc = name.
Proof.
  intros Hel Htitle Hascii Hbar Hhead Hc Hlast Hd. unfold getCompanyName.
  rewrite Hel, Htitle. cbn zeta.
  assert (removeNonAscii (name ++ lit " | LinkedIn")
          = (name ++ [32]) ++ lit "| LinkedIn") as ->.
  { rewrite removeNonAscii_ascii; [by rewrite <- app_assoc|].
    apply Forall_app. split; [done|]. repeat constructor; by vm_compute. }
  rewrite (remove_first_at_end _ 124); [|done|].
  - by eapply trim_drops_space_at_end.
  - rewrite elem_of_app, list_elem_of_singleton. intros [?|[=]]. by apply Hbar.
Qed.

Lemma getCompanyName_from_title_witness :
  getCompanyName titled_page = lit "Red Ventures".
Proof.
  assert (Forall (λ x, x ≤ 127) (lit "Red Ventures")) as Hascii
    by (repeat constructor; by vm_compute).
  assert (124 ∉ lit "Red Ventures") as Hbar
    by (apply (bool_decide_unpack _); by vm_compute).
  exact (getCompanyName_from_title titled_page (lit "Red Ventures") _ _
           eq_refl eq_refl Hascii Hbar eq_refl eq_refl eq_refl eq_refl).
Defined.

End record_facts.

(** ** Dates *)

Section date_facts.
Import ContentScript.

(** A property of the numbers below [k] can be checked number by number. *)
Lemma N_below (k : N) (P : N → Prop) :
  Forall P (N.of_nat <$> seq 0 (N.to_nat k)) → ∀ n, n < k → P n.
Proof.
  intros Hall n Hn. rewrite Forall_forall in Hall. apply Hall.
  apply list_elem_of_fmap. exists (N.to_nat n).
  split; [by rewrite N2Nat.id|]. apply elem_of_seq. lia.
Qed.

Lemma two_digits (n : N) :
  n < 100 →
  length (padStart 2 48 (String_of n)) = 2%nat
  ∧ Forall is_digit (padStart 2 48 (String_of n))
  ∧ read_number (padStart 2 48 (String_of n)) = n.
Proof.
  revert n.
  apply (N_below 100
           (λ n, length (padStart 2 48 (String_of n)) = 2%nat
                 ∧ Forall is_digit (padStart 2 48 (String_of n))
                 ∧ read_number (padStart 2 48 (String_of n)) = n)).
  apply (bool_decide_unpack _). by vm_compute.
Qed.

Lemma four_digits (n : N) :
  n < 10000 → 1000 ≤ n →
  length (String_of n) = 4%nat
  ∧ Forall is_digit (String_of n)
  ∧ read_number (String_of n) = n.
Proof.
  revert n.
  apply (N_below 10000
           (λ n, 1000 ≤ n →
                 length (String_of n) = 4%nat
                 ∧ Forall is_digit (String_of n)
                 ∧ read_number (String_of n) = n)).
  apply (bool_decide_unpack _). by vm_compute.
Qed.

Lemma parseDate_by_position (y mo d h mi s : jsstring) :
  length y = 4%nat → length mo = 2%nat → length d = 2%nat →
  length h = 2%nat → length mi = 2%nat → length s = 2%nat →
  let text := y ++ lit "-" ++ mo ++ lit "-" ++ d ++ lit " " ++ h ++ lit ":"
                ++ mi ++ lit ":" ++ s in
  length text = 19%nat
  ∧ parseDate text
    = {| fullYear := read_number y; month := read_number mo - 1;
         day := read_number d; hours := read_number h;
         minutes := read_number mi; seconds := read_number s |}.
Proof.
  intros Hy Hmo Hd Hh Hmi Hs.
  destruct y as [|? [|? [|? [|? [|]]]]]; try done.
  destruct mo as [|? [|? [|]]]; try done.
  destruct d as [|? [|? [|]]]; try done.
  destruct h as [|? [|? [|]]]; try done.
  destruct mi as [|? [|? [|]]]; try done.
  destruct s as [|? [|? [|]]]; try done.
Qed.

(** X22. The text that [formatDate] builds for a date with a four-digit
    year has nineteen characters: four digits, a hyphen, two digits, a
    hyphen, two digits, a space, and three pairs of digits separated by
    colons; the month is written counting from one. *)
Theorem formatDate_shape (dateObj : date_fields) :
  valid_date dateObj →
  ∃ y mo d h mi s : jsstring,
    formatDate dateObj
    = y ++ lit "-" ++ mo ++ lit "-" ++ d ++ lit " " ++ h ++ lit ":" ++ mi
        ++ lit ":" ++ s
    ∧ length (formatDate dateObj) = 19%nat
    ∧ (length y = 4%nat ∧ Forall is_digit y
       ∧ read_number y = fullYear dateObj)
    ∧ (length mo = 2%nat ∧ Forall is_digit mo
       ∧ read_number mo = month dateObj + 1)
    ∧ (length d = 2%nat ∧ Forall is_digit d ∧ read_number d = day dateObj)
    ∧ (length h = 2%nat ∧ Forall is_digit h ∧ read_number h = hours dateObj)
    ∧ (length mi = 2%nat ∧ Forall is_digit mi
       ∧ read_number mi = minutes dateObj)
    ∧ (length s = 2%nat ∧ Forall is_digit s
       ∧ read_number s = seconds dateObj).
Proof.
  intros (Hy & Hmo & Hd & Hh & Hmi & Hs).
  pose proof (four_digits (fullYear dateObj)) as Fy.
  pose proof (two_digits (month dateObj + 1)) as Fmo.
  pose proof (two_digits (day dateObj)) as Fd.
  pose proof (two_digits (hours dateObj)) as Fh.
  pose proof (two_digits (minutes dateObj)) as Fmi.
  pose proof (two_digits (seconds dateObj)) as Fs.
  specialize (Fy ltac:(lia) ltac:(lia)). specialize (Fmo ltac:(lia)).
  specialize (Fd ltac:(lia)). specialize (Fh ltac:(lia)).
  specialize (Fmi ltac:(lia)). specialize (Fs ltac:(lia)).
  eexists _, _, _, _, _, _. split; [reflexivity|].
  split; [|done].
  apply parseDate_by_position; tauto.
Qed.

Lemma formatDate_shape_witness :
  let dateObj := {| fullYear := 2024; month := 0; day := 5; hours := 9;
                    minutes := 3; seconds := 7 |} in
  valid_date dateObj
  ∧ formatDate dateObj = lit "2024-01-05 09:03:07"
  ∧ ∃ y mo d h mi s : jsstring,
      formatDate dateObj
      = y ++ lit "-" ++ mo ++ lit "-" ++ d ++ lit " " ++ h ++ lit ":" ++ mi
          ++ lit ":" ++ s
      ∧ length (formatDate dateObj) = 19%nat
      ∧ (length y = 4%nat ∧ Forall is_digit y
         ∧ read_number y = fullYear dateObj)
      ∧ (length mo = 2%nat ∧ Forall is_digit mo
         ∧ read_number mo = month dateObj + 1)
      ∧ (length d = 2%nat ∧ Forall is_digit d ∧ read_number d = day dateObj)
      ∧ (length h = 2%nat ∧ Forall is_digit h ∧ read_number h = hours dateObj)
      ∧ (length mi = 2%nat ∧ Forall is_digit mi
         ∧ read_number mi = minutes dateObj)
      ∧ (length s = 2%nat ∧ Forall is_digit s
         ∧ read_number s = seconds dateObj).
Proof.
  cbn zeta.
  assert (valid_date {| fullYear := 2024; month := 0; day := 5; hours := 9;
                        minutes := 3; seconds := 7 |}) as Hvalid
    by (unfold valid_date; cbn; lia).
  split; [exact Hvalid|]. split; [reflexivity|].
  exact (formatDate_shape _ Hvalid).
Defined.

(** X23. [formatDate] loses nothing: from its text the six fields of a
    valid date are read back by position, so that two valid dates with the
    same text are the same date. *)
Theorem formatDate_round_trip (dateObj : date_fields) :
  valid_date dateObj → parseDate (formatDate dateObj) = dateObj.
Proof.
  intros (Hy & Hmo & Hd & Hh & Hmi & Hs).
  destruct (four_digits (fullYear dateObj)) as (Ly & _ & Ry); [lia..|].
  destruct (two_digits (month dateObj + 1)) as (Lmo & _ & Rmo); [lia|].
  destruct (two_digits (day dateObj)) as (Ld & _ & Rd); [lia|].
  destruct (two_digits (hours dateObj)) as (Lh & _ & Rh); [lia|].
  destruct (two_digits (minutes dateObj)) as (Lmi & _ & Rmi); [lia|].
  destruct (two_digits (seconds dateObj)) as (Ls & _ & Rs); [lia|].
  unfold formatDate. cbn zeta.
  destruct (parseDate_by_position _ _ _ _ _ _ Ly Lmo Ld Lh Lmi Ls) as [_ ->].
  rewrite Ry, Rmo, Rd, Rh, Rmi, Rs. destruct dateObj. cbn in *. f_equal. lia.
Qed.

Lemma formatDate_round_trip_witness :
  let dateObj := {| fullYear := 1999; month := 11; day := 31; hours := 23;
                    minutes := 59; seconds := 59 |} in
  valid_date dateObj ∧ parseDate (formatDate dateObj) = dateObj.
Proof.
  cbn zeta.
  assert (valid_date {| fullYear := 1999; month := 11; day := 31;
                        hours := 23; minutes := 59; seconds := 59 |})
    as Hvalid by (unfold valid_date; cbn; lia).
  split; [exact Hvalid|]. exact (formatDate_round_trip _ Hvalid).
Defined.

End date_facts.

(** * The files as a CSV reader sees them *)

Section reader_facts.
Implicit Types (text written rest : jsstring) (rows : list (list jsstring)).

Lemma foldr_push text (cell : jsstring) (cells : list jsstring) rows :
  foldr push ((cell :: cells) :: rows) text = ((text ++ cell) :: cells) :: rows.
Proof. induction text as [|c text IH]; [done|]. cbn [foldr]. by rewrite IH. Qed.

Lemma read_csv_quoted text rest rows :
  head rest ≠ Some dquote → read_csv false rest = Some rows →
  read_csv true (CSV.escape_quotes text ++ dquote :: rest)
  = Some (foldr push rows text).
Proof.
  intros Hrest Hrows. induction text as [|c text IH].
  - cbn [CSV.escape_quotes app read_csv foldr]. rewrite decide_True by done.
    destruct rest as [|c' rest']; [by injection Hrows as <-|].
    rewrite decide_False; [done|]. intros ->. by apply Hrest.
  - cbn [CSV.escape_quotes foldr]. destruct (decide (c = dquote)) as [->|Hc].
    + cbn [app read_csv]. rewrite !decide_True by done. by rewrite IH.
    + cbn [app read_csv]. rewrite decide_False by done. by rewrite IH.
Qed.

Lemma renders_quoteCSV (str : option jsstring) :
  renders (CSV.quoteCSV str) (default [] str).
Proof.
  intros rest rows Hrest Hrows. unfold CSV.quoteCSV. cbn zeta.
  assert (match str with Some (c :: t) => c :: t | _ => [] end
          = default [] str) as -> by by destruct str as [[|]|].
  cbn [app read_csv]. rewrite decide_True by done.
  rewrite <- app_assoc. cbn [app]. by apply read_csv_quoted.
Qed.

Lemma renders_bare text :
  (dquote ∉ text) → (comma ∉ text) → (newline ∉ text) → renders text text.
Proof.
  intros Hq Hc Hn rest rows Hrest Hrows.
  induction text as [|c text IH]; [done|].
  apply not_elem_of_cons in Hq as [? ?]. apply not_elem_of_cons in Hc as [? ?].
  apply not_elem_of_cons in Hn as [? ?].
  cbn [app read_csv foldr]. rewrite !decide_False by done. by rewrite IH.
Qed.

(** A row of cells, each given with its written form. *)
Lemma read_csv_row (cells : list (jsstring * jsstring)) rest rows :
  cells ≠ [] → Forall (λ cell, renders cell.1 cell.2) cells →
  head rest ≠ Some dquote → read_csv false rest = Some ([[]] :: rows) →
  read_csv false (join [comma] cells.*1 ++ rest) = Some (cells.*2 :: rows).
Proof.
  intros Hne Hcells Hrest Hrows.
  induction Hcells as [|[written text] cells Hcell Hcells IH]; [done|].
  destruct cells as [|next cells].
  - cbn [fmap list_fmap join fst snd]. cbn [fst snd] in Hcell.
    rewrite (Hcell rest _ Hrest Hrows), foldr_push. by rewrite app_nil_r.
  - specialize (IH ltac:(done)).
    change (join [comma] ((written, text) :: next :: cells).*1)
      with (written ++ [comma] ++ join [comma] (next :: cells).*1).
    rewrite <- !app_assoc. cbn [fst snd] in Hcell.
    erewrite Hcell; [by rewrite foldr_push, app_nil_r|done|].
    cbn [app read_csv]. rewrite decide_False by done.
    rewrite decide_True by done. by rewrite IH.
Qed.

(** A file of rows. *)
Lemma read_csv_rows (table : list (list (jsstring * jsstring))) :
  table ≠ [] →
  Forall (λ cells, cells ≠ [] ∧ Forall (λ cell, renders cell.1 cell.2) cells)
         table →
  read_csv false (join [newline] ((λ cells, join [comma] cells.*1) <$> table))
  = Some ((λ cells, cells.*2) <$> table).
Proof.
  intros Hne Htable.
  induction Htable as [|cells table [Hcells Hall] Htable IH]; [done|].
  destruct table as [|next table].
  - cbn [fmap list_fmap join].
    rewrite <- (app_nil_r (join [comma] cells.*1)).
    by apply read_csv_row.
  - specialize (IH ltac:(done)).
    change (join [newline]
              ((λ cells, join [comma] cells.*1) <$> cells :: next :: table))
      with (join [comma] cells.*1 ++ [newline]
              ++ join [newline]
                   ((λ cells, join [comma] cells.*1) <$> next :: table)).
    apply read_csv_row; [done..|].
    cbn [app read_csv]. rewrite !decide_False by done.
    rewrite decide_True by done. by rewrite IH.
Qed.

Lemma renders_headers :
  Forall (λ cell : jsstring * jsstring, renders cell.1 cell.2)
         ((λ h, (h, h)) <$> CSV.headers).
Proof.
  apply Forall_fmap, Forall_forall. intros h Hh. cbn [fst snd].
  assert (Forall (λ h : jsstring,
                    (dquote ∉ h) ∧ (comma ∉ h) ∧ (newline ∉ h)) CSV.headers)
    as Hall by (apply (bool_decide_unpack _); by vm_compute).
  rewrite Forall_forall in Hall. destruct (Hall h Hh) as (? & ? & ?).
  by apply renders_bare.
Qed.

(** X24. The file that [generateCSV] builds is well-formed CSV whatever the
    scraped fields hold, commas, line feeds and quotes included: a CSV
    reader finds in it the header row and then one row of exactly six cells
    for each record, in order, holding the values of the record (a missing
    value as the empty text). *)
Theorem generateCSV_read_back (dataArray : list CSV.post) :
  read_csv false (CSV.generateCSV dataArray)
  = Some (CSV.headers :: (post_fields <$> dataArray)).
Proof.
  pose (rendered := λ item : CSV.post,
          (λ field, (CSV.quoteCSV field, default [] field))
            <$> [CSV.pageUrl item; CSV.pageName item; CSV.content item;
                 CSV.postDate item; CSV.likes item; CSV.comments item]).
  pose (table := ((λ h, (h, h)) <$> CSV.headers) :: (rendered <$> dataArray)).
  assert (CSV.generateCSV dataArray
          = join [newline] ((λ cells, join [comma] cells.*1) <$> table)) as ->.
  { unfold CSV.generateCSV, table. cbn zeta. rewrite fmap_cons. cbn [app].
    f_equal. f_equal. rewrite <- list_fmap_compose. done. }
  rewrite read_csv_rows.
  - unfold table. rewrite fmap_cons, <- !list_fmap_compose.
    f_equal.
  - done.
  - constructor.
    + split; [done|apply renders_headers].
    + apply Forall_fmap, Forall_forall. intros item _. split; [done|].
      unfold rendered. apply Forall_fmap, Forall_forall. intros field _.
      apply renders_quoteCSV.
Qed.

(** X25. The text that [downloadOneRowCSV] builds and hands to
    [downloadCSV] is read by a CSV reader as the header row and one row of
    six cells: the url, the page name and the content as they were given,
    for all strings of code units, and three empty cells. *)
Theorem oneRowCSV_read_back (url pageName content : jsstring) :
  read_csv false (CSV.oneRowCSV url pageName content)
  = Some [CSV.headers; [url; pageName; content; []; []; []]].
Proof.
  pose (table := [(λ h, (h, h)) <$> CSV.headers;
                  [(CSV.quoteCSV (Some url), url);
                   (CSV.quoteCSV (Some pageName), pageName);
                   (CSV.quoteCSV (Some content), content);
                   ([], []); ([], []); ([], [])]]).
  change (CSV.oneRowCSV url pageName content)
    with (join [newline] ((λ cells, join [comma] cells.*1) <$> table)).
  rewrite read_csv_rows; [done|done|].
  constructor; [split; [done|apply renders_headers]|].
  constructor; [|done]. split; [done|].
  repeat (constructor;
          [first [apply (renders_quoteCSV (Some _))
                 |by intros rest rows _ Hrows]|]).
  constructor.
Qed.

End reader_facts.
